(** * ts-enums: the enum registration and sealing protocol

    A shallow embedding of [src/ts-enums.ts].  The file holds two variants
    of the same two classes:

    - the TypeScript source (lines 1-164), embedded in [Module TS];
    - the compiled ES5 bundle (lines 165-352), embedded in [Module ES5].

    Both variants mutate shared JavaScript objects (enum members are
    reachable from the enum object and from the registry array, and are
    frozen in place), so the embedding is a store of objects addressed by
    location, threaded through a state-and-exception monad.  A thrown
    exception keeps the store as it was at the throw: that is what makes
    the partial effects of a failed sealing visible. *)

From stdpp Require Import base option list strings gmap.

Local Open Scope string_scope.
Local Open Scope nat_scope.
Local Open Scope list_scope.

(** ** The object store *)

(** Locations are indices into a heap. *)
Abbreviation loc := nat (only parsing).

(** A concrete [EnumValue] subclass, identified by its constructor. *)
Abbreviation cls := string (only parsing).

(** An [EnumValue] instance.  [_ordinal] and [_propName] are [None] while
    the property is absent.  Every property of these objects is created
    enumerable; a property is read-only and the object non-extensible
    exactly when [value_frozen] holds ([Object.freeze] is the only source
    of read-only properties that outlive a call of the library). *)
Record EnumValueObj := mkEnumValue {
  value_constructor : cls;
  _description : string;
  _ordinal : option nat;
  _propName : option string;
  value_frozen : bool
}.

(** What an own property of an [Enum] object can hold: an [EnumValue]
    instance (by reference) or any other value. *)
Inductive jsval :=
  | VEnumValue (r : loc)
  | VOther.

(** An [Enum] instance: its [name] property ([None] while unset) and its
    other own properties in [Object.getOwnPropertyNames] order.  All keys
    are strings: properties keyed by a symbol are not part of the model. *)
Record EnumObj := mkEnum {
  e_name : option string;
  e_props : list (string * jsval);
  e_frozen : bool
}.

(** An array of [EnumValue] references. *)
Record ArrayObj := mkArray {
  elems : list loc;
  array_frozen : bool
}.

(** The store: three heaps, the static map [Enum.enumValues] (keyed by
    whatever [theEnum.name] holds, [None] standing for [undefined]), the
    set of constructors that own the [INITIALIZED] symbol, and the static
    map [EnumValue.sizes] of the ES5 variant. *)
Record state := mkState {
  objs : list EnumValueObj;
  enums : list EnumObj;
  arrays : list ArrayObj;
  enumValues : gmap (option string) loc;
  INITIALIZED : gset cls;
  sizes : gmap cls nat
}.

Definition empty_state : state := mkState [] [] [] ∅ ∅ ∅.

Definition with_objs (f : list EnumValueObj → list EnumValueObj) (σ : state) : state :=
  mkState (f (objs σ)) (enums σ) (arrays σ) (enumValues σ) (INITIALIZED σ) (sizes σ).
Definition with_enums (f : list EnumObj → list EnumObj) (σ : state) : state :=
  mkState (objs σ) (f (enums σ)) (arrays σ) (enumValues σ) (INITIALIZED σ) (sizes σ).
Definition with_arrays (f : list ArrayObj → list ArrayObj) (σ : state) : state :=
  mkState (objs σ) (enums σ) (f (arrays σ)) (enumValues σ) (INITIALIZED σ) (sizes σ).
Definition with_enumValues (f : gmap (option string) loc → gmap (option string) loc)
    (σ : state) : state :=
  mkState (objs σ) (enums σ) (arrays σ) (f (enumValues σ)) (INITIALIZED σ) (sizes σ).
Definition with_INITIALIZED (f : gset cls → gset cls) (σ : state) : state :=
  mkState (objs σ) (enums σ) (arrays σ) (enumValues σ) (f (INITIALIZED σ)) (sizes σ).
Definition with_sizes (f : gmap cls nat → gmap cls nat) (σ : state) : state :=
  mkState (objs σ) (enums σ) (arrays σ) (enumValues σ) (INITIALIZED σ) (f (sizes σ)).

(** ** The monad: state with exceptions that keep the state *)

(** [Error msg] is [new Error(msg)]; [TypeError] is what the runtime throws
    in strict code (class bodies and ES modules are strict) on a write to a
    frozen object or on a refused [Object.defineProperty]. *)
Inductive exn :=
  | Error (msg : string)
  | TypeError.

Inductive outcome (A : Type) :=
  | Return (a : A)
  | Throw (e : exn).
Arguments Return {A} a.
Arguments Throw {A} e.

Definition M (A : Type) : Type := state → outcome A * state.

Definition ret {A} (a : A) : M A := λ σ, (Return a, σ).
Definition throw {A} (e : exn) : M A := λ σ, (Throw e, σ).
Definition bind {A B} (m : M A) (k : A → M B) : M B :=
  λ σ, match m σ with
       | (Return a, σ') => k a σ'
       | (Throw e, σ') => (Throw e, σ')
       end.

Declare Scope js_scope.
Delimit Scope js_scope with js.
Notation "x <- m ;; k" := (bind m (λ x, k))
  (at level 100, m at next level, right associativity) : js_scope.
Notation "m ;; k" := (bind m (λ _, k))
  (at level 100, right associativity) : js_scope.
Local Open Scope js_scope.

Definition gets {A} (f : state → A) : M A := λ σ, (Return (f σ), σ).
Definition modify (f : state → state) : M unit := λ σ, (Return tt, f σ).

(** Dereferencing.  Every reference a JavaScript program holds is live; the
    [None] branches below are the model's answer on a store that is not
    closed under references (reading a property of [undefined]). *)
Definition get_obj (r : loc) : M EnumValueObj :=
  λ σ, match objs σ !! r with
       | Some o => (Return o, σ)
       | None => (Throw TypeError, σ)
       end.
Definition get_enum (g : loc) : M EnumObj :=
  λ σ, match enums σ !! g with
       | Some e => (Return e, σ)
       | None => (Throw TypeError, σ)
       end.
Definition get_array (a : loc) : M ArrayObj :=
  λ σ, match arrays σ !! a with
       | Some arr => (Return arr, σ)
       | None => (Throw TypeError, σ)
       end.

Definition put_obj (r : loc) (o : EnumValueObj) : M unit :=
  modify (with_objs (λ h, <[r := o]> h)).
Definition put_enum (g : loc) (e : EnumObj) : M unit :=
  modify (with_enums (λ h, <[g := e]> h)).
Definition put_array (a : loc) (arr : ArrayObj) : M unit :=
  modify (with_arrays (λ h, <[a := arr]> h)).

(** Allocation: the new object lives at the end of its heap. *)
Definition new_obj (o : EnumValueObj) : M loc :=
  λ σ, (Return (length (objs σ)), with_objs (λ h, h ++ [o]) σ).
Definition new_array (l : list loc) : M loc :=
  λ σ, (Return (length (arrays σ)), with_arrays (λ h, h ++ [mkArray l false]) σ).

(** ** Runtime primitives used by the source *)

Definition set_ordinal (n : option nat) (o : EnumValueObj) : EnumValueObj :=
  mkEnumValue (value_constructor o) (_description o) n (_propName o) (value_frozen o).
Definition set_propName (p : option string) (o : EnumValueObj) : EnumValueObj :=
  mkEnumValue (value_constructor o) (_description o) (_ordinal o) p (value_frozen o).
Definition set_description (d : string) (o : EnumValueObj) : EnumValueObj :=
  mkEnumValue (value_constructor o) d (_ordinal o) (_propName o) (value_frozen o).
Definition freeze_obj (o : EnumValueObj) : EnumValueObj :=
  mkEnumValue (value_constructor o) (_description o) (_ordinal o) (_propName o) true.

(** [Object.defineProperty(enumValue, '_ordinal', {value: index,
    configurable: false, writable: false, enumerable: true})].
    On a frozen object the call is accepted only when it changes nothing
    (the property exists with the same value); otherwise it throws.  On an
    extensible object it (re)defines the property. *)
Definition defineProperty_ordinal (enumValue : loc) (index : nat) : M unit :=
  o <- get_obj enumValue;;
  if value_frozen o
  then if decide (_ordinal o = Some index) then ret tt else throw TypeError
  else put_obj enumValue (set_ordinal (Some index) o).

(** The same call for ['_propName']. *)
Definition defineProperty_propName (enumValue : loc) (propName : string) : M unit :=
  o <- get_obj enumValue;;
  if value_frozen o
  then if decide (_propName o = Some propName) then ret tt else throw TypeError
  else put_obj enumValue (set_propName (Some propName) o).

(** [Object.freeze(enumValue)]. *)
Definition Object_freeze_obj (enumValue : loc) : M unit :=
  o <- get_obj enumValue;;
  put_obj enumValue (freeze_obj o).

(** [Object.freeze(enumValues)] on an array. *)
Definition Object_freeze_array (a : loc) : M unit :=
  arr <- get_array a;;
  put_array a (mkArray (elems arr) true).

(** [Object.freeze(theEnum)]. *)
Definition Object_freeze_enum (theEnum : loc) : M unit :=
  e <- get_enum theEnum;;
  put_enum theEnum (mkEnum (e_name e) (e_props e) true).

(** [this.name = name] (lines 162, 345).  Both variants are strict code (a
    class body; an ES module, line 352), where a write to a property of a
    frozen object throws a [TypeError]. *)
Definition assign_name (this : loc) (name : string) : M unit :=
  e <- get_enum this;;
  if e_frozen e then throw TypeError
  else put_enum this (mkEnum (Some name) (e_props e) (e_frozen e)).

(** [values[0].constructor[INITIALIZED] = true]. *)
Definition mark_INITIALIZED (c : cls) : M unit :=
  modify (with_INITIALIZED (λ s, {[c]} ∪ s)).

(** [Enum.enumValues.set(key, a)]. *)
Definition enumValues_set (key : option string) (a : loc) : M unit :=
  modify (with_enumValues (λ m, <[key := a]> m)).

(** [Array.prototype.map] with an effectful callback that also receives
    the index; the callback runs left to right and a throw stops it. *)
Fixpoint mapM_from {A B} (f : A → nat → M B) (index : nat) (l : list A) : M (list B) :=
  match l with
  | [] => ret []
  | x :: l' =>
      y <- f x index;;
      ys <- mapM_from f (S index) l';;
      ret (y :: ys)
  end.

(** [Object.getOwnPropertyNames(theEnum).filter(propName =>
    theEnum[propName] instanceof EnumValue)], each surviving name paired
    with [theEnum[propName]] (the keys of an object are distinct, so the
    later read of [theEnum[propName]] yields the paired value). *)
Definition instanceof_EnumValue (kv : string * jsval) : option (string * loc) :=
  match kv.2 with
  | VEnumValue r => Some (kv.1, r)
  | VOther => None
  end.
Definition own_EnumValues (e : EnumObj) : list (string * loc) :=
  omap instanceof_EnumValue (e_props e).

(** A string interpolation of [theEnum.name]. *)
Definition name_text (n : option string) : string := default "undefined" n.

(** Getters of [EnumValue], read through a reference. *)
Definition description_of (σ : state) (x : loc) : option string :=
  _description <$> objs σ !! x.
Definition ordinal_of (σ : state) (x : loc) : option nat :=
  objs σ !! x ≫= _ordinal.
Definition propName_of (σ : state) (x : loc) : option string :=
  objs σ !! x ≫= _propName.

(** [Array.prototype.find]: the first element satisfying the callback. *)
Definition Array_find (f : loc → bool) (l : list loc) : option loc := List.find f l.

(** [Enum.values(name)]: a copy of the registered array, or a new empty
    array ([[...values]] in the TypeScript source, [values.slice()] in the
    bundle: both allocate a new, unfrozen array). *)
Definition Enum_values (name : option string) : M loc :=
  reg <- gets enumValues;;
  match reg !! name with
  | Some a => arr <- get_array a;; new_array (elems arr)
  | None => new_array []
  end.

(** The [values] accessor: [Enum.values(this.name)]. *)
Definition values (this : loc) : M loc :=
  e <- get_enum this;;
  Enum_values (e_name e).

(** [byPropName]: [this.values.find(x => x.propName === propName)]. *)
Definition byPropName (this : loc) (propName : string) : M (option loc) :=
  a <- values this;;
  arr <- get_array a;;
  σ <- gets id;;
  ret (Array_find (λ x, bool_decide (propName_of σ x = Some propName)) (elems arr)).

(** [byDescription]: [this.values.find(x => x.description === description)]. *)
Definition byDescription (this : loc) (description : string) : M (option loc) :=
  a <- values this;;
  arr <- get_array a;;
  σ <- gets id;;
  ret (Array_find (λ x, bool_decide (description_of σ x = Some description)) (elems arr)).

(** ** What client code can do to the objects it holds

    These are the assignments of strict JavaScript, needed to state what
    freezing prevents and what a defensive copy protects.  A write to a
    frozen target throws a [TypeError] and leaves the target as it was
    (sloppy code would drop the write silently; the store is the same).
    The property [name] of an enum object is kept apart in [e_name]:
    the keys below are the other property names. *)

(** [new] of a concrete [Enum] subclass before its constructor body runs:
    an object without own properties. *)
Definition Enum_new : M loc :=
  λ σ, (Return (length (enums σ)), with_enums (λ h, h ++ [mkEnum None [] false]) σ).

Fixpoint props_set (k : string) (v : jsval) (ps : list (string * jsval)) :
    list (string * jsval) :=
  match ps with
  | [] => [(k, v)]
  | (k', v') :: ps' => if decide (k' = k) then (k, v) :: ps' else (k', v') :: props_set k v ps'
  end.

(** The keys for which an assignment [theEnum[k] = v] is a plain write of
    an own data property that is enumerated after the existing ones.
    Left out are [name], which is held in [e_name] and declared private;
    [values], an accessor without a setter on the prototype (the write
    throws), and [__proto__] (the write changes the prototype); the names
    of the methods that the operations below call directly, which an own
    property would shadow; and every key that starts with a digit, among
    them the integer keys, which JavaScript enumerates before all other
    keys in ascending order whatever the order of assignment. *)
Definition reserved_keys : list string :=
  ["name"; "values"; "byPropName"; "byDescription"; "initEnum"; "__proto__"].

Definition ordinary_key (k : string) : bool :=
  bool_decide (k ∉ reserved_keys) &&
  match k with
  | EmptyString => true
  | String a _ =>
      negb ((48 <=? Ascii.nat_of_ascii a) && (Ascii.nat_of_ascii a <=? 57))
  end.

Record prop_key := okey {
  key_text : string;
  key_ok : Is_true (ordinary_key key_text)
}.

(** [theEnum[k] = v] for such a key: overwrites in place or appends a new
    own property. *)
Definition assign_prop (theEnum : loc) (k : prop_key) (v : jsval) : M unit :=
  e <- get_enum theEnum;;
  if e_frozen e then throw TypeError
  else put_enum theEnum
         (mkEnum (e_name e) (props_set (key_text k) v (e_props e)) (e_frozen e)).

(** [delete theEnum[k]], for any key: deleting a property the object does
    not have succeeds and does nothing, also on a frozen object; deleting
    an own property of a frozen object throws.  The property [name] is
    own once it has been assigned. *)
Definition delete_prop (theEnum : loc) (k : string) : M unit :=
  e <- get_enum theEnum;;
  if decide (k = "name")
  then match e_name e with
       | Some _ =>
           if e_frozen e then throw TypeError
           else put_enum theEnum (mkEnum None (e_props e) (e_frozen e))
       | None => ret tt
       end
  else
    if bool_decide (k ∈ (e_props e).*1)
    then if e_frozen e then throw TypeError
         else put_enum theEnum
                (mkEnum (e_name e) (filter (λ kv, kv.1 ≠ k) (e_props e)) (e_frozen e))
    else ret tt.

(** A write to one of the three fields of an [EnumValue]. *)
Inductive field_write :=
  | WriteDescription (d : string)
  | WriteOrdinal (n : nat)
  | WritePropName (p : string).

Definition apply_write (w : field_write) (o : EnumValueObj) : EnumValueObj :=
  match w with
  | WriteDescription d => set_description d o
  | WriteOrdinal n => set_ordinal (Some n) o
  | WritePropName p => set_propName (Some p) o
  end.

Definition assign_field (enumValue : loc) (w : field_write) : M unit :=
  o <- get_obj enumValue;;
  if value_frozen o then throw TypeError
  else put_obj enumValue (apply_write w o).

(** Any in-place mutation of an array ([push], [pop], [splice], an indexed
    write, a write to [length]): its elements become [l]. *)
Definition array_mutate (a : loc) (l : list loc) : M unit :=
  arr <- get_array a;;
  if array_frozen arr then throw TypeError
  else put_array a (mkArray l (array_frozen arr)).

(** ** The TypeScript source (lines 1-164) *)

Module TS.

Definition illegal_instantiation : string :=
  "EnumValue classes can’t be instantiated individually".

(** [EnumValue] constructor (lines 15-19), called as [new new_target(description)].
    The object under construction is unreachable when the guard throws. *)
Definition EnumValue_new (new_target : cls) (description : string) : M loc :=
  marked <- gets INITIALIZED;;
  if decide (new_target ∈ marked)
  then throw (Error illegal_instantiation)
  else new_obj (mkEnumValue new_target description None None false).

(** The callback given to [.map] (lines 99-115). *)
Definition map_callback (kv : string * loc) (index : nat) : M loc :=
  let '(propName, enumValue) := kv in
  defineProperty_ordinal enumValue index;;
  defineProperty_propName enumValue propName;;
  Object_freeze_obj enumValue;;
  ret enumValue.

(** [Enum.enumValuesFromObject] (lines 94-120). *)
Definition enumValuesFromObject (theEnum : loc) : M loc :=
  e <- get_enum theEnum;;
  values <- mapM_from map_callback 0 (own_EnumValues e);;
  match values with
  | v0 :: _ => o <- get_obj v0;; mark_INITIALIZED (value_constructor o)
  | [] => ret tt
  end;;
  new_array values.

(** The static [Enum.initEnum] (lines 74-84). *)
Definition Enum_initEnum (name : string) (theEnum : loc) : M unit :=
  e <- get_enum theEnum;;
  reg <- gets enumValues;;
  match reg !! e_name e with
  | Some _ => throw (Error ("Duplicate name: " +:+ name_text (e_name e)))
  | None =>
      enumValues <- enumValuesFromObject theEnum;;
      Object_freeze_array enumValues;;
      e' <- get_enum theEnum;;
      enumValues_set (e_name e') enumValues
  end.

(** The instance method [initEnum] (lines 161-164). *)
Definition initEnum (this : loc) (name : string) : M unit :=
  assign_name this name;;
  Enum_initEnum name this.

End TS.

(** ** The ES5 bundle (lines 165-352) *)

Module ES5.

Definition illegal_instantiation : string :=
  "EnumValue classes can’t be instantiated individually".

(** [EnumValue] constructor (lines 175-190): the guard, then the
    per-constructor instance counter that provides the ordinal.  The
    description is stored before the guard runs, on an object that is
    unreachable when the guard throws. *)
Definition EnumValue_new (new_target : cls) (description : string) : M loc :=
  marked <- gets INITIALIZED;;
  if decide (new_target ∈ marked)
  then throw (Error illegal_instantiation)
  else
    sz <- gets sizes;;
    let size := default 0 (sz !! new_target) in
    this <- new_obj (mkEnumValue new_target description (Some size) None false);;
    modify (with_sizes (λ m, <[new_target := S size]> m));;
    ret this.

(** [Array.prototype.indexOf]: the first index holding [value] (compared
    with [===]), or [-1]. *)
Fixpoint indexOf_from {A} `{EqDecision A} (values : list A) (value : A) (i : Z) : Z :=
  match values with
  | [] => -1
  | v :: vs => if decide (v = value) then i else indexOf_from vs value (i + 1)
  end.
Definition indexOf {A} `{EqDecision A} (values : list A) (value : A) : Z :=
  indexOf_from values value 0.

(** [Array.prototype.filter] with a callback that also receives the index. *)
Fixpoint filter_from {A} (f : A → Z → bool) (i : Z) (l : list A) : list A :=
  match l with
  | [] => []
  | x :: l' => if f x i then x :: filter_from f (i + 1) l' else filter_from f (i + 1) l'
  end.

(** [Enum.unique] (lines 294-296). *)
Definition unique {A} `{EqDecision A} (values : list A) : list A :=
  filter_from (λ value i, bool_decide (indexOf values value = i)) 0 values.

Definition duplicate_descriptions (n : option string) : string :=
  "All descriptions must be unique for a given enum type." +:+
  ("Instead, there are multiples in " +:+ name_text n).

(** The callback given to [.map] (lines 269-279); it ignores the index. *)
Definition map_callback (kv : string * loc) (index : nat) : M loc :=
  let '(propName, enumValue) := kv in
  defineProperty_propName enumValue propName;;
  Object_freeze_obj enumValue;;
  ret enumValue.

(** [Enum.enumValuesFromObject] (lines 266-289). *)
Definition enumValuesFromObject (theEnum : loc) : M loc :=
  e <- get_enum theEnum;;
  values <- mapM_from map_callback 0 (own_EnumValues e);;
  match values with
  | v0 :: _ => o <- get_obj v0;; mark_INITIALIZED (value_constructor o)
  | [] => ret tt
  end;;
  σ <- gets id;;
  let descriptions := map (description_of σ) values in
  if decide (length values ≠ length (unique descriptions))
  then e' <- get_enum theEnum;;
       throw (Error (duplicate_descriptions (e_name e')))
  else new_array values.

(** The static [Enum.initEnum] (lines 250-257). *)
Definition Enum_initEnum (name : string) (theEnum : loc) : M unit :=
  e <- get_enum theEnum;;
  reg <- gets enumValues;;
  match reg !! e_name e with
  | Some _ => throw (Error ("Duplicate name: " +:+ name_text (e_name e)))
  | None =>
      enumValues <- enumValuesFromObject theEnum;;
      Object_freeze_enum theEnum;;
      e' <- get_enum theEnum;;
      enumValues_set (e_name e') enumValues
  end.

(** [Enum.prototype.initEnum] (lines 344-347). *)
Definition initEnum (this : loc) (name : string) : M unit :=
  assign_name this name;;
  Enum_initEnum name this.

(** [Enum.prototype.toString] (lines 336-338): [this.name]. *)
Definition toString (this : loc) : M (option string) :=
  e <- get_enum this;;
  ret (e_name e).

End ES5.

(** ** The two variants side by side *)

Inductive variant :=
  | TypeScript
  | Bundle.

Definition EnumValue_new_of (v : variant) : cls → string → M loc :=
  match v with
  | TypeScript => TS.EnumValue_new
  | Bundle => ES5.EnumValue_new
  end.

Definition initEnum_of (v : variant) : loc → string → M unit :=
  match v with
  | TypeScript => TS.initEnum
  | Bundle => ES5.initEnum
  end.

(** Who answers the call [theEnum.toString()]: the method found on the
    prototype chain, with its result (a JavaScript value that may be
    [undefined]), or an own property of the object. *)
Inductive answer :=
  | Inherited (s : option string)
  | OwnProperty.

(** [theEnum.toString()].  Property lookup reaches an own property first:
    when the object has one named [toString], which only client code can
    have put there, that value is called (or the call throws, when it is
    not a function), and the model leaves the result open.  Otherwise the
    bundle finds [Enum.prototype.toString]; the TypeScript class body
    (lines 59-164) defines no [toString], so the lookup ends at
    [Object.prototype.toString], which yields the text below for these
    objects. *)
Definition toString_of (v : variant) (this : loc) : M answer :=
  e <- get_enum this;;
  if bool_decide ("toString" ∈ (e_props e).*1) then ret OwnProperty
  else match v with
       | TypeScript => ret (Inherited (Some "[object Object]"))
       | Bundle => s <- ES5.toString this;; ret (Inherited s)
       end.

(** The two constructors throw the same message. *)
Definition illegal_instantiation : string := TS.illegal_instantiation.

(** ** Client programs *)

(** One step of a client: a call into the library or one of the
    assignments above. *)
Inductive op :=
  | OpEnumNew
  | OpNew (c : cls) (description : string)
  | OpInitEnum (g : loc) (name : string)
  | OpValues (g : loc)
  | OpByPropName (g : loc) (propName : string)
  | OpByDescription (g : loc) (description : string)
  | OpToString (g : loc)
  | OpAssignProp (g : loc) (k : prop_key) (x : jsval)
  | OpDeleteProp (g : loc) (k : string)
  | OpAssignField (r : loc) (w : field_write)
  | OpArrayMutate (a : loc) (l : list loc).

(** The store after a step, whether it returned or threw. *)
Definition run_op (v : variant) (o : op) (σ : state) : state :=
  match o with
  | OpEnumNew => (Enum_new σ).2
  | OpNew c d => (EnumValue_new_of v c d σ).2
  | OpInitEnum g n => (initEnum_of v g n σ).2
  | OpValues g => (values g σ).2
  | OpByPropName g p => (byPropName g p σ).2
  | OpByDescription g d => (byDescription g d σ).2
  | OpToString g => (toString_of v g σ).2
  | OpAssignProp g k x => (assign_prop g k x σ).2
  | OpDeleteProp g k => (delete_prop g k σ).2
  | OpAssignField r w => (assign_field r w σ).2
  | OpArrayMutate a l => (array_mutate a l σ).2
  end.

Definition run_ops (v : variant) (ops : list op) (σ : state) : state :=
  foldl (λ τ o, run_op v o τ) σ ops.

(** The body of a concrete enum's constructor before it calls
    [initEnum]: each member is constructed and assigned in turn. *)
Fixpoint declare (v : variant) (g : loc) (ms : list (prop_key * cls * string)) : M unit :=
  match ms with
  | [] => ret tt
  | (k, c, d) :: ms' =>
      x <- EnumValue_new_of v c d;;
      assign_prop g k (VEnumValue x);;
      declare v g ms'
  end.

(** The store in which a new enum object (at location 0) holds the
    members [ms] and [initEnum] has not run yet. *)
Definition declared (v : variant) (ms : list (prop_key * cls * string)) : state :=
  ((g <- Enum_new;; declare v g ms) empty_state).2.

(** The same declaration made in any store [σ]: the new enum object is at
    [length (enums σ)] and its members follow the instances of [σ]. *)
Definition declared_in (v : variant) (σ : state) (ms : list (prop_key * cls * string)) :
    state :=
  ((g <- Enum_new;; declare v g ms) σ).2.

(** The end-to-end example of the specification. *)
Definition Season : list (prop_key * cls * string) :=
  [(okey "SPRING" I, "SeasonValue", "Spring"); (okey "SUMMER" I, "SeasonValue", "Summer");
   (okey "FALL" I, "SeasonValue", "Fall"); (okey "WINTER" I, "SeasonValue", "Winter")].

(** Two members sharing a description. *)
Definition Twins : list (prop_key * cls * string) :=
  [(okey "A" I, "TwinValue", "same"); (okey "B" I, "TwinValue", "same")].

(** Members of two concrete classes in one enum. *)
Definition Mixed : list (prop_key * cls * string) :=
  [(okey "CAT" I, "Cat", "cat"); (okey "DOG" I, "Dog", "dog")].

(** Members constructed in one order and assigned in the other. *)
Definition out_of_order (v : variant) : state :=
  ((g <- Enum_new;;
    second <- EnumValue_new_of v "Letter" "b";;
    first <- EnumValue_new_of v "Letter" "a";;
    assign_prop g (okey "A" I) (VEnumValue first);;
    assign_prop g (okey "B" I) (VEnumValue second)) empty_state).2.

(** The store after the constructor of such an enum has run to its end,
    whether [initEnum] returned or threw. *)
Definition sealed (v : variant) (ms : list (prop_key * cls * string)) (n : string) : state :=
  (initEnum_of v 0 n (declared v ms)).2.

Definition sealed_out_of_order (v : variant) : state :=
  (initEnum_of v 0 "Letters" (out_of_order v)).2.

(** What a client observes of the members through [values]. *)
Definition observe (g : loc) : M (list (option string * option nat)) :=
  a <- values g;;
  arr <- get_array a;;
  σ <- gets id;;
  ret (map (λ x, (propName_of σ x, ordinal_of σ x)) (elems arr)).

(** ** The rest of the two classes *)

(** [EnumValue.prototype.toString] (lines 31-33 and 204-206): the name of
    the constructor, a dot, and the property name (the text [undefined]
    while it is not set).  The model names a class by the name of its
    constructor. *)
Definition EnumValue_toString (this : loc) : M string :=
  o <- get_obj this;;
  ret (value_constructor o +:+ "." +:+ name_text (_propName o)).

(** ** What a declaration leaves in the store *)

(** The objects that [declare] constructs, in order, starting from the
    instance counters [sz]: the TypeScript constructor sets no ordinal, the
    bundle's takes it from the counter of the class and advances it. *)
Fixpoint constructed (v : variant) (sz : gmap string nat)
    (ms : list (prop_key * cls * string)) : list EnumValueObj :=
  match ms with
  | [] => []
  | (_, c, d) :: ms' =>
      match v with
      | TypeScript => mkEnumValue c d None None false :: constructed v sz ms'
      | Bundle =>
          mkEnumValue c d (Some (default 0 (sz !! c))) None false ::
          constructed v (<[c := S (default 0 (sz !! c))]> sz) ms'
      end
  end.

(** The counters after these constructions. *)
Fixpoint counted (v : variant) (sz : gmap string nat)
    (ms : list (prop_key * cls * string)) : gmap string nat :=
  match ms with
  | [] => sz
  | (_, c, _) :: ms' =>
      match v with
      | TypeScript => counted v sz ms'
      | Bundle => counted v (<[c := S (default 0 (sz !! c))]> sz) ms'
      end
  end.

(** The properties that [declare] assigns, the first one referring to the
    object at [r]. *)
Fixpoint keyed (r : loc) (ms : list (prop_key * cls * string)) : list (string * jsval) :=
  match ms with
  | [] => []
  | (k, _, _) :: ms' => (key_text k, VEnumValue r) :: keyed (S r) ms'
  end.

(** The store that [declare] reaches from [σ] on the enum object [e] at
    [g]. *)
Definition declared_from (v : variant) (σ : state) (g : loc) (e : EnumObj)
    (ms : list (prop_key * cls * string)) : state :=
  mkState (objs σ ++ constructed v (sizes σ) ms)
    (<[g := mkEnum (e_name e) (e_props e ++ keyed (length (objs σ)) ms) false]> (enums σ))
    (arrays σ) (enumValues σ) (INITIALIZED σ) (counted v (sizes σ) ms).

(** The keys, the classes and the descriptions of a declaration. *)
Definition keys_of (ms : list (prop_key * cls * string)) : list string :=
  key_text <$> ms.*1.*1.
Definition classes_of (ms : list (prop_key * cls * string)) : list cls := ms.*1.*2.
Definition descriptions_of (ms : list (prop_key * cls * string)) : list string := ms.*2.

(** A second enum object (at location 1) whose only property refers to the
    last member of the sealed [Season]. *)
Definition borrowed_member (v : variant) : state :=
  run_ops v [OpEnumNew; OpAssignProp 1 (okey "FROST" I) (VEnumValue 3)] (sealed v Season "Season").

(** A second, empty enum object (at location 1) beside the sealed
    [Season]. *)
Definition second_enum (v : variant) : state :=
  run_ops v [OpEnumNew] (sealed v Season "Season").

(** ** Stores a client can reach *)

(** The number of instances of the class [c] in the store. *)
Definition instances_of (σ : state) (c : cls) : nat :=
  length (filter (λ c', c' = c) (value_constructor <$> objs σ)).

(** The registry holds no entry under [undefined] and every entry is a
    live array. *)
Definition registry_live (σ : state) : Prop :=
  enumValues σ !! None = None ∧
  ∀ k a, enumValues σ !! k = Some a → a < length (arrays σ).

(** ** Vocabulary of the statements *)

(** The members of an enum object in discovery order, by reference. *)
Definition members (e : EnumObj) : list loc := (own_EnumValues e).*2.

(** What sealing makes of one member. *)
Definition sealed_TS (index : nat) (propName : string) (o : EnumValueObj) : EnumValueObj :=
  freeze_obj (set_propName (Some propName) (set_ordinal (Some index) o)).
Definition sealed_ES5 (propName : string) (o : EnumValueObj) : EnumValueObj :=
  freeze_obj (set_propName (Some propName) o).

(** How a member may differ after a pass of the sealing loop: it keeps
    its constructor and description, and a frozen member is untouched. *)
Definition evolves (o o' : EnumValueObj) : Prop :=
  value_constructor o' = value_constructor o ∧
  _description o' = _description o ∧
  (value_frozen o = true → o' = o).

(** The bundle's loop moreover keeps the ordinal given at construction. *)
Definition evolves_ES5 (o o' : EnumValueObj) : Prop :=
  evolves o o' ∧ _ordinal o' = _ordinal o.

(** [σ'] differs from [σ] at most in the fields of existing members. *)
Definition objs_only (R : EnumValueObj → EnumValueObj → Prop) (σ σ' : state) : Prop :=
  enums σ' = enums σ ∧ arrays σ' = arrays σ ∧ enumValues σ' = enumValues σ ∧
  INITIALIZED σ' = INITIALIZED σ ∧ sizes σ' = sizes σ ∧
  length (objs σ') = length (objs σ) ∧
  ∀ r o, objs σ !! r = Some o → ∃ o', objs σ' !! r = Some o' ∧ R o o'.

(** The state of a member after a successful pass. *)
Definition is_sealed_TS (kv : string * loc) (index : nat) (o : EnumValueObj) : Prop :=
  value_frozen o = true ∧ _ordinal o = Some index ∧ _propName o = Some kv.1.
Definition is_sealed_ES5 (kv : string * loc) (index : nat) (o : EnumValueObj) : Prop :=
  value_frozen o = true ∧ _propName o = Some kv.1.

Definition frozen_at (σ : state) (r : loc) : Prop :=
  ∃ o, objs σ !! r = Some o ∧ value_frozen o = true.
Definition unfrozen_at (σ : state) (r : loc) : Prop :=
  ∃ o, objs σ !! r = Some o ∧ value_frozen o = false.

(** The enum object once [this.name = name] has run. *)
Definition named (n : string) (e : EnumObj) : EnumObj :=
  mkEnum (Some n) (e_props e) (e_frozen e).

(** The constructor reached through [values[0].constructor], if any. *)
Definition first_constructor (σ : state) (e : EnumObj) : option cls :=
  v0 ← head (members e); value_constructor <$> objs σ !! v0.
Definition marked_with (c : option cls) (s : gset cls) : gset cls :=
  match c with
  | Some c => {[c]} ∪ s
  | None => s
  end.

(** What the loop and the marker assignment of [enumValuesFromObject] do
    to the store when the loop does not throw. *)
Definition members_sealed (R : EnumValueObj → EnumValueObj → Prop)
    (P : string * loc → nat → EnumValueObj → Prop)
    (σ : state) (e : EnumObj) (σ' : state) : Prop :=
  INITIALIZED σ' = marked_with (first_constructor σ e) (INITIALIZED σ) ∧
  sizes σ' = sizes σ ∧
  length (objs σ') = length (objs σ) ∧
  (∀ r o, objs σ !! r = Some o → ∃ o', objs σ' !! r = Some o' ∧ R o o') ∧
  (∀ k kv, own_EnumValues e !! k = Some kv →
     ∃ o', objs σ' !! kv.2 = Some o' ∧ P kv k o').

(** The store after a successful [initEnum(n)] on the enum [g], whose
    object was [e] before the call.  The two variants differ in which of
    the new array and the enum object they freeze. *)
Definition sealing_effects (R : EnumValueObj → EnumValueObj → Prop)
    (P : string * loc → nat → EnumValueObj → Prop)
    (freeze_array freeze_enum : bool)
    (σ : state) (g : loc) (n : string) (e : EnumObj) (σ' : state) : Prop :=
  enums σ' = <[g := mkEnum (Some n) (e_props e) freeze_enum]> (enums σ) ∧
  arrays σ' = arrays σ ++ [mkArray (members e) freeze_array] ∧
  enumValues σ' = <[Some n := length (arrays σ)]> (enumValues σ) ∧
  members_sealed R P σ e σ'.

(** The store after the description check of the bundle has thrown. *)
Definition description_failure (σ : state) (g : loc) (n : string) (e : EnumObj)
    (σ' : state) : Prop :=
  enums σ' = <[g := named n e]> (enums σ) ∧
  arrays σ' = arrays σ ∧
  enumValues σ' = enumValues σ ∧
  members_sealed evolves_ES5 is_sealed_ES5 σ e σ'.

Definition duplicate_name (n : string) : string := "Duplicate name: " +:+ n.

(** The sequence registered under a key, read through the registry. *)
Definition registered (σ : state) (key : option string) : option (list loc) :=
  a ← enumValues σ !! key; elems <$> arrays σ !! a.

(** [r] is the result of a first-match search for [f] in [l]. *)
Definition first_match (f : loc → bool) (l : list loc) (r : option loc) : Prop :=
  match r with
  | Some x => ∃ i, l !! i = Some x ∧ f x = true ∧
                   ∀ j y, j < i → l !! j = Some y → f y = false
  | None => ∀ y, y ∈ l → f y = false
  end.

(** An enum object that [initEnum(n)] can only refuse for its
    descriptions: it is extensible, the name is free, and its members are
    distinct extensible objects, two of which share a description. *)
Definition ready_but_for_descriptions (σ : state) (g : loc) (n : string) : Prop :=
  ∃ e, enums σ !! g = Some e ∧ e_frozen e = false ∧
       enumValues σ !! Some n = None ∧
       NoDup (members e) ∧ Forall (unfrozen_at σ) (members e) ∧
       ¬ NoDup (map (description_of σ) (members e)).

(** What a call [initEnum(n)] of the variant [v] on [g] leaves behind,
    [r] being its outcome.  On return the registry holds the members under
    [n] and every member is frozen.  On a throw the registry and the
    arrays are as before.  After the duplicate-name error the store
    differs from the one before the call in the name of the receiver
    only.  The duplicate-description error comes from the bundle alone and
    names [n]; by then the receiver has its name, every member has
    received its property name and been frozen, and the class of the first
    member has been marked.  The bundle answers with that error whenever
    the enum is ready but for its descriptions. *)
Definition sealing_outcome (v : variant) (σ : state) (g : loc) (n : string)
    (r : outcome unit * state) : Prop :=
  match r with
  | (Return _, σ') =>
      ∃ e, enums σ !! g = Some e ∧
           enumValues σ !! Some n = None ∧
           registered σ' (Some n) = Some (members e) ∧
           Forall (frozen_at σ') (members e)
  | (Throw err, σ') =>
      enumValues σ' = enumValues σ ∧ arrays σ' = arrays σ ∧
      (err = Error (duplicate_name n) →
       ∃ e, enums σ !! g = Some e ∧
            σ' = with_enums (λ h, <[g := named n e]> h) σ) ∧
      (∀ k, err = Error (ES5.duplicate_descriptions k) →
       v = Bundle ∧ name_text k = n ∧
       ∃ e, enums σ !! g = Some e ∧
            enums σ' = <[g := named n e]> (enums σ) ∧
            Forall (frozen_at σ') (members e) ∧
            map (propName_of σ') (members e) = map Some (own_EnumValues e).*1 ∧
            INITIALIZED σ' = marked_with (first_constructor σ e) (INITIALIZED σ))
  end ∧
  (v = Bundle → ready_but_for_descriptions σ g n →
   r.1 = Throw (Error (ES5.duplicate_descriptions (Some n)))).

(** What no step of a client can undo: markers, registry entries and
    frozen objects stay as they are. *)
Definition persists (σ σ' : state) : Prop :=
  INITIALIZED σ ⊆ INITIALIZED σ' ∧
  (∀ k a, enumValues σ !! k = Some a → enumValues σ' !! k = Some a) ∧
  (∀ r o, objs σ !! r = Some o → value_frozen o = true → objs σ' !! r = Some o) ∧
  (∀ g e, enums σ !! g = Some e → e_frozen e = true → enums σ' !! g = Some e) ∧
  (∀ a arr, arrays σ !! a = Some arr → array_frozen arr = true → arrays σ' !! a = Some arr) ∧
  length (enums σ) ≤ length (enums σ').

(** * Verification *)

(** ** [unique] keeps every element exactly when there are no duplicates *)

Section unique.
Context {A : Type} `{EqDecision A}.
Implicit Types (l : list A) (x : A) (i : Z).

Lemma indexOf_from_range l x i :
  (0 ≤ i)%Z → ES5.indexOf_from l x i = (-1)%Z ∨ (i ≤ ES5.indexOf_from l x i)%Z.
Proof.
  revert i. induction l as [|v vs IH]; intros i Hi; simpl; [by left|].
  destruct (decide (v = x)); [right; lia|].
  destruct (IH (i + 1)%Z) as [->| ?]; [lia|by left|right; lia].
Qed.

Lemma indexOf_from_spec l x i (k : nat) :
  (0 ≤ i)%Z →
  ES5.indexOf_from l x i = (i + Z.of_nat k)%Z ↔
  l !! k = Some x ∧ ∀ j, j < k → l !! j ≠ Some x.
Proof.
  revert i k. induction l as [|v vs IH]; intros i k Hi; simpl.
  - split; [lia|]. by intros [? _].
  - destruct (decide (v = x)) as [->|Hne].
    + destruct k as [|k]; simpl.
      * split; [|lia]. intros _. split; [done|]. lia.
      * split; [lia|]. intros [_ Hfirst]. by destruct (Hfirst 0); [lia|].
    + destruct k as [|k]; simpl.
      * split; [|intros [? _]; congruence].
        intros Heq. destruct (indexOf_from_range vs x (i + 1)%Z); lia.
      * replace (i + Z.of_nat (S k))%Z with ((i + 1) + Z.of_nat k)%Z by lia.
        rewrite IH by lia. split; intros [Hk Hfirst]; (split; [done|]).
        -- intros [|j] Hj; simpl; [congruence|]. apply Hfirst. lia.
        -- intros j Hj. apply (Hfirst (S j)). lia.
Qed.

Lemma indexOf_spec l x (k : nat) :
  ES5.indexOf l x = Z.of_nat k ↔ l !! k = Some x ∧ ∀ j, j < k → l !! j ≠ Some x.
Proof.
  unfold ES5.indexOf. rewrite <- (indexOf_from_spec l x 0 k) by lia.
  by rewrite Z.add_0_l.
Qed.

Lemma filter_from_length_le (f : A → Z → bool) i l :
  length (ES5.filter_from f i l) ≤ length l.
Proof.
  revert i. induction l as [|x l IH]; intros i; simpl; [lia|].
  specialize (IH (i + 1)%Z). destruct (f x i); simpl; lia.
Qed.

Lemma filter_from_length_eq (f : A → Z → bool) i l :
  length (ES5.filter_from f i l) = length l ↔
  ∀ (k : nat) x, l !! k = Some x → f x (i + Z.of_nat k)%Z = true.
Proof.
  revert i. induction l as [|x l IH]; intros i; simpl.
  - split; [|done]. by intros _ k y.
  - pose proof (filter_from_length_le f (i + 1)%Z l) as Hle.
    destruct (f x i) eqn:Hfx; simpl.
    + split.
      * intros Hlen [|k] y; simpl.
        -- intros [= <-]. by rewrite Z.add_0_r.
        -- intros Hk. replace (i + Z.of_nat (S k))%Z with ((i + 1) + Z.of_nat k)%Z by lia.
           apply IH; [lia|done].
      * intros Hall. f_equal. apply IH. intros k y Hk.
        replace (i + 1 + Z.of_nat k)%Z with (i + Z.of_nat (S k))%Z by lia.
        by apply Hall.
    + split; [lia|]. intros Hall. specialize (Hall 0 x eq_refl).
      rewrite Z.add_0_r in Hall. congruence.
Qed.

(** The test of line 284: [values.length !== unique(values).length]
    holds exactly when some value occurs twice. *)
Lemma unique_length_NoDup l : length (ES5.unique l) = length l ↔ NoDup l.
Proof.
  unfold ES5.unique. rewrite filter_from_length_eq, NoDup_alt. split.
  - intros Hall i j x Hi Hj.
    pose proof (Hall i x Hi) as Hxi. pose proof (Hall j x Hj) as Hxj.
    apply bool_decide_eq_true in Hxi, Hxj. lia.
  - intros Hnd k x Hk. apply bool_decide_eq_true. rewrite Z.add_0_l.
    apply indexOf_spec. split; [done|]. intros j Hj Hjx.
    specialize (Hnd _ _ _ Hjx Hk). lia.
Qed.

Lemma unique_length_dup l (i j : nat) x :
  i ≠ j → l !! i = Some x → l !! j = Some x → length l ≠ length (ES5.unique l).
Proof.
  intros Hij Hi Hj Hlen. symmetry in Hlen. apply unique_length_NoDup in Hlen.
  rewrite NoDup_alt in Hlen. by apply Hij, (Hlen i j x).
Qed.
End unique.

(** ** The monad and the store *)

Ltac unfold_M :=
  unfold get_obj, get_enum, get_array, put_obj, put_enum, put_array,
    new_obj, new_array, gets, modify, bind, ret, throw in *.

Lemma with_objs_id (σ : state) (r : loc) (o : EnumValueObj) :
  objs σ !! r = Some o → with_objs (λ h, <[r := o]> h) σ = σ.
Proof.
  intros Hr. destruct σ; unfold with_objs; simpl in *.
  by rewrite list_insert_id.
Qed.

Lemma freeze_obj_frozen (o : EnumValueObj) : value_frozen o = true → freeze_obj o = o.
Proof. destruct o; simpl; by intros ->. Qed.

Lemma evolves_refl o : evolves o o.
Proof. by repeat split. Qed.

Lemma evolves_trans o1 o2 o3 : evolves o1 o2 → evolves o2 o3 → evolves o1 o3.
Proof.
  intros (Hc1 & Hd1 & Hf1) (Hc2 & Hd2 & Hf2). repeat split; [congruence..|].
  intros Hfr. specialize (Hf1 Hfr). subst o2. by apply Hf2.
Qed.

Lemma evolves_ES5_refl o : evolves_ES5 o o.
Proof. split; [apply evolves_refl|done]. Qed.

Lemma evolves_ES5_trans o1 o2 o3 : evolves_ES5 o1 o2 → evolves_ES5 o2 o3 → evolves_ES5 o1 o3.
Proof.
  intros [H1 Ho1] [H2 Ho2]. split; [by eapply evolves_trans|congruence].
Qed.

(** ** One pass of the sealing callback *)

(** The TypeScript callback, in closed form: a dangling reference or a
    frozen member that would have to change throws; a frozen member that
    already has this index and name is accepted as it is; an extensible
    member is stamped and frozen. *)
Lemma TS_map_callback_eq (p : string) (r : loc) (i : nat) (σ : state) :
  TS.map_callback (p, r) i σ =
  match objs σ !! r with
  | None => (Throw TypeError, σ)
  | Some o =>
      if value_frozen o
      then if decide (_ordinal o = Some i ∧ _propName o = Some p)
           then (Return r, σ) else (Throw TypeError, σ)
      else (Return r, with_objs (λ h, <[r := sealed_TS i p o]> h) σ)
  end.
Proof.
  unfold TS.map_callback, defineProperty_ordinal, defineProperty_propName,
    Object_freeze_obj. unfold_M.
  destruct (objs σ !! r) as [o|] eqn:Hr; [|done].
  destruct (value_frozen o) eqn:Hfr.
  - destruct (decide (_ordinal o = Some i)) as [Ho|Ho]; simpl.
    + rewrite Hr, Hfr. destruct (decide (_propName o = Some p)) as [Hp|Hp]; simpl.
      * rewrite Hr, decide_True by done.
        by rewrite freeze_obj_frozen, with_objs_id.
      * by rewrite decide_False by tauto.
    + by rewrite decide_False by tauto.
  - pose proof (lookup_lt_Some _ _ _ Hr) as Hlt. simpl.
    rewrite list_lookup_insert_eq by done. simpl. rewrite Hfr. simpl.
    rewrite list_lookup_insert_eq by (by rewrite length_insert).
    unfold with_objs; simpl. by rewrite !list_insert_insert_eq.
Qed.

(** The bundle's callback, in closed form. *)
Lemma ES5_map_callback_eq (p : string) (r : loc) (i : nat) (σ : state) :
  ES5.map_callback (p, r) i σ =
  match objs σ !! r with
  | None => (Throw TypeError, σ)
  | Some o =>
      if value_frozen o
      then if decide (_propName o = Some p)
           then (Return r, σ) else (Throw TypeError, σ)
      else (Return r, with_objs (λ h, <[r := sealed_ES5 p o]> h) σ)
  end.
Proof.
  unfold ES5.map_callback, defineProperty_propName, Object_freeze_obj. unfold_M.
  destruct (objs σ !! r) as [o|] eqn:Hr; [|done].
  destruct (value_frozen o) eqn:Hfr.
  - destruct (decide (_propName o = Some p)) as [Hp|Hp]; simpl; [|done].
    rewrite Hr. by rewrite freeze_obj_frozen, with_objs_id.
  - pose proof (lookup_lt_Some _ _ _ Hr) as Hlt. simpl.
    rewrite list_lookup_insert_eq by done.
    unfold with_objs; simpl. by rewrite !list_insert_insert_eq.
Qed.

(** ** The sealing loop, for any callback that behaves like the two above *)

Section sealing_loop.
Variable R : EnumValueObj → EnumValueObj → Prop.
Variable P : string * loc → nat → EnumValueObj → Prop.
Variable step : string * loc → nat → M loc.

Hypothesis R_refl : ∀ o, R o o.
Hypothesis R_trans : ∀ o1 o2 o3, R o1 o2 → R o2 o3 → R o1 o3.
Hypothesis P_stable : ∀ kv i o o', P kv i o → R o o' → P kv i o'.
Hypothesis step_frame :
  ∀ kv i σ res σ', step kv i σ = (res, σ') → objs_only R σ σ'.
Hypothesis step_return :
  ∀ kv i σ y σ', step kv i σ = (Return y, σ') →
    y = kv.2 ∧ ∃ o', objs σ' !! kv.2 = Some o' ∧ P kv i o'.
Hypothesis step_throw :
  ∀ kv i σ e σ', step kv i σ = (Throw e, σ') → e = TypeError.
Hypothesis step_unfrozen :
  ∀ kv i σ, unfrozen_at σ kv.2 →
    ∃ o', step kv i σ = (Return kv.2, with_objs (λ h, <[kv.2 := o']> h) σ).

Lemma objs_only_refl σ : objs_only R σ σ.
Proof. repeat split. intros r o Hr. eauto. Qed.

Lemma objs_only_trans σ1 σ2 σ3 :
  objs_only R σ1 σ2 → objs_only R σ2 σ3 → objs_only R σ1 σ3.
Proof.
  intros (? & ? & ? & ? & ? & ? & H12) (? & ? & ? & ? & ? & ? & H23).
  repeat split; [congruence..|].
  intros r o Hr. destruct (H12 r o Hr) as (o2 & Hr2 & HR2).
  destruct (H23 r o2 Hr2) as (o3 & Hr3 & HR3). eauto.
Qed.

Lemma mapM_from_frame l i σ res σ' :
  mapM_from step i l σ = (res, σ') → objs_only R σ σ'.
Proof.
  revert i σ res σ'. induction l as [|kv l IH]; intros i σ res σ'; simpl.
  - unfold ret. intros [= <- <-]. apply objs_only_refl.
  - unfold bind at 1. destruct (step kv i σ) as [[y|e] σ1] eqn:Hstep.
    + unfold bind at 1.
      destruct (mapM_from step (S i) l σ1) as [[ys|e] σ2] eqn:Hrest;
        unfold ret; intros [= <- <-];
        (eapply objs_only_trans; [by eapply step_frame|by eapply IH]).
    + intros [= <- <-]. by eapply step_frame.
Qed.

Lemma mapM_from_throw l i σ e σ' :
  mapM_from step i l σ = (Throw e, σ') → e = TypeError.
Proof.
  revert i σ. induction l as [|kv l IH]; intros i σ; simpl; [done|].
  unfold bind at 1. destruct (step kv i σ) as [[y|e1] σ1] eqn:Hstep.
  - unfold bind at 1.
    destruct (mapM_from step (S i) l σ1) as [[ys|e2] σ2] eqn:Hrest; [done|].
    intros [= <- <-]. by eapply IH.
  - intros [= <- <-]. by eapply step_throw.
Qed.

(** After a successful loop the result lists the members in order, and
    the member found at position [k] satisfies [P] at index [i + k]. *)
Lemma mapM_from_return l i σ ys σ' :
  mapM_from step i l σ = (Return ys, σ') →
  ys = l.*2 ∧
  ∀ k kv, l !! k = Some kv → ∃ o', objs σ' !! kv.2 = Some o' ∧ P kv (i + k) o'.
Proof.
  revert i σ ys. induction l as [|kv l IH]; intros i σ ys; simpl.
  - unfold ret. intros [= <- <-]. split; [done|]. by intros k kv.
  - unfold bind at 1. destruct (step kv i σ) as [[y|e1] σ1] eqn:Hstep; [|done].
    unfold bind at 1.
    destruct (mapM_from step (S i) l σ1) as [[ys'|e2] σ2] eqn:Hrest; [|done].
    unfold ret. intros [= <- <-].
    destruct (step_return _ _ _ _ _ Hstep) as (-> & o1 & Ho1 & HP1).
    destruct (IH _ _ _ Hrest) as (-> & Hall).
    split; [done|]. intros [|k] kv'; simpl.
    + intros [= <-]. apply mapM_from_frame in Hrest.
      destruct Hrest as (_ & _ & _ & _ & _ & _ & Hobjs).
      destruct (Hobjs _ _ Ho1) as (o2 & Ho2 & HR). exists o2. split; [done|].
      rewrite Nat.add_0_r. by eapply P_stable.
    + intros Hk. replace (i + S k) with (S i + k) by lia. by apply Hall.
Qed.

(** On distinct extensible members the loop cannot throw. *)
Lemma mapM_from_unfrozen l i σ :
  NoDup l.*2 → Forall (unfrozen_at σ) l.*2 →
  ∃ σ', mapM_from step i l σ = (Return l.*2, σ').
Proof.
  revert i σ. induction l as [|kv l IH]; intros i σ; simpl.
  - intros _ _. by eexists.
  - intros [Hnotin Hnd]%NoDup_cons [Hhd Htl]%Forall_cons.
    destruct (step_unfrozen kv i σ Hhd) as (o' & Hstep).
    unfold bind at 1. rewrite Hstep.
    destruct (IH (S i) (with_objs (λ h, <[kv.2 := o']> h) σ) Hnd) as (σ' & Hrest).
    + rewrite Forall_forall in Htl |- *. intros r' Hr'.
      destruct (Htl r' Hr') as (o & Ho & Hf). exists o. split; [|done].
      simpl. rewrite list_lookup_insert_ne; [done|]. by intros <-.
    + unfold bind at 1. rewrite Hrest. by eexists.
Qed.
End sealing_loop.

Lemma objs_only_insert (R : EnumValueObj → EnumValueObj → Prop) σ r o o' :
  (∀ o, R o o) → objs σ !! r = Some o → R o o' →
  objs_only R σ (with_objs (λ h, <[r := o']> h) σ).
Proof.
  intros HR Hr Hoo'. repeat split; simpl; [by rewrite length_insert|].
  intros r0 o0 Hr0. destruct (decide (r0 = r)) as [->|Hne].
  - exists o'. rewrite list_lookup_insert_eq by by eapply lookup_lt_Some.
    split; [done|]. congruence.
  - exists o0. by rewrite list_lookup_insert_ne.
Qed.

Lemma sealed_TS_evolves i p o : value_frozen o = false → evolves o (sealed_TS i p o).
Proof. intros Hfr. repeat split. congruence. Qed.

Lemma sealed_ES5_evolves p o : value_frozen o = false → evolves_ES5 o (sealed_ES5 p o).
Proof. intros Hfr. repeat split. congruence. Qed.

Lemma is_sealed_TS_stable kv i o o' : is_sealed_TS kv i o → evolves o o' → is_sealed_TS kv i o'.
Proof. intros (Hfr & ? & ?) (_ & _ & Heq). by rewrite (Heq Hfr). Qed.

Lemma is_sealed_ES5_stable kv i o o' :
  is_sealed_ES5 kv i o → evolves_ES5 o o' → is_sealed_ES5 kv i o'.
Proof. intros (Hfr & ?) [(_ & _ & Heq) _]. by rewrite (Heq Hfr). Qed.

Lemma TS_callback_frame kv i σ res σ' :
  TS.map_callback kv i σ = (res, σ') → objs_only evolves σ σ'.
Proof.
  destruct kv as [p r]. rewrite TS_map_callback_eq.
  destruct (objs σ !! r) as [o|] eqn:Hr.
  - destruct (value_frozen o) eqn:Hfr.
    + case_decide; intros [= <- <-]; apply objs_only_refl, evolves_refl.
    + intros [= <- <-].
      eapply objs_only_insert; [apply evolves_refl|done|by apply sealed_TS_evolves].
  - intros [= <- <-]. apply objs_only_refl, evolves_refl.
Qed.

Lemma TS_callback_return kv i σ y σ' :
  TS.map_callback kv i σ = (Return y, σ') →
  y = kv.2 ∧ ∃ o', objs σ' !! kv.2 = Some o' ∧ is_sealed_TS kv i o'.
Proof.
  destruct kv as [p r]. rewrite TS_map_callback_eq.
  destruct (objs σ !! r) as [o|] eqn:Hr; [|done].
  destruct (value_frozen o) eqn:Hfr.
  - case_decide as Hd; [|done]. intros [= <- <-]. split; [done|].
    exists o. by destruct Hd.
  - intros [= <- <-]. split; [done|]. exists (sealed_TS i p o). simpl.
    rewrite list_lookup_insert_eq by by eapply lookup_lt_Some. done.
Qed.

Lemma TS_callback_throw kv i σ e σ' :
  TS.map_callback kv i σ = (Throw e, σ') → e = TypeError.
Proof.
  destruct kv as [p r]. rewrite TS_map_callback_eq.
  destruct (objs σ !! r) as [o|]; [|by intros [= <- <-]].
  destruct (value_frozen o); [|done]. case_decide; [done|]. by intros [= <- <-].
Qed.

Lemma TS_callback_unfrozen kv i σ :
  unfrozen_at σ kv.2 →
  ∃ o', TS.map_callback kv i σ = (Return kv.2, with_objs (λ h, <[kv.2 := o']> h) σ).
Proof.
  destruct kv as [p r]. intros (o & Hr & Hfr). simpl in Hr.
  exists (sealed_TS i p o). by rewrite TS_map_callback_eq, Hr, Hfr.
Qed.

Lemma ES5_callback_frame kv i σ res σ' :
  ES5.map_callback kv i σ = (res, σ') → objs_only evolves_ES5 σ σ'.
Proof.
  destruct kv as [p r]. rewrite ES5_map_callback_eq.
  destruct (objs σ !! r) as [o|] eqn:Hr.
  - destruct (value_frozen o) eqn:Hfr.
    + case_decide; intros [= <- <-]; apply objs_only_refl, evolves_ES5_refl.
    + intros [= <- <-].
      eapply objs_only_insert; [apply evolves_ES5_refl|done|by apply sealed_ES5_evolves].
  - intros [= <- <-]. apply objs_only_refl, evolves_ES5_refl.
Qed.

Lemma ES5_callback_return kv i σ y σ' :
  ES5.map_callback kv i σ = (Return y, σ') →
  y = kv.2 ∧ ∃ o', objs σ' !! kv.2 = Some o' ∧ is_sealed_ES5 kv i o'.
Proof.
  destruct kv as [p r]. rewrite ES5_map_callback_eq.
  destruct (objs σ !! r) as [o|] eqn:Hr; [|done].
  destruct (value_frozen o) eqn:Hfr.
  - case_decide as Hd; [|done]. intros [= <- <-]. split; [done|]. by exists o.
  - intros [= <- <-]. split; [done|]. exists (sealed_ES5 p o). simpl.
    rewrite list_lookup_insert_eq by by eapply lookup_lt_Some. done.
Qed.

Lemma ES5_callback_throw kv i σ e σ' :
  ES5.map_callback kv i σ = (Throw e, σ') → e = TypeError.
Proof.
  destruct kv as [p r]. rewrite ES5_map_callback_eq.
  destruct (objs σ !! r) as [o|]; [|by intros [= <- <-]].
  destruct (value_frozen o); [|done]. case_decide; [done|]. by intros [= <- <-].
Qed.

Lemma ES5_callback_unfrozen kv i σ :
  unfrozen_at σ kv.2 →
  ∃ o', ES5.map_callback kv i σ = (Return kv.2, with_objs (λ h, <[kv.2 := o']> h) σ).
Proof.
  destruct kv as [p r]. intros (o & Hr & Hfr). simpl in Hr.
  exists (sealed_ES5 p o). by rewrite ES5_map_callback_eq, Hr, Hfr.
Qed.

(** The loop lemmas at the two callbacks. *)

Lemma TS_loop_frame l i σ res σ' :
  mapM_from TS.map_callback i l σ = (res, σ') → objs_only evolves σ σ'.
Proof.
  apply mapM_from_frame; eauto using evolves_refl, evolves_trans, TS_callback_frame.
Qed.

Lemma TS_loop_throw l i σ e σ' :
  mapM_from TS.map_callback i l σ = (Throw e, σ') → e = TypeError.
Proof. apply mapM_from_throw. apply TS_callback_throw. Qed.

Lemma TS_loop_return l i σ ys σ' :
  mapM_from TS.map_callback i l σ = (Return ys, σ') →
  ys = l.*2 ∧
  ∀ k kv, l !! k = Some kv → ∃ o', objs σ' !! kv.2 = Some o' ∧ is_sealed_TS kv (i + k) o'.
Proof.
  apply (mapM_from_return evolves);
    eauto using evolves_refl, evolves_trans, TS_callback_frame,
      TS_callback_return, is_sealed_TS_stable.
Qed.

Lemma TS_loop_unfrozen l i σ :
  NoDup l.*2 → Forall (unfrozen_at σ) l.*2 →
  ∃ σ', mapM_from TS.map_callback i l σ = (Return l.*2, σ').
Proof. apply mapM_from_unfrozen, TS_callback_unfrozen. Qed.

Lemma ES5_loop_frame l i σ res σ' :
  mapM_from ES5.map_callback i l σ = (res, σ') → objs_only evolves_ES5 σ σ'.
Proof.
  apply mapM_from_frame;
    eauto using evolves_ES5_refl, evolves_ES5_trans, ES5_callback_frame.
Qed.

Lemma ES5_loop_throw l i σ e σ' :
  mapM_from ES5.map_callback i l σ = (Throw e, σ') → e = TypeError.
Proof. apply mapM_from_throw. apply ES5_callback_throw. Qed.

Lemma ES5_loop_return l i σ ys σ' :
  mapM_from ES5.map_callback i l σ = (Return ys, σ') →
  ys = l.*2 ∧
  ∀ k kv, l !! k = Some kv → ∃ o', objs σ' !! kv.2 = Some o' ∧ is_sealed_ES5 kv (i + k) o'.
Proof.
  apply (mapM_from_return evolves_ES5);
    eauto using evolves_ES5_refl, evolves_ES5_trans, ES5_callback_frame,
      ES5_callback_return, is_sealed_ES5_stable.
Qed.

Lemma ES5_loop_unfrozen l i σ :
  NoDup l.*2 → Forall (unfrozen_at σ) l.*2 →
  ∃ σ', mapM_from ES5.map_callback i l σ = (Return l.*2, σ').
Proof. apply mapM_from_unfrozen, ES5_callback_unfrozen. Qed.

(** ** [initEnum], case by case *)

Lemma named_unfrozen n e : e_frozen e = false → named n e = mkEnum (Some n) (e_props e) false.
Proof. unfold named. by intros ->. Qed.

Lemma first_constructor_Some σ e v0 l o :
  members e = v0 :: l → objs σ !! v0 = Some o →
  first_constructor σ e = Some (value_constructor o).
Proof. unfold first_constructor. intros -> Hv. simpl. by rewrite Hv. Qed.

Lemma first_constructor_nil σ e : members e = [] → first_constructor σ e = None.
Proof. unfold first_constructor. by intros ->. Qed.

(** [enumValuesFromObject] of the TypeScript source. *)
Lemma TS_enumValuesFromObject_spec g e σ :
  enums σ !! g = Some e →
  (∃ σ', TS.enumValuesFromObject g σ = (Throw TypeError, σ') ∧ objs_only evolves σ σ' ∧
         mapM_from TS.map_callback 0 (own_EnumValues e) σ = (Throw TypeError, σ')) ∨
  (∃ σ', TS.enumValuesFromObject g σ = (Return (length (arrays σ)), σ') ∧
         enums σ' = enums σ ∧
         arrays σ' = arrays σ ++ [mkArray (members e) false] ∧
         enumValues σ' = enumValues σ ∧
         members_sealed evolves is_sealed_TS σ e σ').
Proof.
  intros Hg. destruct (TS.enumValuesFromObject g σ) as [res σ'] eqn:Hrun.
  unfold TS.enumValuesFromObject in Hrun. unfold bind at 1 in Hrun.
  unfold get_enum at 1 in Hrun. rewrite Hg in Hrun. unfold bind at 1 in Hrun.
  destruct (mapM_from TS.map_callback 0 (own_EnumValues e) σ) as [[ys|err] σ1] eqn:Hloop.
  - right. pose proof (TS_loop_frame _ _ _ _ _ Hloop)
      as (Hen & Harr & Hreg & Hini & Hsz & Hlen & Hobjs).
    destruct (TS_loop_return _ _ _ _ _ Hloop) as (-> & Hsealed).
    fold (members e) in Hrun. destruct (members e) as [|v0 l] eqn:Hmem.
    + unfold_M. injection Hrun as <- <-. eexists. split; [by rewrite Harr|].
      simpl. rewrite Harr, Hen, Hreg. repeat split; try done.
      by rewrite (first_constructor_nil _ _ Hmem).
    + assert (∃ kv0, own_EnumValues e !! 0 = Some kv0 ∧ kv0.2 = v0) as (kv0 & Hkv0 & <-).
      { unfold members in Hmem. destruct (own_EnumValues e) as [|kv0 ?]; [done|].
        injection Hmem as <- _. by exists kv0. }
      destruct (Hsealed _ _ Hkv0) as (o0' & Ho0' & _).
      assert (∃ o0, objs σ !! kv0.2 = Some o0) as [o0 Ho0].
      { apply lookup_lt_is_Some. rewrite <- Hlen. by eapply lookup_lt_Some. }
      destruct (Hobjs _ _ Ho0) as (o0'' & Ho0'' & (Hc & _)).
      assert (o0'' = o0') as -> by congruence.
      unfold mark_INITIALIZED in Hrun. unfold_M. rewrite Ho0' in Hrun.
      injection Hrun as <- <-. eexists. split; [simpl; by rewrite Harr|].
      unfold members_sealed. simpl. rewrite Harr, Hen, Hreg, Hini, Hc.
      repeat split; try done.
      by rewrite (first_constructor_Some _ _ _ _ _ Hmem Ho0).
  - left. injection Hrun as <- <-. exists σ1.
    rewrite (TS_loop_throw _ _ _ _ _ Hloop) in Hloop |- *.
    split; [done|]. split; [by eapply TS_loop_frame|done].
Qed.

Lemma description_of_frame σ σ' r :
  length (objs σ') = length (objs σ) →
  (∀ r o, objs σ !! r = Some o →
     ∃ o', objs σ' !! r = Some o' ∧ _description o' = _description o) →
  description_of σ' r = description_of σ r.
Proof.
  intros Hlen Hobjs. unfold description_of.
  destruct (objs σ !! r) as [o|] eqn:Hr.
  - destruct (Hobjs _ _ Hr) as (o' & -> & Hd). simpl. by rewrite Hd.
  - apply lookup_ge_None in Hr. rewrite <- Hlen in Hr.
    apply lookup_ge_None in Hr. by rewrite Hr.
Qed.

Lemma ordinal_of_frame σ σ' r :
  length (objs σ') = length (objs σ) →
  (∀ r o, objs σ !! r = Some o →
     ∃ o', objs σ' !! r = Some o' ∧ _ordinal o' = _ordinal o) →
  ordinal_of σ' r = ordinal_of σ r.
Proof.
  intros Hlen Hobjs. unfold ordinal_of.
  destruct (objs σ !! r) as [o|] eqn:Hr.
  - destruct (Hobjs _ _ Hr) as (o' & -> & Hd). simpl. by rewrite Hd.
  - apply lookup_ge_None in Hr. rewrite <- Hlen in Hr.
    apply lookup_ge_None in Hr. by rewrite Hr.
Qed.

(** [enumValuesFromObject] of the bundle: the loop may throw, the
    description check throws exactly when two members share a
    description, and otherwise the new array is returned. *)
Lemma ES5_enumValuesFromObject_spec g e σ :
  enums σ !! g = Some e →
  (∃ σ', ES5.enumValuesFromObject g σ = (Throw TypeError, σ') ∧
         objs_only evolves_ES5 σ σ' ∧
         mapM_from ES5.map_callback 0 (own_EnumValues e) σ = (Throw TypeError, σ')) ∨
  (∃ σ', ES5.enumValuesFromObject g σ =
           (Throw (Error (ES5.duplicate_descriptions (e_name e))), σ') ∧
         ¬ NoDup (map (description_of σ) (members e)) ∧
         enums σ' = enums σ ∧ arrays σ' = arrays σ ∧ enumValues σ' = enumValues σ ∧
         members_sealed evolves_ES5 is_sealed_ES5 σ e σ') ∨
  (∃ σ', ES5.enumValuesFromObject g σ = (Return (length (arrays σ)), σ') ∧
         NoDup (map (description_of σ) (members e)) ∧
         enums σ' = enums σ ∧
         arrays σ' = arrays σ ++ [mkArray (members e) false] ∧
         enumValues σ' = enumValues σ ∧
         members_sealed evolves_ES5 is_sealed_ES5 σ e σ').
Proof.
  intros Hg. destruct (ES5.enumValuesFromObject g σ) as [res σ'] eqn:Hrun.
  unfold ES5.enumValuesFromObject in Hrun. unfold bind at 1 in Hrun.
  unfold get_enum at 1 in Hrun. rewrite Hg in Hrun. unfold bind at 1 in Hrun.
  destruct (mapM_from ES5.map_callback 0 (own_EnumValues e) σ) as [[ys|err] σ1] eqn:Hloop.
  - right. pose proof (ES5_loop_frame _ _ _ _ _ Hloop)
      as (Hen & Harr & Hreg & Hini & Hsz & Hlen & Hobjs).
    destruct (ES5_loop_return _ _ _ _ _ Hloop) as (-> & Hsealed).
    fold (members e) in Hrun.
    (* the marker assignment *)
    assert (∃ σ2, (match members e with
                   | v0 :: _ => o <- get_obj v0;; mark_INITIALIZED (value_constructor o)
                   | [] => ret tt
                   end) σ1 = (Return tt, σ2) ∧
                  enums σ2 = enums σ ∧ arrays σ2 = arrays σ ∧
                  enumValues σ2 = enumValues σ ∧ objs σ2 = objs σ1 ∧
                  members_sealed evolves_ES5 is_sealed_ES5 σ e σ2)
      as (σ2 & Hmark & Hen2 & Harr2 & Hreg2 & Hobjs2 & Hsealed2).
    { destruct (members e) as [|v0 l] eqn:Hmem.
      - exists σ1. repeat split; try done.
        by rewrite (first_constructor_nil _ _ Hmem).
      - assert (∃ kv0, own_EnumValues e !! 0 = Some kv0 ∧ kv0.2 = v0)
          as (kv0 & Hkv0 & <-).
        { unfold members in Hmem. destruct (own_EnumValues e) as [|kv0 ?]; [done|].
          injection Hmem as <- _. by exists kv0. }
        destruct (Hsealed _ _ Hkv0) as (o0' & Ho0' & _).
        assert (∃ o0, objs σ !! kv0.2 = Some o0) as [o0 Ho0].
        { apply lookup_lt_is_Some. rewrite <- Hlen. by eapply lookup_lt_Some. }
        destruct (Hobjs _ _ Ho0) as (o0'' & Ho0'' & ((Hc & _) & _)).
        assert (o0'' = o0') as -> by congruence.
        eexists. split.
        { unfold mark_INITIALIZED. unfold_M. by rewrite Ho0'. }
        unfold members_sealed. simpl. rewrite Hini, Hc.
        repeat split; try done.
        by rewrite (first_constructor_Some _ _ _ _ _ Hmem Ho0). }
    unfold bind at 1 in Hrun. rewrite Hmark in Hrun.
    unfold bind at 1 in Hrun. unfold gets at 1 in Hrun. unfold id in Hrun.
    assert (map (description_of σ2) (members e) = map (description_of σ) (members e))
      as Hdescr.
    { apply map_ext. intros r. apply description_of_frame.
      - by rewrite Hobjs2.
      - intros r0 o0 Hr0. rewrite Hobjs2.
        destruct (Hobjs _ _ Hr0) as (o' & ? & ((_ & ? & _) & _)). eauto. }
    rewrite Hdescr in Hrun.
    destruct (decide (length (members e) ≠
                      length (ES5.unique (map (description_of σ) (members e)))))
      as [Hdup|Hnodup].
    + left. unfold bind at 1 in Hrun. unfold get_enum at 1 in Hrun.
      rewrite Hen2, Hg in Hrun. unfold throw in Hrun. injection Hrun as <- <-.
      exists σ2. repeat split; try done; try apply Hsealed2.
      intros Hnd. apply unique_length_NoDup in Hnd. rewrite length_map in Hnd.
      by apply Hdup.
    + right. unfold new_array in Hrun. injection Hrun as <- <-.
      eexists. split; [by rewrite Harr2|].
      unfold members_sealed. simpl. rewrite Harr2.
      repeat split; try done; try apply Hsealed2.
      apply unique_length_NoDup. rewrite length_map.
      destruct (decide (length (ES5.unique (map (description_of σ) (members e)))
                        = length (members e))); [done|]. exfalso. apply Hnodup. lia.
  - left. injection Hrun as <- <-. exists σ1.
    rewrite (ES5_loop_throw _ _ _ _ _ Hloop) in Hloop |- *.
    split; [done|]. split; [by eapply ES5_loop_frame|done].
Qed.

Lemma assign_name_eq g n σ :
  assign_name g n σ =
  match enums σ !! g with
  | None => (Throw TypeError, σ)
  | Some e =>
      if e_frozen e then (Throw TypeError, σ)
      else (Return tt, with_enums (λ h, <[g := named n e]> h) σ)
  end.
Proof.
  unfold assign_name, named. unfold_M. destruct (enums σ !! g) as [e|]; [|done].
  by destruct (e_frozen e).
Qed.

Lemma insert_snoc {A} (l : list A) (x y : A) : <[length l := y]> (l ++ [x]) = l ++ [y].
Proof. by rewrite insert_app_r_alt, Nat.sub_diag by lia. Qed.

(** The instance method of the TypeScript source, on every store. *)
Lemma TS_initEnum_spec g n σ :
  match enums σ !! g with
  | None => TS.initEnum g n σ = (Throw TypeError, σ)
  | Some e =>
      if e_frozen e then TS.initEnum g n σ = (Throw TypeError, σ)
      else
        let σ1 := with_enums (λ h, <[g := named n e]> h) σ in
        match enumValues σ !! Some n with
        | Some _ => TS.initEnum g n σ = (Throw (Error (duplicate_name n)), σ1)
        | None =>
            (∃ σ', TS.initEnum g n σ = (Throw TypeError, σ') ∧ objs_only evolves σ1 σ' ∧
                   mapM_from TS.map_callback 0 (own_EnumValues e) σ1 =
                     (Throw TypeError, σ')) ∨
            (∃ σ', TS.initEnum g n σ = (Return tt, σ') ∧
                   sealing_effects evolves is_sealed_TS true false σ g n e σ')
        end
  end.
Proof.
  destruct (TS.initEnum g n σ) as [res σ'] eqn:Hrun.
  unfold TS.initEnum in Hrun. unfold bind at 1 in Hrun. rewrite assign_name_eq in Hrun.
  destruct (enums σ !! g) as [e|] eqn:Hg; [|done].
  destruct (e_frozen e) eqn:Hfr; [done|].
  set (σ1 := with_enums (λ h, <[g := named n e]> h) σ) in *.
  assert (enums σ1 !! g = Some (named n e)) as Hg1.
  { simpl. apply list_lookup_insert_eq. by eapply lookup_lt_Some. }
  cbv zeta. unfold TS.Enum_initEnum in Hrun. unfold bind at 1 in Hrun.
  unfold get_enum at 1 in Hrun. rewrite Hg1 in Hrun.
  unfold bind at 1 in Hrun. unfold gets at 1 in Hrun.
  change (enumValues σ1) with (enumValues σ) in Hrun.
  change (e_name (named n e)) with (Some n) in Hrun.
  destruct (enumValues σ !! Some n) as [a|] eqn:Hreg; [done|].
  destruct (TS_enumValuesFromObject_spec g (named n e) σ1 Hg1)
    as [(σ2 & Hvals & Hframe & Hloop)|(σ2 & Hvals & Hen & Harr & Hregs & Hsealed)].
  - left. exists σ2. split; [|done]. unfold bind at 1 in Hrun. by rewrite Hvals in Hrun.
  - right. unfold bind at 1 in Hrun. rewrite Hvals in Hrun.
    unfold Object_freeze_array, enumValues_set in Hrun. unfold_M.
    rewrite Harr in Hrun. change (arrays σ1) with (arrays σ) in Hrun.
    rewrite list_lookup_middle in Hrun by done. simpl in Hrun.
    rewrite Hen, Hg1 in Hrun. injection Hrun as <- <-.
    eexists. split; [done|]. unfold sealing_effects. simpl.
    rewrite Hen, Harr, Hregs. change (arrays σ1) with (arrays σ).
    rewrite insert_snoc. repeat split; try done; try apply Hsealed.
    simpl. by rewrite named_unfrozen.
Qed.

(** The instance method of the bundle, on every store. *)
Lemma ES5_initEnum_spec g n σ :
  match enums σ !! g with
  | None => ES5.initEnum g n σ = (Throw TypeError, σ)
  | Some e =>
      if e_frozen e then ES5.initEnum g n σ = (Throw TypeError, σ)
      else
        let σ1 := with_enums (λ h, <[g := named n e]> h) σ in
        match enumValues σ !! Some n with
        | Some _ => ES5.initEnum g n σ = (Throw (Error (duplicate_name n)), σ1)
        | None =>
            (∃ σ', ES5.initEnum g n σ = (Throw TypeError, σ') ∧
                   objs_only evolves_ES5 σ1 σ' ∧
                   mapM_from ES5.map_callback 0 (own_EnumValues e) σ1 =
                     (Throw TypeError, σ')) ∨
            (∃ σ', ES5.initEnum g n σ =
                     (Throw (Error (ES5.duplicate_descriptions (Some n))), σ') ∧
                   ¬ NoDup (map (description_of σ) (members e)) ∧
                   description_failure σ g n e σ') ∨
            (∃ σ', ES5.initEnum g n σ = (Return tt, σ') ∧
                   NoDup (map (description_of σ) (members e)) ∧
                   sealing_effects evolves_ES5 is_sealed_ES5 false true σ g n e σ')
        end
  end.
Proof.
  destruct (ES5.initEnum g n σ) as [res σ'] eqn:Hrun.
  unfold ES5.initEnum in Hrun. unfold bind at 1 in Hrun. rewrite assign_name_eq in Hrun.
  destruct (enums σ !! g) as [e|] eqn:Hg; [|done].
  destruct (e_frozen e) eqn:Hfr; [done|].
  set (σ1 := with_enums (λ h, <[g := named n e]> h) σ) in *.
  assert (enums σ1 !! g = Some (named n e)) as Hg1.
  { simpl. apply list_lookup_insert_eq. by eapply lookup_lt_Some. }
  cbv zeta. unfold ES5.Enum_initEnum in Hrun. unfold bind at 1 in Hrun.
  unfold get_enum at 1 in Hrun. rewrite Hg1 in Hrun.
  unfold bind at 1 in Hrun. unfold gets at 1 in Hrun.
  change (enumValues σ1) with (enumValues σ) in Hrun.
  change (e_name (named n e)) with (Some n) in Hrun.
  destruct (enumValues σ !! Some n) as [a|] eqn:Hreg; [done|].
  destruct (ES5_enumValuesFromObject_spec g (named n e) σ1 Hg1)
    as [(σ2 & Hvals & Hframe & Hloop)
       |[(σ2 & Hvals & Hdup & Hen & Harr & Hregs & Hsealed)
        |(σ2 & Hvals & Hnd & Hen & Harr & Hregs & Hsealed)]].
  - left. exists σ2. split; [|done]. unfold bind at 1 in Hrun. by rewrite Hvals in Hrun.
  - right; left. unfold bind at 1 in Hrun. rewrite Hvals in Hrun.
    injection Hrun as <- <-. exists σ2.
    split; [done|]. split; [done|].
    unfold description_failure. rewrite Hen, Harr, Hregs.
    split; [done|]. split; [done|]. split; [done|]. exact Hsealed.
  - right; right. unfold bind at 1 in Hrun. rewrite Hvals in Hrun.
    unfold Object_freeze_enum, enumValues_set in Hrun. unfold_M.
    rewrite Hen, Hg1 in Hrun. simpl in Hrun.
    rewrite list_lookup_insert_eq in Hrun
      by (rewrite Hen; simpl; rewrite length_insert; by eapply lookup_lt_Some).
    injection Hrun as <- <-.
    eexists. split; [done|]. split; [done|].
    unfold sealing_effects. simpl.
    rewrite Hen, Harr, Hregs. simpl. rewrite list_insert_insert_eq.
    repeat split; try done; try apply Hsealed.
Qed.

(** ** The read side: [values], [byPropName], [byDescription] *)

Lemma values_eq g σ :
  values g σ =
  match enums σ !! g with
  | None => (Throw TypeError, σ)
  | Some e =>
      match enumValues σ !! e_name e with
      | None => (Return (length (arrays σ)), with_arrays (λ h, h ++ [mkArray [] false]) σ)
      | Some a =>
          match arrays σ !! a with
          | None => (Throw TypeError, σ)
          | Some arr =>
              (Return (length (arrays σ)),
               with_arrays (λ h, h ++ [mkArray (elems arr) false]) σ)
          end
      end
  end.
Proof.
  unfold values, Enum_values. unfold_M.
  destruct (enums σ !! g) as [e|]; [|done].
  destruct (enumValues σ !! e_name e) as [a|]; [|done].
  by destruct (arrays σ !! a).
Qed.

Lemma byPropName_eq g p σ :
  byPropName g p σ =
  match values g σ with
  | (Return a, σ') =>
      match arrays σ' !! a with
      | Some arr =>
          (Return (Array_find (λ x, bool_decide (propName_of σ' x = Some p)) (elems arr)), σ')
      | None => (Throw TypeError, σ')
      end
  | (Throw err, σ') => (Throw err, σ')
  end.
Proof.
  unfold byPropName. unfold bind at 1. destruct (values g σ) as [[a|err] σ']; [|done].
  unfold_M. by destruct (arrays σ' !! a).
Qed.

Lemma byDescription_eq g d σ :
  byDescription g d σ =
  match values g σ with
  | (Return a, σ') =>
      match arrays σ' !! a with
      | Some arr =>
          (Return (Array_find (λ x, bool_decide (description_of σ' x = Some d)) (elems arr)),
           σ')
      | None => (Throw TypeError, σ')
      end
  | (Throw err, σ') => (Throw err, σ')
  end.
Proof.
  unfold byDescription. unfold bind at 1. destruct (values g σ) as [[a|err] σ']; [|done].
  unfold_M. by destruct (arrays σ' !! a).
Qed.

Lemma toString_of_eq v g σ :
  toString_of v g σ =
  match enums σ !! g with
  | None => (Throw TypeError, σ)
  | Some e =>
      (Return (if bool_decide ("toString" ∈ (e_props e).*1) then OwnProperty
               else Inherited match v with
                              | TypeScript => Some "[object Object]"
                              | Bundle => e_name e
                              end), σ)
  end.
Proof.
  unfold toString_of, ES5.toString. unfold_M.
  destruct (enums σ !! g) as [e|] eqn:Hg; [|done].
  case_bool_decide; [done|]. destruct v; [done|]. by rewrite Hg.
Qed.

Lemma toString_of_store v g σ : (toString_of v g σ).2 = σ.
Proof. rewrite toString_of_eq. by destruct (enums σ !! g). Qed.

Lemma Array_find_first_match (f : loc → bool) (l : list loc) :
  first_match f l (Array_find f l).
Proof.
  unfold Array_find. induction l as [|x l IH]; simpl.
  - intros y Hy. by apply not_elem_of_nil in Hy.
  - destruct (f x) eqn:Hfx.
    + exists 0. split; [done|]. split; [done|]. intros j y Hj. lia.
    + destruct (find f l) as [z|]; simpl in *.
      * destruct IH as (i & Hi & Hz & Hfirst). exists (S i).
        split; [done|]. split; [done|].
        intros [|j] y Hj; simpl; [by intros [= <-]|]. apply Hfirst. lia.
      * intros y [->|Hy]%elem_of_cons; [done|by apply IH].
Qed.

(** C10: while the name of an enum object is not a key of the registry,
    [values] returns a new empty array and both lookups return
    [undefined]; none of the three throws. *)
Theorem unregistered_values_empty (σ : state) (g : loc) (e : EnumObj) (p d : string) :
  enums σ !! g = Some e →
  enumValues σ !! e_name e = None →
  ∃ σ', values g σ = (Return (length (arrays σ)), σ') ∧
        arrays σ' = arrays σ ++ [mkArray [] false] ∧
        byPropName g p σ = (Return None, σ') ∧
        byDescription g d σ = (Return None, σ').
Proof.
  intros Hg Hreg. exists (with_arrays (λ h, h ++ [mkArray [] false]) σ).
  assert (values g σ = (Return (length (arrays σ)),
                        with_arrays (λ h, h ++ [mkArray [] false]) σ)) as Hvalues.
  { by rewrite values_eq, Hg, Hreg. }
  split; [done|]. split; [done|].
  rewrite byPropName_eq, byDescription_eq, Hvalues. simpl.
  by rewrite list_lookup_middle.
Qed.

Lemma unregistered_values_empty_witness :
  ∃ σ', values 0 (declared TypeScript Season) =
          (Return (length (arrays (declared TypeScript Season))), σ') ∧
        arrays σ' = arrays (declared TypeScript Season) ++ [mkArray [] false] ∧
        byPropName 0 "NONEXISTENT" (declared TypeScript Season) = (Return None, σ') ∧
        byDescription 0 "nonexistent" (declared TypeScript Season) = (Return None, σ').
Proof.
  apply (unregistered_values_empty (declared TypeScript Season) 0
           (mkEnum None [("SPRING", VEnumValue 0); ("SUMMER", VEnumValue 1);
                         ("FALL", VEnumValue 2); ("WINTER", VEnumValue 3)] false)
           "NONEXISTENT" "nonexistent").
  - vm_compute. reflexivity.
  - vm_compute. reflexivity.
Defined.

(** C8: on an enum whose name is registered, [byPropName] and
    [byDescription] return, without throwing, the first element of the
    registered sequence whose property name (description) is the
    argument, and [undefined] when there is none. *)
Theorem lookups_first_match (σ : state) (g a : loc) (e : EnumObj) (arr : ArrayObj)
    (p d : string) :
  enums σ !! g = Some e →
  enumValues σ !! e_name e = Some a →
  arrays σ !! a = Some arr →
  ∃ rp rd σ',
    byPropName g p σ = (Return rp, σ') ∧
    byDescription g d σ = (Return rd, σ') ∧
    first_match (λ x, bool_decide (propName_of σ x = Some p)) (elems arr) rp ∧
    first_match (λ x, bool_decide (description_of σ x = Some d)) (elems arr) rd.
Proof.
  intros Hg Hreg Harr.
  set (σ' := with_arrays (λ h, h ++ [mkArray (elems arr) false]) σ).
  assert (values g σ = (Return (length (arrays σ)), σ')) as Hvalues.
  { by rewrite values_eq, Hg, Hreg, Harr. }
  assert (arrays σ' !! length (arrays σ) = Some (mkArray (elems arr) false)) as Hnew.
  { simpl. by apply list_lookup_middle. }
  eexists _, _, σ'. rewrite byPropName_eq, byDescription_eq, Hvalues, Hnew. simpl.
  split; [done|]. split; [done|]. split; apply Array_find_first_match.
Qed.

Lemma lookups_first_match_witness :
  ∃ rp rd σ',
    byPropName 0 "SUMMER" (sealed TypeScript Season "Season") = (Return rp, σ') ∧
    byDescription 0 "Fall" (sealed TypeScript Season "Season") = (Return rd, σ') ∧
    first_match
      (λ x, bool_decide (propName_of (sealed TypeScript Season "Season") x = Some "SUMMER"))
      [0; 1; 2; 3] rp ∧
    first_match
      (λ x, bool_decide (description_of (sealed TypeScript Season "Season") x = Some "Fall"))
      [0; 1; 2; 3] rd.
Proof.
  apply (lookups_first_match (sealed TypeScript Season "Season") 0 0
           (mkEnum (Some "Season")
              [("SPRING", VEnumValue 0); ("SUMMER", VEnumValue 1);
               ("FALL", VEnumValue 2); ("WINTER", VEnumValue 3)] false)
           (mkArray [0; 1; 2; 3] true) "SUMMER" "Fall").
  - vm_compute. reflexivity.
  - vm_compute. reflexivity.
  - vm_compute. reflexivity.
Defined.

(** What a returning call of the [values] accessor has done, and what a
    later mutation of the returned array cannot do. *)
Lemma values_copy (σ σ1 : state) (g a : loc) :
  values g σ = (Return a, σ1) →
  arrays σ !! a = None ∧
  ∃ l0, arrays σ1 = arrays σ ++ [mkArray l0 false] ∧
        arrays σ1 !! a = Some (mkArray l0 false) ∧
        enumValues σ1 = enumValues σ ∧
        ∀ l, ∃ σ2, array_mutate a l σ1 = (Return tt, σ2) ∧
                   arrays σ2 = arrays σ ++ [mkArray l false] ∧
                   enumValues σ2 = enumValues σ ∧
                   (∀ k, is_Some (registered σ k) → registered σ2 k = registered σ k) ∧
                   ∃ a' σ3, values g σ2 = (Return a', σ3) ∧
                            a' ≠ a ∧
                            arrays σ3 !! a' = Some (mkArray l0 false).
Proof.
  rewrite values_eq. destruct (enums σ !! g) as [e|] eqn:Hg; [|done].
  assert (∀ l0 l, ∃ σ2,
            array_mutate (length (arrays σ)) l
              (with_arrays (λ h, h ++ [mkArray l0 false]) σ) = (Return tt, σ2) ∧
            arrays σ2 = arrays σ ++ [mkArray l false] ∧
            enumValues σ2 = enumValues σ ∧ enums σ2 = enums σ) as Hmutate.
  { intros l0 l. unfold array_mutate. unfold_M. simpl.
    rewrite list_lookup_middle by done. simpl. eexists. split; [done|].
    simpl. by rewrite insert_snoc. }
  assert (∀ σ2 l, arrays σ2 = arrays σ ++ [mkArray l false] →
            enumValues σ2 = enumValues σ →
            ∀ k, is_Some (registered σ k) → registered σ2 k = registered σ k) as Hkeep.
  { intros σ2 l Harr2 Hreg2 k [l' Hk]. unfold registered in *. rewrite Hreg2, Harr2.
    destruct (enumValues σ !! k) as [b|]; [|done]. simpl in *.
    destruct (arrays σ !! b) as [arr|] eqn:Hb; [|done].
    by rewrite (lookup_app_l_Some _ _ _ _ Hb). }
  destruct (enumValues σ !! e_name e) as [b|] eqn:Hreg.
  - destruct (arrays σ !! b) as [arr|] eqn:Hb; [|done]. intros [= <- <-].
    split; [by apply lookup_ge_None_2|]. exists (elems arr).
    split; [done|]. split; [simpl; by apply list_lookup_middle|]. split; [done|].
    intros l. destruct (Hmutate (elems arr) l) as (σ2 & Hrun & Harr2 & Hreg2 & Hen2).
    exists σ2. split; [done|]. split; [done|]. split; [done|].
    split; [by eapply Hkeep|].
    eexists _, _. rewrite values_eq, Hen2, Hg, Hreg2, Hreg, Harr2.
    rewrite (lookup_app_l_Some _ _ _ _ Hb). split; [done|].
    split; [rewrite length_app; simpl; lia|].
    simpl. rewrite Harr2. by apply list_lookup_middle.
  - intros [= <- <-].
    split; [by apply lookup_ge_None_2|]. exists [].
    split; [done|]. split; [simpl; by apply list_lookup_middle|]. split; [done|].
    intros l. destruct (Hmutate [] l) as (σ2 & Hrun & Harr2 & Hreg2 & Hen2).
    exists σ2. split; [done|]. split; [done|]. split; [done|].
    split; [by eapply Hkeep|].
    eexists _, _. rewrite values_eq, Hen2, Hg, Hreg2, Hreg.
    split; [done|]. split; [rewrite Harr2, length_app; simpl; lia|].
    simpl. rewrite Harr2. by apply list_lookup_middle.
Qed.

(** C5: on an enum object whose registry entry, if any, is a live array,
    every call of the [values] accessor returns an array that did not
    exist before the call; the registry and every array that did exist
    are untouched by the call and by any later mutation of the returned
    array, and the next call returns another new array with the elements
    the first one was created with. *)
Theorem values_defensive_copy (σ : state) (g : loc) (e : EnumObj) :
  enums σ !! g = Some e →
  (∀ b, enumValues σ !! e_name e = Some b → is_Some (arrays σ !! b)) →
  ∃ a σ1 l0,
    values g σ = (Return a, σ1) ∧
    arrays σ !! a = None ∧
    arrays σ1 = arrays σ ++ [mkArray l0 false] ∧
    arrays σ1 !! a = Some (mkArray l0 false) ∧
    l0 = default [] (registered σ (e_name e)) ∧
    enumValues σ1 = enumValues σ ∧
    ∀ l, ∃ σ2, array_mutate a l σ1 = (Return tt, σ2) ∧
               arrays σ2 = arrays σ ++ [mkArray l false] ∧
               enumValues σ2 = enumValues σ ∧
               (∀ k, is_Some (registered σ k) → registered σ2 k = registered σ k) ∧
               ∃ a' σ3, values g σ2 = (Return a', σ3) ∧
                        a' ≠ a ∧
                        arrays σ3 !! a' = Some (mkArray l0 false).
Proof.
  intros Hg Hlive.
  assert (∃ a σ1, values g σ = (Return a, σ1)) as (a & σ1 & Hrun).
  { rewrite values_eq, Hg. destruct (enumValues σ !! e_name e) as [b|] eqn:Hreg;
      [|by eexists _, _].
    destruct (Hlive b eq_refl) as [arr ->]. by eexists _, _. }
  destruct (values_copy _ _ _ _ Hrun) as (Hnew & l0 & Harr1 & Ha & Hreg1 & Hafter).
  exists a, σ1, l0. split_and!; try done.
  rewrite values_eq, Hg in Hrun. unfold registered.
  destruct (enumValues σ !! e_name e) as [b|] eqn:Hreg; simpl.
  - destruct (arrays σ !! b) as [arr|] eqn:Hb; [|done]. injection Hrun as <- <-.
    simpl in Harr1. apply app_inv_head in Harr1. by injection Harr1 as <-.
  - injection Hrun as <- <-.
    simpl in Harr1. apply app_inv_head in Harr1. by injection Harr1 as <-.
Qed.

Lemma values_defensive_copy_witness :
  ∃ a σ1 l0,
    values 0 (sealed Bundle Season "Season") = (Return a, σ1) ∧
    arrays (sealed Bundle Season "Season") !! a = None ∧
    arrays σ1 = arrays (sealed Bundle Season "Season") ++ [mkArray l0 false] ∧
    arrays σ1 !! a = Some (mkArray l0 false) ∧
    l0 = default [] (registered (sealed Bundle Season "Season") (Some "Season")) ∧
    enumValues σ1 = enumValues (sealed Bundle Season "Season") ∧
    ∀ l, ∃ σ2, array_mutate a l σ1 = (Return tt, σ2) ∧
               arrays σ2 = arrays (sealed Bundle Season "Season") ++ [mkArray l false] ∧
               enumValues σ2 = enumValues (sealed Bundle Season "Season") ∧
               (∀ k, is_Some (registered (sealed Bundle Season "Season") k) →
                     registered σ2 k = registered (sealed Bundle Season "Season") k) ∧
               ∃ a' σ3, values 0 σ2 = (Return a', σ3) ∧
                        a' ≠ a ∧
                        arrays σ3 !! a' = Some (mkArray l0 false).
Proof.
  apply (values_defensive_copy (sealed Bundle Season "Season") 0
           (mkEnum (Some "Season")
              [("SPRING", VEnumValue 0); ("SUMMER", VEnumValue 1);
               ("FALL", VEnumValue 2); ("WINTER", VEnumValue 3)] true)).
  - vm_compute. reflexivity.
  - intros b Hb. vm_compute in Hb. injection Hb as <-. vm_compute. by eexists.
Defined.

(** ** Sealing: failures and their effects *)

Lemma sealing_effects_registered R P fa fe σ g n e σ' :
  sealing_effects R P fa fe σ g n e σ' → registered σ' (Some n) = Some (members e).
Proof.
  intros (_ & Harr & Hreg & _). unfold registered.
  rewrite Hreg, lookup_insert_eq, Harr. simpl. by rewrite list_lookup_middle.
Qed.

Lemma members_lookup e k x :
  members e !! k = Some x → ∃ kv, own_EnumValues e !! k = Some kv ∧ kv.2 = x.
Proof.
  unfold members. rewrite list_lookup_fmap.
  destruct (own_EnumValues e !! k) as [kv|]; [|done]. intros [= <-]. by exists kv.
Qed.

Lemma members_sealed_frozen R P σ e σ' :
  (∀ kv k o, P kv k o → value_frozen o = true) →
  members_sealed R P σ e σ' → Forall (frozen_at σ') (members e).
Proof.
  intros HP (_ & _ & _ & _ & Hsealed). apply Forall_forall. intros x Hx.
  apply list_elem_of_lookup in Hx as [k Hk].
  apply members_lookup in Hk as (kv & Hkv & <-).
  destruct (Hsealed _ _ Hkv) as (o' & Ho' & HPo). exists o'. split; [done|].
  by eapply HP.
Qed.

Lemma map_fmap {A B} (f : A → B) (l : list A) : map f l = f <$> l.
Proof. reflexivity. Qed.

Lemma map_positions {A} (f : A → option nat) (l : list A) (i : nat) :
  (∀ k x, l !! k = Some x → f x = Some (i + k)) →
  map f l = map Some (seq i (length l)).
Proof.
  revert i. induction l as [|x l IH]; intros i Hall; simpl; [done|].
  rewrite (Hall 0 x eq_refl), Nat.add_0_r. f_equal. apply IH.
  intros k y Hk. rewrite (Hall (S k) y Hk). f_equal. lia.
Qed.

Lemma map_propNames (f : loc → option string) (l : list (string * loc)) :
  (∀ k kv, l !! k = Some kv → f kv.2 = Some kv.1) →
  map f l.*2 = map Some l.*1.
Proof.
  induction l as [|kv l IH]; intros Hall; simpl; [done|].
  rewrite (Hall 0 kv eq_refl). f_equal. apply IH.
  intros k kv' Hk. by apply (Hall (S k)).
Qed.

Lemma description_failure_effects σ g n e σ' :
  description_failure σ g n e σ' →
  Forall (frozen_at σ') (members e) ∧
  map (propName_of σ') (members e) = map Some (own_EnumValues e).*1 ∧
  INITIALIZED σ' = marked_with (first_constructor σ e) (INITIALIZED σ).
Proof.
  intros (_ & _ & _ & Hsealed).
  split; [eapply members_sealed_frozen; [|done]; by intros kv k o (? & _)|].
  destruct Hsealed as (Hini & _ & _ & _ & Hsealed). split; [|done].
  apply map_propNames. intros k kv Hk.
  destruct (Hsealed _ _ Hk) as (o' & Ho' & _ & Hp).
  unfold propName_of. by rewrite Ho'.
Qed.

Lemma duplicate_messages_differ n k :
  Error (ES5.duplicate_descriptions k) ≠ Error (duplicate_name n).
Proof. unfold ES5.duplicate_descriptions, duplicate_name. simpl. discriminate. Qed.

(** C3 (as the code has it): once a name is registered, [initEnum] with
    that name throws on every enum object, in both variants, and leaves
    the registry, the arrays, the members and the markers as they were.
    The exception is the duplicate-name error when the receiver is
    extensible, and the [TypeError] of the assignment [this.name = name]
    when the receiver is frozen. *)
Theorem second_initEnum_fails (v : variant) (σ : state) (g a : loc) (e : EnumObj)
    (n : string) :
  enums σ !! g = Some e →
  enumValues σ !! Some n = Some a →
  ∃ σ', initEnum_of v g n σ =
          (Throw (if e_frozen e then TypeError else Error (duplicate_name n)), σ') ∧
        enumValues σ' = enumValues σ ∧ arrays σ' = arrays σ ∧
        objs σ' = objs σ ∧ INITIALIZED σ' = INITIALIZED σ ∧
        registered σ' (Some n) = registered σ (Some n).
Proof.
  intros Hg Hreg.
  assert (initEnum_of v g n σ =
            (Throw (if e_frozen e then TypeError else Error (duplicate_name n)),
             if e_frozen e then σ else with_enums (λ h, <[g := named n e]> h) σ)) as ->.
  { destruct v; simpl.
    - pose proof (TS_initEnum_spec g n σ) as Hspec. rewrite Hg, Hreg in Hspec.
      by destruct (e_frozen e).
    - pose proof (ES5_initEnum_spec g n σ) as Hspec. rewrite Hg, Hreg in Hspec.
      by destruct (e_frozen e). }
  eexists. split; [done|]. by destruct (e_frozen e).
Qed.

Lemma second_initEnum_fails_witness :
  ∃ σ', initEnum_of TypeScript 0 "Season" (sealed TypeScript Season "Season") =
          (Throw (if false then TypeError else Error (duplicate_name "Season")), σ') ∧
        enumValues σ' = enumValues (sealed TypeScript Season "Season") ∧
        arrays σ' = arrays (sealed TypeScript Season "Season") ∧
        objs σ' = objs (sealed TypeScript Season "Season") ∧
        INITIALIZED σ' = INITIALIZED (sealed TypeScript Season "Season") ∧
        registered σ' (Some "Season") =
          registered (sealed TypeScript Season "Season") (Some "Season").
Proof.
  apply (second_initEnum_fails TypeScript (sealed TypeScript Season "Season") 0 0
           (mkEnum (Some "Season")
              [("SPRING", VEnumValue 0); ("SUMMER", VEnumValue 1);
               ("FALL", VEnumValue 2); ("WINTER", VEnumValue 3)] false) "Season").
  - vm_compute. reflexivity.
  - vm_compute. reflexivity.
Defined.

(** C3 as stated fails: in the bundle the first sealing freezes the enum
    object, so a second call on the same instance throws a [TypeError]
    at [this.name = name], before the duplicate-name test is reached. *)
Lemma second_initEnum_same_instance :
  initEnum_of Bundle 0 "Season" (declared Bundle Season) =
    (Return tt, sealed Bundle Season "Season") ∧
  registered (sealed Bundle Season "Season") (Some "Season") = Some [0; 1; 2; 3] ∧
  (initEnum_of Bundle 0 "Season" (sealed Bundle Season "Season")).1 = Throw TypeError ∧
  (initEnum_of Bundle 0 "Season" (sealed Bundle Season "Season")).1 ≠
    Throw (Error (duplicate_name "Season")).
Proof.
  split; [vm_compute; reflexivity|]. split; [vm_compute; reflexivity|].
  assert ((initEnum_of Bundle 0 "Season" (sealed Bundle Season "Season")).1 = Throw TypeError)
    as Hrun by (vm_compute; reflexivity).
  split; [done|]. rewrite Hrun. discriminate.
Qed.

(** C4 (as the code has it): a call of [initEnum] that returns has
    registered the members under the name and frozen every one of them.
    A call that throws leaves the registry and the arrays untouched, but
    not always the rest.  After the duplicate-name error the store is the
    one before the call with the name of the receiver written, and
    nothing else.  The duplicate-description error is thrown by the
    bundle only, with the registration name, and it leaves the receiver
    named, every member frozen under its property name and the class of
    the first member marked; the bundle throws it whenever an extensible
    enum under a free name has distinct extensible members of which two
    share a description. *)
Theorem sealing_all_or_registry_untouched (v : variant) (σ : state) (g : loc) (n : string) :
  sealing_outcome v σ g n (initEnum_of v g n σ).
Proof.
  split.
  - destruct v; simpl.
    + pose proof (TS_initEnum_spec g n σ) as Hspec.
      destruct (enums σ !! g) as [e|] eqn:Hg; [|by rewrite Hspec].
      destruct (e_frozen e); [by rewrite Hspec|]. cbv zeta in Hspec.
      destruct (enumValues σ !! Some n) as [a|] eqn:Hreg.
      { rewrite Hspec. split; [done|]. split; [done|]. split; [by exists e|].
        intros k Heq. symmetry in Heq. by apply duplicate_messages_differ in Heq. }
      destruct Hspec as [(σ' & -> & Hframe & _)|(σ' & -> & Heff)].
      * destruct Hframe as (_ & ? & ? & _). by repeat split.
      * exists e. split; [done|]. split; [done|].
        split; [by eapply sealing_effects_registered|].
        destruct Heff as (_ & _ & _ & Hsealed).
        eapply members_sealed_frozen; [|done]. by intros kv k o (? & _).
    + pose proof (ES5_initEnum_spec g n σ) as Hspec.
      destruct (enums σ !! g) as [e|] eqn:Hg; [|by rewrite Hspec].
      destruct (e_frozen e); [by rewrite Hspec|]. cbv zeta in Hspec.
      destruct (enumValues σ !! Some n) as [a|] eqn:Hreg.
      { rewrite Hspec. split; [done|]. split; [done|]. split; [by exists e|].
        intros k Heq. symmetry in Heq. by apply duplicate_messages_differ in Heq. }
      destruct Hspec as [(σ' & -> & Hframe & _)
                        |[(σ' & -> & _ & Hfail)|(σ' & -> & _ & Heff)]].
      * destruct Hframe as (_ & ? & ? & _). by repeat split.
      * pose proof (description_failure_effects _ _ _ _ _ Hfail) as (Hfrozen & Hnames & Hini).
        destruct Hfail as (Hen & ? & ? & _). split; [done|]. split; [done|]. split.
        { intros Heq. by apply duplicate_messages_differ in Heq. }
        intros k Heq. split; [done|].
        split; [unfold ES5.duplicate_descriptions in Heq; simpl in Heq; by simplify_eq|].
        by exists e.
      * exists e. split; [done|]. split; [done|].
        split; [by eapply sealing_effects_registered|].
        destruct Heff as (_ & _ & _ & Hsealed).
        eapply members_sealed_frozen; [|done]. by intros kv k o (? & _).
  - intros -> (e & Hg & Hfr & Hn & Hnd & Hunfrozen & Hdup). simpl.
    pose proof (ES5_initEnum_spec g n σ) as Hspec. rewrite Hg, Hfr in Hspec.
    cbv zeta in Hspec. rewrite Hn in Hspec.
    destruct Hspec as [(σ' & _ & _ & Hloop)|[(σ' & -> & _)|(σ' & _ & Hdescr & _)]];
      [|done|done].
    destruct (ES5_loop_unfrozen (own_EnumValues e) 0
                (with_enums (λ h, <[g := named n e]> h) σ) Hnd Hunfrozen) as (τ & Hτ).
    change (own_EnumValues (named n e)) with (own_EnumValues e) in Hloop. congruence.
Qed.

(** C4 as stated fails: in the bundle the description check runs after
    the members are frozen and the marker is set, so the failed call
    leaves both behind. *)
Lemma failed_sealing_leaves_members_frozen :
  (initEnum_of Bundle 0 "Twins" (declared Bundle Twins)).1 =
    Throw (Error (ES5.duplicate_descriptions (Some "Twins"))) ∧
  value_frozen <$> objs (declared Bundle Twins) !! 0 = Some false ∧
  value_frozen <$> objs (sealed Bundle Twins "Twins") !! 0 = Some true ∧
  _propName <$> objs (declared Bundle Twins) !! 0 = Some None ∧
  _propName <$> objs (sealed Bundle Twins "Twins") !! 0 = Some (Some "A") ∧
  bool_decide ("TwinValue" ∈ INITIALIZED (declared Bundle Twins)) = false ∧
  bool_decide ("TwinValue" ∈ INITIALIZED (sealed Bundle Twins "Twins")) = true.
Proof. split_and!; vm_compute; reflexivity. Qed.

(** ** What persists through every step of a client *)

Lemma persists_refl σ : persists σ σ.
Proof. by repeat split. Qed.

Lemma persists_trans σ1 σ2 σ3 : persists σ1 σ2 → persists σ2 σ3 → persists σ1 σ3.
Proof.
  intros (Hi1 & Hr1 & Ho1 & He1 & Ha1 & Hl1) (Hi2 & Hr2 & Ho2 & He2 & Ha2 & Hl2).
  split; [set_solver|]. repeat split; eauto. lia.
Qed.

Lemma persists_put_obj σ r o o' :
  objs σ !! r = Some o → value_frozen o = false →
  persists σ (with_objs (λ h, <[r := o']> h) σ).
Proof.
  intros Hr Hfr. repeat split; try done; try (simpl; rewrite ?length_insert, ?length_app; lia). simpl. intros r0 o0 Hr0 Hfr0.
  rewrite list_lookup_insert_ne; [done|]. intros <-. congruence.
Qed.

Lemma persists_put_enum σ g e e' :
  enums σ !! g = Some e → e_frozen e = false →
  persists σ (with_enums (λ h, <[g := e']> h) σ).
Proof.
  intros Hg Hfr. repeat split; try done; try (simpl; rewrite ?length_insert, ?length_app; lia). simpl. intros g0 e0 Hg0 Hfr0.
  rewrite list_lookup_insert_ne; [done|]. intros <-. congruence.
Qed.

Lemma persists_put_array σ a arr arr' :
  arrays σ !! a = Some arr → array_frozen arr = false →
  persists σ (with_arrays (λ h, <[a := arr']> h) σ).
Proof.
  intros Ha Hfr. repeat split; try done; try (simpl; rewrite ?length_insert, ?length_app; lia). simpl. intros a0 arr0 Ha0 Hfr0.
  rewrite list_lookup_insert_ne; [done|]. intros <-. congruence.
Qed.

Lemma persists_new_array σ arr : persists σ (with_arrays (λ h, h ++ [arr]) σ).
Proof.
  repeat split; try done; try (simpl; rewrite ?length_insert, ?length_app; lia). simpl. intros a0 arr0 Ha0 _. by apply lookup_app_l_Some.
Qed.

Lemma persists_objs_only R σ σ' :
  (∀ o o', R o o' → value_frozen o = true → o' = o) →
  objs_only R σ σ' → persists σ σ'.
Proof.
  intros HR (Hen & Harr & Hreg & Hini & _ & _ & Hobjs).
  unfold persists. rewrite Hen, Harr, Hreg, Hini. repeat split; try done; try (simpl; rewrite ?length_insert, ?length_app; lia).
  intros r o Hr Hfr. destruct (Hobjs _ _ Hr) as (o' & Hr' & Hoo').
  by rewrite Hr', (HR _ _ Hoo' Hfr).
Qed.

Lemma evolves_frozen o o' : evolves o o' → value_frozen o = true → o' = o.
Proof. by intros (_ & _ & H). Qed.

Lemma evolves_ES5_frozen o o' : evolves_ES5 o o' → value_frozen o = true → o' = o.
Proof. by intros [(_ & _ & H) _]. Qed.

Lemma marked_with_subseteq c (s : gset string) : s ⊆ marked_with c s.
Proof. destruct c; simpl; set_solver. Qed.

Lemma persists_sealing_effects R P fa fe σ g n e σ' :
  (∀ o o', R o o' → value_frozen o = true → o' = o) →
  enums σ !! g = Some e → e_frozen e = false → enumValues σ !! Some n = None →
  sealing_effects R P fa fe σ g n e σ' → persists σ σ'.
Proof.
  intros HR Hg Hfr Hn (Hen & Harr & Hreg & Hini & _ & _ & Hframe & _).
  unfold persists. rewrite Hen, Harr, Hreg, Hini. repeat split.
  - apply marked_with_subseteq.
  - intros k a Hk. rewrite lookup_insert_ne; [done|]. intros <-. congruence.
  - intros r o Hr Hfro. destruct (Hframe _ _ Hr) as (o' & Hr' & Hoo').
    by rewrite Hr', (HR _ _ Hoo' Hfro).
  - intros g0 e0 Hg0 Hfr0. rewrite list_lookup_insert_ne; [done|]. intros <-. congruence.
  - intros a0 arr0 Ha0 _. by apply lookup_app_l_Some.
  - by rewrite length_insert.
Qed.

Lemma persists_description_failure σ g n e σ' :
  enums σ !! g = Some e → e_frozen e = false →
  description_failure σ g n e σ' → persists σ σ'.
Proof.
  intros Hg Hfr (Hen & Harr & Hreg & Hini & _ & _ & Hframe & _).
  unfold persists. rewrite Hen, Harr, Hreg, Hini. repeat split; try done; try (simpl; rewrite ?length_insert, ?length_app; lia).
  - apply marked_with_subseteq.
  - intros r o Hr Hfro. destruct (Hframe _ _ Hr) as (o' & Hr' & Hoo').
    by rewrite Hr', (evolves_ES5_frozen _ _ Hoo' Hfro).
  - intros g0 e0 Hg0 Hfr0. rewrite list_lookup_insert_ne; [done|]. intros <-. congruence.
Qed.

Lemma persists_initEnum v g n σ : persists σ (initEnum_of v g n σ).2.
Proof.
  destruct v; simpl.
  - pose proof (TS_initEnum_spec g n σ) as Hspec.
    destruct (enums σ !! g) as [e|] eqn:Hg; [|rewrite Hspec; apply persists_refl].
    destruct (e_frozen e) eqn:Hfr; [rewrite Hspec; apply persists_refl|].
    cbv zeta in Hspec.
    assert (persists σ (with_enums (λ h, <[g := named n e]> h) σ)) as Hnamed
      by by eapply persists_put_enum.
    destruct (enumValues σ !! Some n) as [a|] eqn:Hreg; [by rewrite Hspec|].
    destruct Hspec as [(σ' & -> & Hframe & _)|(σ' & -> & Heff)]; simpl.
    + eapply persists_trans; [done|].
      eapply persists_objs_only; [apply evolves_frozen|done].
    + eapply persists_sealing_effects; [apply evolves_frozen|done..].
  - pose proof (ES5_initEnum_spec g n σ) as Hspec.
    destruct (enums σ !! g) as [e|] eqn:Hg; [|rewrite Hspec; apply persists_refl].
    destruct (e_frozen e) eqn:Hfr; [rewrite Hspec; apply persists_refl|].
    cbv zeta in Hspec.
    assert (persists σ (with_enums (λ h, <[g := named n e]> h) σ)) as Hnamed
      by by eapply persists_put_enum.
    destruct (enumValues σ !! Some n) as [a|] eqn:Hreg; [by rewrite Hspec|].
    destruct Hspec as [(σ' & -> & Hframe & _)
                      |[(σ' & -> & _ & Hfail)|(σ' & -> & _ & Heff)]]; simpl.
    + eapply persists_trans; [done|].
      eapply persists_objs_only; [apply evolves_ES5_frozen|done].
    + by eapply persists_description_failure.
    + eapply persists_sealing_effects; [apply evolves_ES5_frozen|done..].
Qed.

Lemma persists_values g σ : persists σ (values g σ).2.
Proof.
  rewrite values_eq. destruct (enums σ !! g) as [e|]; [|apply persists_refl].
  destruct (enumValues σ !! e_name e) as [a|]; [|apply persists_new_array].
  destruct (arrays σ !! a); [apply persists_new_array|apply persists_refl].
Qed.

Lemma persists_EnumValue_new v c d σ : persists σ (EnumValue_new_of v c d σ).2.
Proof.
  destruct v; simpl; unfold TS.EnumValue_new, ES5.EnumValue_new; unfold_M;
    (destruct (decide (c ∈ INITIALIZED σ)); simpl; [apply persists_refl|]);
    (repeat split; try done; simpl; intros r o Hr _; by apply lookup_app_l_Some).
Qed.

Lemma persists_run_op v o σ : persists σ (run_op v o σ).
Proof.
  destruct o; simpl.
  - repeat split; try done; try (simpl; rewrite ?length_insert, ?length_app; lia). simpl. intros g e Hg _. by apply lookup_app_l_Some.
  - apply persists_EnumValue_new.
  - apply persists_initEnum.
  - apply persists_values.
  - rewrite byPropName_eq. pose proof (persists_values g σ) as Hv.
    destruct (values g σ) as [[a|err] σ']; [|done].
    by destruct (arrays σ' !! a).
  - rewrite byDescription_eq. pose proof (persists_values g σ) as Hv.
    destruct (values g σ) as [[a|err] σ']; [|done].
    by destruct (arrays σ' !! a).
  - rewrite toString_of_store. apply persists_refl.
  - unfold assign_prop. unfold_M. destruct (enums σ !! g) as [e|] eqn:Hg;
      [|apply persists_refl].
    destruct (e_frozen e) eqn:Hfr; [apply persists_refl|]. by eapply persists_put_enum.
  - unfold delete_prop. unfold_M. destruct (enums σ !! g) as [e|] eqn:Hg;
      [|apply persists_refl].
    destruct (decide (k = "name")).
    + destruct (e_name e); [|apply persists_refl].
      destruct (e_frozen e) eqn:Hfr; [apply persists_refl|]. by eapply persists_put_enum.
    + case_bool_decide; [|apply persists_refl].
      destruct (e_frozen e) eqn:Hfr; [apply persists_refl|]. by eapply persists_put_enum.
  - unfold assign_field. unfold_M. destruct (objs σ !! r) as [ob|] eqn:Hr;
      [|apply persists_refl].
    destruct (value_frozen ob) eqn:Hfr; [apply persists_refl|]. by eapply persists_put_obj.
  - unfold array_mutate. unfold_M. destruct (arrays σ !! a) as [arr|] eqn:Ha;
      [|apply persists_refl].
    destruct (array_frozen arr) eqn:Hfr; [apply persists_refl|]. by eapply persists_put_array.
Qed.

Lemma persists_run_ops v ops σ : persists σ (run_ops v ops σ).
Proof.
  unfold run_ops. revert σ. induction ops as [|o ops IH]; intros σ; simpl.
  - apply persists_refl.
  - eapply persists_trans; [apply persists_run_op|apply IH].
Qed.

(** ** Sealing: what a returning call has done *)

Lemma TS_initEnum_return g n σ σ' e :
  enums σ !! g = Some e →
  TS.initEnum g n σ = (Return tt, σ') →
  e_frozen e = false ∧ enumValues σ !! Some n = None ∧
  sealing_effects evolves is_sealed_TS true false σ g n e σ'.
Proof.
  intros Hg Hrun. pose proof (TS_initEnum_spec g n σ) as Hspec. rewrite Hg in Hspec.
  destruct (e_frozen e); [congruence|]. cbv zeta in Hspec.
  destruct (enumValues σ !! Some n); [congruence|].
  destruct Hspec as [(τ & Hτ & _)|(τ & Hτ & Heff)]; [congruence|].
  rewrite Hrun in Hτ. by injection Hτ as <-.
Qed.

Lemma ES5_initEnum_return g n σ σ' e :
  enums σ !! g = Some e →
  ES5.initEnum g n σ = (Return tt, σ') →
  e_frozen e = false ∧ enumValues σ !! Some n = None ∧
  NoDup (map (description_of σ) (members e)) ∧
  sealing_effects evolves_ES5 is_sealed_ES5 false true σ g n e σ'.
Proof.
  intros Hg Hrun. pose proof (ES5_initEnum_spec g n σ) as Hspec. rewrite Hg in Hspec.
  destruct (e_frozen e); [congruence|]. cbv zeta in Hspec.
  destruct (enumValues σ !! Some n); [congruence|].
  destruct Hspec as [(τ & Hτ & _)|[(τ & Hτ & _)|(τ & Hτ & Hnd & Heff)]]; [congruence..|].
  rewrite Hrun in Hτ. by injection Hτ as <-.
Qed.

(** Sealing does return: on an extensible enum object, under a name that
    is not registered, with distinct extensible members whose
    descriptions differ. *)
Lemma initEnum_returns v g n σ e :
  enums σ !! g = Some e →
  e_frozen e = false →
  enumValues σ !! Some n = None →
  NoDup (members e) →
  Forall (unfrozen_at σ) (members e) →
  NoDup (map (description_of σ) (members e)) →
  ∃ σ', initEnum_of v g n σ = (Return tt, σ').
Proof.
  intros Hg Hfr Hn Hnd Hunfrozen Hdescr. destruct v; simpl.
  - pose proof (TS_initEnum_spec g n σ) as Hspec. rewrite Hg, Hfr in Hspec.
    cbv zeta in Hspec. rewrite Hn in Hspec.
    destruct Hspec as [(σ' & _ & _ & Hloop)|(σ' & Hrun & _)]; [|by exists σ'].
    destruct (TS_loop_unfrozen (own_EnumValues e) 0
                (with_enums (λ h, <[g := named n e]> h) σ) Hnd Hunfrozen) as (τ & Hτ).
    change (own_EnumValues (named n e)) with (own_EnumValues e) in Hloop. congruence.
  - pose proof (ES5_initEnum_spec g n σ) as Hspec. rewrite Hg, Hfr in Hspec.
    cbv zeta in Hspec. rewrite Hn in Hspec.
    destruct Hspec as [(σ' & _ & _ & Hloop)|[(σ' & _ & Hdup & _)|(σ' & Hrun & _)]];
      [|done|by exists σ'].
    destruct (ES5_loop_unfrozen (own_EnumValues e) 0
                (with_enums (λ h, <[g := named n e]> h) σ) Hnd Hunfrozen) as (τ & Hτ).
    change (own_EnumValues (named n e)) with (own_EnumValues e) in Hloop. congruence.
Qed.

(** What the two variants share after a returning call. *)
Lemma initEnum_return v g n σ σ' e :
  enums σ !! g = Some e →
  initEnum_of v g n σ = (Return tt, σ') →
  e_frozen e = false ∧ enumValues σ !! Some n = None ∧
  registered σ' (Some n) = Some (members e) ∧
  Forall (frozen_at σ') (members e) ∧
  INITIALIZED σ' = marked_with (first_constructor σ e) (INITIALIZED σ) ∧
  length (objs σ') = length (objs σ) ∧
  (∀ r o, objs σ !! r = Some o → ∃ o', objs σ' !! r = Some o' ∧ evolves o o').
Proof.
  intros Hg Hrun. destruct v; simpl in Hrun.
  - destruct (TS_initEnum_return _ _ _ _ _ Hg Hrun) as (Hfr & Hn & Heff).
    split; [done|]. split; [done|].
    split; [by eapply sealing_effects_registered|].
    destruct Heff as (_ & _ & _ & Hsealed).
    split; [eapply members_sealed_frozen; [|done]; by intros kv k o (? & _)|].
    destruct Hsealed as (? & _ & ? & Hframe & _). by repeat split.
  - destruct (ES5_initEnum_return _ _ _ _ _ Hg Hrun) as (Hfr & Hn & _ & Heff).
    split; [done|]. split; [done|].
    split; [by eapply sealing_effects_registered|].
    destruct Heff as (_ & _ & _ & Hsealed).
    split; [eapply members_sealed_frozen; [|done]; by intros kv k o (? & _)|].
    destruct Hsealed as (? & _ & ? & Hframe & _). repeat split; try done.
    intros r o Hr. destruct (Hframe _ _ Hr) as (o' & ? & [? _]). eauto.
Qed.

(** ** The instantiation guard *)

Lemma EnumValue_new_marked v c d σ :
  c ∈ INITIALIZED σ →
  EnumValue_new_of v c d σ = (Throw (Error illegal_instantiation), σ).
Proof.
  intros Hc. destruct v; simpl; unfold TS.EnumValue_new, ES5.EnumValue_new; unfold_M;
    by rewrite decide_True.
Qed.

Lemma EnumValue_new_unmarked v c d σ :
  c ∉ INITIALIZED σ →
  ∃ o σ', EnumValue_new_of v c d σ = (Return (length (objs σ)), σ') ∧
          objs σ' = objs σ ++ [o] ∧
          value_constructor o = c ∧ _description o = d ∧ value_frozen o = false.
Proof.
  intros Hc. destruct v; simpl; unfold TS.EnumValue_new, ES5.EnumValue_new; unfold_M;
    rewrite decide_False by done; simpl; by eexists _, _.
Qed.

(** X21: what the sealing does to the markers.  After [initEnum] has
    returned on an enum with at least one member, every later construction of the
    class of its first discovered member throws, whatever the client did
    in between; the sealing marks no other class, and a class that does
    not carry the marker can be constructed. *)
Lemma first_member_class_closed (v : variant) (σ σ' : state) (g v0 : loc) (n : string)
    (e : EnumObj) (l : list loc) (c0 : cls) :
  enums σ !! g = Some e →
  members e = v0 :: l →
  value_constructor <$> objs σ !! v0 = Some c0 →
  initEnum_of v g n σ = (Return tt, σ') →
  (∀ ops d, EnumValue_new_of v c0 d (run_ops v ops σ') =
              (Throw (Error illegal_instantiation), run_ops v ops σ')) ∧
  (∀ c, c ≠ c0 → c ∉ INITIALIZED σ → c ∉ INITIALIZED σ') ∧
  (∀ c d τ, c ∉ INITIALIZED τ →
     ∃ o τ', EnumValue_new_of v c d τ = (Return (length (objs τ)), τ') ∧
             objs τ' = objs τ ++ [o] ∧
             value_constructor o = c ∧ _description o = d ∧ value_frozen o = false).
Proof.
  intros Hg Hmem Hv0 Hrun.
  destruct (objs σ !! v0) as [o0|] eqn:Ho0; [|done]. injection Hv0 as <-.
  destruct (initEnum_return _ _ _ _ _ _ Hg Hrun) as (_ & _ & _ & _ & Hini & _).
  rewrite (first_constructor_Some _ _ _ _ _ Hmem Ho0) in Hini. unfold marked_with in Hini.
  split; [|split; [|intros c d τ; apply EnumValue_new_unmarked]].
  - intros ops d. apply EnumValue_new_marked.
    destruct (persists_run_ops v ops σ') as (Hsub & _). apply Hsub. rewrite Hini.
    by apply elem_of_union_l, elem_of_singleton.
  - intros c Hc Hnot. rewrite Hini. intros [Hin|Hin]%elem_of_union; [|done].
    by apply elem_of_singleton in Hin.
Qed.

Lemma first_member_class_closed_witness :
  (∀ ops d, EnumValue_new_of Bundle "Cat" d (run_ops Bundle ops (sealed Bundle Mixed "Pets")) =
              (Throw (Error illegal_instantiation),
               run_ops Bundle ops (sealed Bundle Mixed "Pets"))) ∧
  (∀ c, c ≠ "Cat" → c ∉ INITIALIZED (declared Bundle Mixed) →
        c ∉ INITIALIZED (sealed Bundle Mixed "Pets")) ∧
  (∀ c d τ, c ∉ INITIALIZED τ →
     ∃ o τ', EnumValue_new_of Bundle c d τ = (Return (length (objs τ)), τ') ∧
             objs τ' = objs τ ++ [o] ∧
             value_constructor o = c ∧ _description o = d ∧ value_frozen o = false).
Proof.
  apply (first_member_class_closed Bundle (declared Bundle Mixed) (sealed Bundle Mixed "Pets")
           0 0 "Pets" (mkEnum None [("CAT", VEnumValue 0); ("DOG", VEnumValue 1)] false)
           [1] "Cat").
  - vm_compute. reflexivity.
  - vm_compute. reflexivity.
  - vm_compute. reflexivity.
  - vm_compute. reflexivity.
Defined.

(** C6: the code breaks it.  The constructor comment (lines 11-14) says
    that [initEnum] closes the class, but [enumValuesFromObject] marks
    [values[0].constructor] only (lines 116-118 and 280-282).  In an enum
    whose members belong to two classes, [Cat] and then [Dog], the sealing
    returns in both variants, the second member is of class [Dog], and a
    later [new Dog("rex")] returns a new instance, while [new Cat("tom")]
    throws. *)
Lemma second_class_stays_open :
  initEnum_of Bundle 0 "Pets" (declared Bundle Mixed) = (Return tt, sealed Bundle Mixed "Pets") ∧
  initEnum_of TypeScript 0 "Pets" (declared TypeScript Mixed) =
    (Return tt, sealed TypeScript Mixed "Pets") ∧
  value_constructor <$> objs (sealed Bundle Mixed "Pets") !! 1 = Some "Dog" ∧
  value_constructor <$> objs (sealed TypeScript Mixed "Pets") !! 1 = Some "Dog" ∧
  (EnumValue_new_of Bundle "Dog" "rex" (sealed Bundle Mixed "Pets")).1 = Return 2 ∧
  (EnumValue_new_of TypeScript "Dog" "rex" (sealed TypeScript Mixed "Pets")).1 = Return 2 ∧
  (EnumValue_new_of Bundle "Cat" "tom" (sealed Bundle Mixed "Pets")).1 =
    Throw (Error illegal_instantiation) ∧
  (EnumValue_new_of TypeScript "Cat" "tom" (sealed TypeScript Mixed "Pets")).1 =
    Throw (Error illegal_instantiation).
Proof. split_and!; vm_compute; reflexivity. Qed.

(** ** Freezing *)









(** ** [toString] *)




(** ** Ordinals *)

(** The bundle's constructor numbers the instances of each class in the
    order of their construction. *)
Lemma ES5_EnumValue_new_ordinal c d σ r σ' :
  ES5.EnumValue_new c d σ = (Return r, σ') →
  ordinal_of σ' r = Some (default 0 (sizes σ !! c)) ∧
  sizes σ' !! c = Some (S (default 0 (sizes σ !! c))).
Proof.
  unfold ES5.EnumValue_new. unfold_M. destruct (decide (c ∈ INITIALIZED σ)); [done|].
  simpl. intros [= <- <-]. unfold ordinal_of. simpl.
  by rewrite list_lookup_middle, lookup_insert_eq.
Qed.

(** X20: what the sealing does to the ordinals.  After [initEnum] has
    returned, [values] returns a new array holding the members in discovery order,
    each carrying the name of its property.  In the TypeScript source the
    member at position [k] has ordinal [k].  In the bundle the sealing
    does not touch the ordinals: each member keeps the one its
    constructor gave it. *)
Lemma ordinals_after_sealing (v : variant) (σ σ' : state) (g : loc) (n : string)
    (e : EnumObj) :
  enums σ !! g = Some e →
  initEnum_of v g n σ = (Return tt, σ') →
  ∃ σ'', values g σ' = (Return (length (arrays σ')), σ'') ∧
         arrays σ'' !! length (arrays σ') = Some (mkArray (members e) false) ∧
         map (propName_of σ'') (members e) = map Some (own_EnumValues e).*1 ∧
         map (ordinal_of σ'') (members e) =
           match v with
           | TypeScript => map Some (seq 0 (length (members e)))
           | Bundle => map (ordinal_of σ) (members e)
           end.
Proof.
  intros Hg Hrun.
  assert (∀ fa fe R P,
            sealing_effects R P fa fe σ g n e σ' →
            values g σ' =
              (Return (length (arrays σ')),
               with_arrays (λ h, h ++ [mkArray (members e) false]) σ')) as Hvalues.
  { intros fa fe R P (Hen & Harr & Hreg & _). rewrite values_eq, Hen.
    rewrite list_lookup_insert_eq by by eapply lookup_lt_Some. simpl.
    rewrite Hreg, lookup_insert_eq, Harr. by rewrite list_lookup_middle. }
  exists (with_arrays (λ h, h ++ [mkArray (members e) false]) σ').
  destruct v; simpl in Hrun.
  - destruct (TS_initEnum_return _ _ _ _ _ Hg Hrun) as (_ & _ & Heff).
    split; [by eapply Hvalues|]. split; [simpl; by apply list_lookup_middle|].
    destruct Heff as (_ & _ & _ & _ & _ & _ & _ & Hsealed). split.
    + apply map_propNames. intros k kv Hk.
      destruct (Hsealed _ _ Hk) as (o' & Ho' & _ & _ & Hp).
      unfold propName_of. simpl. by rewrite Ho'.
    + apply map_positions. intros k x Hk.
      apply members_lookup in Hk as (kv & Hkv & <-).
      destruct (Hsealed _ _ Hkv) as (o' & Ho' & _ & Hord & _).
      unfold ordinal_of. simpl. by rewrite Ho'.
  - destruct (ES5_initEnum_return _ _ _ _ _ Hg Hrun) as (_ & _ & _ & Heff).
    split; [by eapply Hvalues|]. split; [simpl; by apply list_lookup_middle|].
    destruct Heff as (_ & _ & _ & _ & _ & Hlen & Hframe & Hsealed). split.
    + apply map_propNames. intros k kv Hk.
      destruct (Hsealed _ _ Hk) as (o' & Ho' & _ & Hp).
      unfold propName_of. simpl. by rewrite Ho'.
    + apply map_ext. intros x.
      apply (ordinal_of_frame σ (with_arrays (λ h, h ++ [mkArray (members e) false]) σ'));
        [done|].
      intros r o Hr. destruct (Hframe _ _ Hr) as (o' & Hr' & _ & Hord). eauto.
Qed.

Lemma ordinals_after_sealing_witness :
  ∃ σ'', values 0 (sealed TypeScript Season "Season") =
           (Return (length (arrays (sealed TypeScript Season "Season"))), σ'') ∧
         arrays σ'' !! length (arrays (sealed TypeScript Season "Season")) =
           Some (mkArray [0; 1; 2; 3] false) ∧
         map (propName_of σ'') [0; 1; 2; 3] =
           map Some ["SPRING"; "SUMMER"; "FALL"; "WINTER"] ∧
         map (ordinal_of σ'') [0; 1; 2; 3] = map Some (seq 0 4).
Proof.
  apply (ordinals_after_sealing TypeScript (declared TypeScript Season)
           (sealed TypeScript Season "Season") 0 "Season"
           (mkEnum None [("SPRING", VEnumValue 0); ("SUMMER", VEnumValue 1);
                         ("FALL", VEnumValue 2); ("WINTER", VEnumValue 3)] false)).
  - vm_compute. reflexivity.
  - vm_compute. reflexivity.
Defined.

(** C1: the bundle breaks it.  Its ordinal getter is documented as the
    index of the instance in the enum (lines 208-212), but the ordinal is
    the value of the per-class counter at construction (lines 181-189)
    and the sealing never renumbers.  Two members of one class are
    constructed as ["b"], then ["a"], and assigned as [A = a], [B = b]:
    the sealing returns, the members are discovered as [A], [B], and they
    carry the ordinals 1 and 0.  The TypeScript source, which numbers the
    members while sealing (lines 101-106), gives them 0 and 1 on the same
    program. *)
Lemma ordinals_by_construction_order :
  initEnum_of Bundle 0 "Letters" (out_of_order Bundle) =
    (Return tt, sealed_out_of_order Bundle) ∧
  (observe 0 (sealed_out_of_order Bundle)).1 =
    Return [(Some "A", Some 1); (Some "B", Some 0)] ∧
  [Some 1; Some 0] ≠ map Some (seq 0 2) ∧
  initEnum_of TypeScript 0 "Letters" (out_of_order TypeScript) =
    (Return tt, sealed_out_of_order TypeScript) ∧
  (observe 0 (sealed_out_of_order TypeScript)).1 =
    Return [(Some "A", Some 0); (Some "B", Some 1)].
Proof.
  split_and!; try (vm_compute; reflexivity). simpl. congruence.
Qed.

(** ** The description check *)

(** C2 (as the code has it): in the bundle, [initEnum] on an enum with
    two members of one description always throws and leaves the registry
    as it was.  The exception is the duplicate-description error, which
    carries the registration name, whenever no earlier step throws first:
    the enum object is extensible, the name is not registered, and the
    members are distinct extensible objects. *)
Theorem duplicate_descriptions_rejected (σ : state) (g : loc) (n : string) (e : EnumObj)
    (i j : nat) (x y : loc) :
  enums σ !! g = Some e →
  i ≠ j →
  members e !! i = Some x →
  members e !! j = Some y →
  description_of σ x = description_of σ y →
  ∃ err σ', ES5.initEnum g n σ = (Throw err, σ') ∧
            enumValues σ' = enumValues σ ∧
            (e_frozen e = false →
             enumValues σ !! Some n = None →
             NoDup (members e) →
             Forall (unfrozen_at σ) (members e) →
             err = Error (ES5.duplicate_descriptions (Some n)) ∧
             enumValues σ' !! Some n = None).
Proof.
  intros Hg Hij Hi Hj Hxy.
  pose proof (ES5_initEnum_spec g n σ) as Hspec. rewrite Hg in Hspec.
  destruct (e_frozen e) eqn:Hfr.
  { eexists _, _. split; [done|]. split; [done|]. done. }
  cbv zeta in Hspec. destruct (enumValues σ !! Some n) as [a|] eqn:Hn.
  { eexists _, _. split; [done|]. split; [done|]. done. }
  destruct Hspec as [(σ' & Hrun & Hframe & Hloop)
                    |[(σ' & Hrun & _ & Hfail)|(σ' & _ & Hdescr & _)]].
  - exists TypeError, σ'. split; [done|]. destruct Hframe as (_ & _ & Hreg & _).
    split; [done|]. intros _ _ Hnd Hunfrozen.
    destruct (ES5_loop_unfrozen (own_EnumValues e) 0
                (with_enums (λ h, <[g := named n e]> h) σ) Hnd Hunfrozen) as (τ & Hτ).
    change (own_EnumValues (named n e)) with (own_EnumValues e) in Hloop. congruence.
  - eexists _, σ'. destruct Hfail as (_ & _ & Hreg & _).
    split; [done|]. split; [done|]. intros _ _ _ _. by rewrite Hreg.
  - exfalso. apply Hij. rewrite map_fmap, NoDup_alt in Hdescr.
    apply (Hdescr i j (description_of σ x)); rewrite list_lookup_fmap.
    + by rewrite Hi.
    + by rewrite Hj, Hxy.
Qed.

Lemma duplicate_descriptions_rejected_witness :
  (∃ err σ', ES5.initEnum 0 "Twins" (declared Bundle Twins) = (Throw err, σ') ∧
             enumValues σ' = enumValues (declared Bundle Twins) ∧
             (e_frozen (mkEnum None [("A", VEnumValue 0); ("B", VEnumValue 1)] false) = false →
              enumValues (declared Bundle Twins) !! Some "Twins" = None →
              NoDup (members (mkEnum None [("A", VEnumValue 0); ("B", VEnumValue 1)] false)) →
              Forall (unfrozen_at (declared Bundle Twins))
                (members (mkEnum None [("A", VEnumValue 0); ("B", VEnumValue 1)] false)) →
              err = Error (ES5.duplicate_descriptions (Some "Twins")) ∧
              enumValues σ' !! Some "Twins" = None)) ∧
  (ES5.initEnum 0 "Twins" (declared Bundle Twins)).1 =
    Throw (Error "All descriptions must be unique for a given enum type.Instead, there are multiples in Twins").
Proof.
  split; [|vm_compute; reflexivity].
  apply (duplicate_descriptions_rejected (declared Bundle Twins) 0 "Twins"
           (mkEnum None [("A", VEnumValue 0); ("B", VEnumValue 1)] false) 0 1 0 1).
  - vm_compute. reflexivity.
  - lia.
  - reflexivity.
  - reflexivity.
  - vm_compute. reflexivity.
Defined.

(** C2 as stated fails: the TypeScript source has no description check,
    so an enum with two members of one description is sealed and
    registered. *)
Lemma duplicate_descriptions_accepted :
  description_of (declared TypeScript Twins) 0 = Some "same" ∧
  description_of (declared TypeScript Twins) 1 = Some "same" ∧
  initEnum_of TypeScript 0 "Twins" (declared TypeScript Twins) =
    (Return tt, sealed TypeScript Twins "Twins") ∧
  registered (sealed TypeScript Twins "Twins") (Some "Twins") = Some [0; 1].
Proof. split_and!; vm_compute; reflexivity. Qed.

(** * More of the code *)

(** ** [Enum.unique] *)

Lemma indexOf_from_elem {A} `{EqDecision A} (l : list A) (x : A) (i : Z) :
  x ∈ l → ∃ k : nat, ES5.indexOf_from l x i = (i + Z.of_nat k)%Z ∧ l !! k = Some x.
Proof.
  revert i. induction l as [|v vs IH]; intros i Hx; [by apply not_elem_of_nil in Hx|].
  simpl. destruct (decide (v = x)) as [->|Hne].
  - exists 0. split; [lia|done].
  - apply elem_of_cons in Hx as [->|Hx]; [done|].
    destruct (IH (i + 1)%Z Hx) as (k & Hk & Hlk). exists (S k). split; [lia|done].
Qed.

Lemma filter_from_elem {A} (f : A → Z → bool) (i : Z) (l : list A) (x : A) :
  x ∈ ES5.filter_from f i l ↔ ∃ k : nat, l !! k = Some x ∧ f x (i + Z.of_nat k)%Z = true.
Proof.
  revert i. induction l as [|y l IH]; intros i; simpl.
  - split; [by intros ?%not_elem_of_nil|]. by intros (k & ? & _).
  - assert ((∃ k : nat, (y :: l) !! k = Some x ∧ f x (i + Z.of_nat k)%Z = true) ↔
            (y = x ∧ f y i = true) ∨
            (∃ k : nat, l !! k = Some x ∧ f x (i + 1 + Z.of_nat k)%Z = true)) as ->.
    { split.
      - intros ([|k] & Hk & Hf); simpl in Hk.
        + injection Hk as ->. left. by rewrite Z.add_0_r in Hf.
        + right. exists k. split; [done|].
          by replace (i + 1 + Z.of_nat k)%Z with (i + Z.of_nat (S k))%Z by lia.
      - intros [[-> Hf]|(k & Hk & Hf)].
        + exists 0. split; [done|]. by rewrite Z.add_0_r.
        + exists (S k). split; [done|].
          by replace (i + Z.of_nat (S k))%Z with (i + 1 + Z.of_nat k)%Z by lia. }
    destruct (f y i) eqn:Hfy.
    + rewrite elem_of_cons, IH. split.
      * intros [->|Hr]; [by left|by right].
      * intros [[-> _]|Hr]; [by left|by right].
    + rewrite IH. split; [by right|]. intros [[_ ?]|?]; [congruence|done].
Qed.

Lemma filter_from_sublist {A} (f : A → Z → bool) (i : Z) (l : list A) :
  ES5.filter_from f i l `sublist_of` l.
Proof.
  revert i. induction l as [|y l IH]; intros i; simpl; [constructor|].
  destruct (f y i); [apply sublist_skip|apply sublist_cons]; apply IH.
Qed.

Lemma filter_from_NoDup {A} (f : A → Z → bool) (i : Z) (l : list A) :
  (∀ (k1 k2 : nat) x, l !! k1 = Some x → l !! k2 = Some x →
     f x (i + Z.of_nat k1)%Z = true → f x (i + Z.of_nat k2)%Z = true → k1 = k2) →
  NoDup (ES5.filter_from f i l).
Proof.
  revert i. induction l as [|y l IH]; intros i Hone; simpl; [constructor|].
  assert (NoDup (ES5.filter_from f (i + 1)%Z l)) as Hrest.
  { apply IH. intros k1 k2 x H1 H2 Hf1 Hf2.
    assert (S k1 = S k2) as [= ->]; [|done].
    apply (Hone (S k1) (S k2) x); try done.
    - by replace (i + Z.of_nat (S k1))%Z with (i + 1 + Z.of_nat k1)%Z by lia.
    - by replace (i + Z.of_nat (S k2))%Z with (i + 1 + Z.of_nat k2)%Z by lia. }
  destruct (f y i) eqn:Hfy; [|done]. apply NoDup_cons. split; [|done].
  intros (k & Hk & Hf)%filter_from_elem.
  assert (0 = S k) as [=]. apply (Hone 0 (S k) y); try done.
  - by rewrite Z.add_0_r.
  - by replace (i + Z.of_nat (S k))%Z with (i + 1 + Z.of_nat k)%Z by lia.
Qed.

Lemma filter_from_all {A} (f : A → Z → bool) (i : Z) (l : list A) :
  (∀ (k : nat) x, l !! k = Some x → f x (i + Z.of_nat k)%Z = true) →
  ES5.filter_from f i l = l.
Proof.
  revert i. induction l as [|y l IH]; intros i Hall; simpl; [done|].
  pose proof (Hall 0 y eq_refl) as Hy. rewrite Z.add_0_r in Hy. rewrite Hy.
  f_equal. apply IH. intros k x Hk.
  replace (i + 1 + Z.of_nat k)%Z with (i + Z.of_nat (S k))%Z by lia. by apply Hall.
Qed.

Lemma filter_from_ext {A} (f g : A → Z → bool) (i : Z) (l : list A) :
  (∀ (k : nat) x, l !! k = Some x → f x (i + Z.of_nat k)%Z = g x (i + Z.of_nat k)%Z) →
  ES5.filter_from f i l = ES5.filter_from g i l.
Proof.
  revert i. induction l as [|y l IH]; intros i Hext; simpl; [done|].
  pose proof (Hext 0 y eq_refl) as Hy. rewrite Z.add_0_r in Hy. rewrite Hy.
  rewrite (IH (i + 1)%Z); [done|]. intros k x Hk.
  replace (i + 1 + Z.of_nat k)%Z with (i + Z.of_nat (S k))%Z by lia. by apply Hext.
Qed.

Lemma filter_from_snoc {A} (f : A → Z → bool) (i : Z) (l : list A) (x : A) :
  ES5.filter_from f i (l ++ [x]) =
  ES5.filter_from f i l ++ (if f x (i + Z.of_nat (length l))%Z then [x] else []).
Proof.
  revert i. induction l as [|y l IH]; intros i; simpl.
  - by rewrite Z.add_0_r.
  - rewrite IH.
    replace (i + 1 + Z.of_nat (length l))%Z with (i + Z.of_nat (S (length l)))%Z by lia.
    by destruct (f y i).
Qed.

Section unique_order.
Context {A : Type} `{EqDecision A}.
Implicit Types (l : list A) (x y : A).

Lemma unique_elem l x : x ∈ ES5.unique l ↔ x ∈ l.
Proof.
  unfold ES5.unique. rewrite filter_from_elem. split.
  - intros (k & Hk & _). by eapply list_elem_of_lookup_2.
  - intros Hx. destruct (indexOf_from_elem l x 0 Hx) as (k & Hk & Hlk).
    exists k. split; [done|]. by apply bool_decide_eq_true.
Qed.

Lemma indexOf_elem l x :
  x ∈ l → ∃ k : nat, ES5.indexOf l x = Z.of_nat k ∧ k < length l.
Proof.
  intros Hx. destruct (indexOf_from_elem l x 0 Hx) as (k & Hk & Hlk).
  exists k. split; [by rewrite Z.add_0_l in Hk|by eapply lookup_lt_Some].
Qed.

Lemma indexOf_app_l l l' x : x ∈ l → ES5.indexOf (l ++ l') x = ES5.indexOf l x.
Proof.
  intros Hx. destruct (indexOf_elem l x Hx) as (k & Hk & Hlt). rewrite Hk.
  apply indexOf_spec in Hk as [Hlk Hfirst]. apply indexOf_spec.
  split; [by apply lookup_app_l_Some|].
  intros j Hj. rewrite lookup_app_l by lia. by apply Hfirst.
Qed.

Lemma indexOf_snoc_new l x : x ∉ l → ES5.indexOf (l ++ [x]) x = Z.of_nat (length l).
Proof.
  intros Hx. apply indexOf_spec. split; [by apply list_lookup_middle|].
  intros j Hj. rewrite lookup_app_l by lia. intros Hjx. apply Hx.
  by eapply list_elem_of_lookup_2.
Qed.

(** [unique] follows its argument from left to right and keeps an element
    exactly when it has not occurred before. *)
Lemma unique_snoc l x :
  ES5.unique (l ++ [x]) = if decide (x ∈ l) then ES5.unique l else ES5.unique l ++ [x].
Proof.
  unfold ES5.unique. rewrite filter_from_snoc, Z.add_0_l.
  rewrite (filter_from_ext _ (λ value i, bool_decide (ES5.indexOf l value = i)) 0 l).
  - destruct (decide (x ∈ l)) as [Hx|Hx].
    + rewrite bool_decide_eq_false_2; [by rewrite app_nil_r|].
      rewrite (indexOf_app_l l [x] x Hx).
      destruct (indexOf_elem l x Hx) as (k & -> & Hlt). lia.
    + by rewrite bool_decide_eq_true_2 by by apply indexOf_snoc_new.
  - intros k y Hk. rewrite indexOf_app_l by by eapply list_elem_of_lookup_2. done.
Qed.

Lemma unique_order l (i j : nat) x y :
  i < j → ES5.unique l !! i = Some x → ES5.unique l !! j = Some y →
  (0 ≤ ES5.indexOf l x < ES5.indexOf l y)%Z.
Proof.
  revert i j x y. induction l as [|z l IH] using rev_ind; intros i j x y Hij; [done|].
  rewrite unique_snoc.
  assert (∀ i j x y, i < j → ES5.unique l !! i = Some x → ES5.unique l !! j = Some y →
            (0 ≤ ES5.indexOf (l ++ [z]) x < ES5.indexOf (l ++ [z]) y)%Z) as Hold.
  { intros i' j' x' y' Hij' Hi Hj.
    rewrite !indexOf_app_l
      by (apply unique_elem; by eapply list_elem_of_lookup_2).
    by eapply IH. }
  destruct (decide (z ∈ l)) as [Hz|Hz]; [by apply Hold|].
  intros Hi Hj.
  destruct (decide (j < length (ES5.unique l))) as [Hlt|Hge].
  - rewrite lookup_app_l in Hi, Hj by lia. exact (Hold i j x y Hij Hi Hj).
  - assert (j = length (ES5.unique l)) as ->.
    { apply lookup_lt_Some in Hj. rewrite length_app in Hj. simpl in Hj. lia. }
    rewrite list_lookup_middle in Hj by done. injection Hj as <-.
    rewrite lookup_app_l in Hi by lia.
    assert (x ∈ l) as Hx by (apply unique_elem; by eapply list_elem_of_lookup_2).
    rewrite (indexOf_app_l l [z] x Hx), (indexOf_snoc_new l z Hz).
    destruct (indexOf_elem l x Hx) as (k & -> & Hk). lia.
Qed.
End unique_order.

(** X1: [unique] returns the elements of its argument, each once, in the
    order of their first occurrences: the result has no duplicates, holds
    the same elements as the argument and is a subsequence of it; of two
    elements of the result, the one that comes first is the one whose
    first occurrence in the argument comes first; and the result is built
    from left to right, an element of the argument being appended exactly
    when it has not occurred before. *)
Theorem unique_first_occurrences {A : Type} `{EqDecision A} (l : list A) :
  NoDup (ES5.unique l) ∧
  (∀ x, x ∈ ES5.unique l ↔ x ∈ l) ∧
  ES5.unique l `sublist_of` l ∧
  (∀ (i j : nat) x y, i < j → ES5.unique l !! i = Some x → ES5.unique l !! j = Some y →
     (0 ≤ ES5.indexOf l x < ES5.indexOf l y)%Z) ∧
  ES5.unique (@nil A) = [] ∧
  (∀ x, ES5.unique (l ++ [x]) =
          if decide (x ∈ l) then ES5.unique l else ES5.unique l ++ [x]).
Proof.
  split_and!.
  - unfold ES5.unique. apply filter_from_NoDup. intros k1 k2 x _ _ H1 H2.
    apply bool_decide_eq_true in H1, H2. lia.
  - apply unique_elem.
  - apply filter_from_sublist.
  - apply unique_order.
  - done.
  - apply unique_snoc.
Qed.

(** X2: [unique] returns its argument unchanged exactly when the
    argument has no duplicates; in particular it is idempotent. *)
Theorem unique_fixed_points {A : Type} `{EqDecision A} (l : list A) :
  (ES5.unique l = l ↔ NoDup l) ∧ ES5.unique (ES5.unique l) = ES5.unique l.
Proof.
  assert (∀ l' : list A, NoDup l' → ES5.unique l' = l') as Hfix.
  { intros l' Hnd. unfold ES5.unique. apply filter_from_all. intros k x Hk.
    apply bool_decide_eq_true. rewrite Z.add_0_l. apply indexOf_spec.
    split; [done|]. intros j Hj Hjx. rewrite NoDup_alt in Hnd.
    specialize (Hnd _ _ _ Hjx Hk). lia. }
  split.
  - split; [|apply Hfix]. intros Heq. apply unique_length_NoDup. by rewrite Heq.
  - apply Hfix. apply filter_from_NoDup. intros k1 k2 x _ _ H1 H2.
    apply bool_decide_eq_true in H1, H2. lia.
Qed.

(** ** What a returned sealing guarantees about the members *)

Lemma persists_frozen_lookup σ τ x o :
  persists σ τ → objs σ !! x = Some o → value_frozen o = true → objs τ !! x = Some o.
Proof. intros (_ & _ & Hobjs & _). apply Hobjs. Qed.

(** After a returning call every member is a frozen object that carries
    the name of its property, in both variants. *)
Lemma initEnum_return_named v g n σ σ' e k kv :
  enums σ !! g = Some e →
  initEnum_of v g n σ = (Return tt, σ') →
  own_EnumValues e !! k = Some kv →
  ∃ o o', objs σ !! kv.2 = Some o ∧ objs σ' !! kv.2 = Some o' ∧ evolves o o' ∧
          value_frozen o' = true ∧ _propName o' = Some kv.1 ∧
          match v with
          | TypeScript => _ordinal o' = Some k
          | Bundle => _ordinal o' = _ordinal o
          end.
Proof.
  intros Hg Hrun Hk. destruct v; simpl in Hrun.
  - destruct (TS_initEnum_return _ _ _ _ _ Hg Hrun)
      as (_ & _ & _ & _ & _ & _ & _ & Hlen & Hframe & Hsealed).
    destruct (Hsealed _ _ Hk) as (o' & Ho' & Hfr & Hord & Hp).
    assert (is_Some (objs σ !! kv.2)) as [o Ho].
    { apply lookup_lt_is_Some. rewrite <- Hlen. by eapply lookup_lt_Some. }
    destruct (Hframe _ _ Ho) as (o'' & Ho'' & Hev).
    assert (o'' = o') as -> by congruence. by exists o, o'.
  - destruct (ES5_initEnum_return _ _ _ _ _ Hg Hrun)
      as (_ & _ & _ & _ & _ & _ & _ & _ & Hlen & Hframe & Hsealed).
    destruct (Hsealed _ _ Hk) as (o' & Ho' & Hfr & Hp).
    assert (is_Some (objs σ !! kv.2)) as [o Ho].
    { apply lookup_lt_is_Some. rewrite <- Hlen. by eapply lookup_lt_Some. }
    destruct (Hframe _ _ Ho) as (o'' & Ho'' & Hev & Hord).
    assert (o'' = o') as -> by congruence. by exists o, o'.
Qed.

Lemma initEnum_return_description v g n σ σ' e x :
  enums σ !! g = Some e →
  initEnum_of v g n σ = (Return tt, σ') →
  description_of σ' x = description_of σ x.
Proof.
  intros Hg Hrun.
  destruct (initEnum_return _ _ _ _ _ _ Hg Hrun) as (_ & _ & _ & _ & _ & Hlen & Hframe).
  apply description_of_frame; [done|]. intros r o Hr.
  destruct (Hframe _ _ Hr) as (o' & ? & _ & ? & _). eauto.
Qed.

(** X3: in the bundle, the members of an enum whose sealing has returned
    have pairwise different descriptions, and keep them whatever the
    client does afterwards. *)
Theorem bundle_sealed_descriptions_distinct (σ σ' : state) (g : loc) (n : string)
    (e : EnumObj) (ops : list op) (i j : nat) (x y : loc) :
  enums σ !! g = Some e →
  ES5.initEnum g n σ = (Return tt, σ') →
  members e !! i = Some x →
  members e !! j = Some y →
  i ≠ j →
  description_of (run_ops Bundle ops σ') x ≠ description_of (run_ops Bundle ops σ') y ∧
  description_of (run_ops Bundle ops σ') x = description_of σ x ∧
  description_of (run_ops Bundle ops σ') y = description_of σ y.
Proof.
  intros Hg Hrun Hi Hj Hij.
  assert (∀ k z, members e !! k = Some z →
            description_of (run_ops Bundle ops σ') z = description_of σ z) as Hkeep.
  { intros k z Hk. apply members_lookup in Hk as (kv & Hkv & <-).
    destruct (initEnum_return_named Bundle _ _ _ _ _ _ _ Hg Hrun Hkv)
      as (o & o' & Ho & Ho' & (_ & Hd & _) & Hfr & _).
    pose proof (persists_frozen_lookup _ _ _ _ (persists_run_ops Bundle ops σ') Ho' Hfr)
      as Hτ.
    unfold description_of. rewrite Hτ, Ho. simpl. by rewrite Hd. }
  rewrite (Hkeep _ _ Hi), (Hkeep _ _ Hj). split; [|done].
  destruct (ES5_initEnum_return _ _ _ _ _ Hg Hrun) as (_ & _ & Hnd & _).
  rewrite map_fmap, NoDup_alt in Hnd. intros Heq. apply Hij.
  apply (Hnd i j (description_of σ x)); rewrite list_lookup_fmap.
  - by rewrite Hi.
  - by rewrite Hj, Heq.
Qed.

Lemma bundle_sealed_descriptions_distinct_witness :
  description_of (run_ops Bundle [OpNew "Dog" "cat"] (sealed Bundle Mixed "Pets")) 0 ≠
    description_of (run_ops Bundle [OpNew "Dog" "cat"] (sealed Bundle Mixed "Pets")) 1 ∧
  description_of (run_ops Bundle [OpNew "Dog" "cat"] (sealed Bundle Mixed "Pets")) 0 =
    description_of (declared Bundle Mixed) 0 ∧
  description_of (run_ops Bundle [OpNew "Dog" "cat"] (sealed Bundle Mixed "Pets")) 1 =
    description_of (declared Bundle Mixed) 1.
Proof.
  apply (bundle_sealed_descriptions_distinct (declared Bundle Mixed)
           (sealed Bundle Mixed "Pets") 0 "Pets"
           (mkEnum None [("CAT", VEnumValue 0); ("DOG", VEnumValue 1)] false)
           [OpNew "Dog" "cat"] 0 1 0 1).
  - vm_compute. reflexivity.
  - vm_compute. reflexivity.
  - reflexivity.
  - reflexivity.
  - lia.
Defined.

(** X4: the members of an enum whose sealing has returned are pairwise
    different objects: one object assigned to two properties is refused
    (the second pass of the loop finds it frozen under another index or
    name, or, in the bundle, the description check finds its description
    twice). *)
Theorem sealed_members_distinct (v : variant) (σ σ' : state) (g : loc) (n : string)
    (e : EnumObj) :
  enums σ !! g = Some e →
  initEnum_of v g n σ = (Return tt, σ') →
  NoDup (members e).
Proof.
  intros Hg Hrun. apply NoDup_alt. intros i j x Hi Hj.
  destruct v.
  - apply members_lookup in Hi as (kvi & Hkvi & Hxi).
    apply members_lookup in Hj as (kvj & Hkvj & Hxj).
    destruct (initEnum_return_named TypeScript _ _ _ _ _ _ _ Hg Hrun Hkvi)
      as (_ & oi & _ & Hoi & _ & _ & _ & Hordi).
    destruct (initEnum_return_named TypeScript _ _ _ _ _ _ _ Hg Hrun Hkvj)
      as (_ & oj & _ & Hoj & _ & _ & _ & Hordj).
    rewrite Hxi in Hoi. rewrite Hxj in Hoj. congruence.
  - simpl in Hrun. destruct (ES5_initEnum_return _ _ _ _ _ Hg Hrun) as (_ & _ & Hnd & _).
    rewrite map_fmap, NoDup_alt in Hnd.
    apply (Hnd i j (description_of σ x)); rewrite list_lookup_fmap.
    + by rewrite Hi.
    + by rewrite Hj.
Qed.

Lemma sealed_members_distinct_witness :
  NoDup (members (mkEnum None [("A", VEnumValue 1); ("B", VEnumValue 0)] false)).
Proof.
  apply (sealed_members_distinct TypeScript (out_of_order TypeScript)
           (sealed_out_of_order TypeScript) 0 "Letters"
           (mkEnum None [("A", VEnumValue 1); ("B", VEnumValue 0)] false)).
  - vm_compute. reflexivity.
  - vm_compute. reflexivity.
Defined.

(** ** Sealing: more on its failures and on repeated calls *)

Lemma initEnum_throw_registry v g n σ err σ' :
  initEnum_of v g n σ = (Throw err, σ') →
  enumValues σ' = enumValues σ ∧ arrays σ' = arrays σ.
Proof.
  intros Hrun. destruct v; simpl in Hrun.
  - pose proof (TS_initEnum_spec g n σ) as Hspec.
    destruct (enums σ !! g) as [e|] eqn:Hg; [|rewrite Hspec in Hrun; by injection Hrun as _ <-].
    destruct (e_frozen e); [rewrite Hspec in Hrun; by injection Hrun as _ <-|].
    cbv zeta in Hspec.
    destruct (enumValues σ !! Some n) as [a|] eqn:Hreg;
      [rewrite Hspec in Hrun; by injection Hrun as _ <-|].
    destruct Hspec as [(τ & Hτ & Hframe & _)|(τ & Hτ & _)]; [|congruence].
    rewrite Hτ in Hrun. injection Hrun as _ <-. by destruct Hframe as (_ & ? & ? & _).
  - pose proof (ES5_initEnum_spec g n σ) as Hspec.
    destruct (enums σ !! g) as [e|] eqn:Hg; [|rewrite Hspec in Hrun; by injection Hrun as _ <-].
    destruct (e_frozen e); [rewrite Hspec in Hrun; by injection Hrun as _ <-|].
    cbv zeta in Hspec.
    destruct (enumValues σ !! Some n) as [a|] eqn:Hreg;
      [rewrite Hspec in Hrun; by injection Hrun as _ <-|].
    destruct Hspec as [(τ & Hτ & Hframe & _)|[(τ & Hτ & _ & Hfail)|(τ & Hτ & _)]];
      [| |congruence].
    + rewrite Hτ in Hrun. injection Hrun as _ <-. by destruct Hframe as (_ & ? & ? & _).
    + rewrite Hτ in Hrun. injection Hrun as _ <-. by destruct Hfail as (_ & ? & ? & _).
Qed.

(** X5: a member that is already frozen under another property name (or,
    in the TypeScript source, under another index) cannot be sealed into
    an enum: [initEnum] throws and leaves the registry as it was, and the
    exception is a [TypeError] when the enum object is extensible and the
    name is free. *)
Theorem foreign_member_blocks_sealing (v : variant) (σ : state) (g : loc) (n : string)
    (e : EnumObj) (k : nat) (p : string) (x : loc) (o : EnumValueObj) :
  enums σ !! g = Some e →
  own_EnumValues e !! k = Some (p, x) →
  objs σ !! x = Some o →
  value_frozen o = true →
  _propName o ≠ Some p ∨ (v = TypeScript ∧ _ordinal o ≠ Some k) →
  ∃ err σ', initEnum_of v g n σ = (Throw err, σ') ∧
            enumValues σ' = enumValues σ ∧ arrays σ' = arrays σ ∧
            (e_frozen e = false → enumValues σ !! Some n = None → err = TypeError).
Proof.
  intros Hg Hk Hx Hfr Hother.
  destruct (initEnum_of v g n σ) as [[[]|err] σ'] eqn:Hrun.
  - exfalso.
    destruct (initEnum_return_named _ _ _ _ _ _ _ _ Hg Hrun Hk)
      as (o0 & o' & Ho0 & Ho' & (_ & _ & Hsame) & _ & Hp & Hord).
    simpl in Ho0. assert (o0 = o) as -> by congruence.
    rewrite (Hsame Hfr) in Hp, Hord. simpl in Hp.
    destruct Hother as [Hne|[-> Hne]]; [done|]. by apply Hne.
  - exists err, σ'. destruct (initEnum_throw_registry _ _ _ _ _ _ Hrun) as [Hreg Harr].
    split; [done|]. split; [done|]. split; [done|]. intros Hefr Hn.
    destruct v; simpl in Hrun.
    + pose proof (TS_initEnum_spec g n σ) as Hspec. rewrite Hg, Hefr in Hspec.
      cbv zeta in Hspec. rewrite Hn in Hspec.
      destruct Hspec as [(τ & Hτ & _)|(τ & Hτ & _)]; congruence.
    + pose proof (ES5_initEnum_spec g n σ) as Hspec. rewrite Hg, Hefr in Hspec.
      cbv zeta in Hspec. rewrite Hn in Hspec.
      destruct Hspec as [(τ & Hτ & _)|[(τ & Hτ & _ & Hfail)|(τ & Hτ & _)]];
        [congruence| |congruence].
      exfalso. destruct Hfail as (_ & _ & _ & _ & _ & _ & Hframe & Hsealed).
      destruct (Hsealed _ _ Hk) as (o' & Ho' & _ & Hp). simpl in Ho', Hp.
      destruct (Hframe _ _ Hx) as (o'' & Ho'' & (_ & _ & Hsame) & _).
      assert (o'' = o') as -> by congruence. rewrite (Hsame Hfr) in Hp.
      destruct Hother as [Hne|[[=] _]]. done.
Qed.

Lemma foreign_member_blocks_sealing_witness :
  ∃ err σ', initEnum_of Bundle 1 "Winter" (borrowed_member Bundle) = (Throw err, σ') ∧
            enumValues σ' = enumValues (borrowed_member Bundle) ∧
            arrays σ' = arrays (borrowed_member Bundle) ∧
            (e_frozen (mkEnum None [("FROST", VEnumValue 3)] false) = false →
             enumValues (borrowed_member Bundle) !! Some "Winter" = None →
             err = TypeError).
Proof.
  apply (foreign_member_blocks_sealing Bundle (borrowed_member Bundle) 1 "Winter"
           (mkEnum None [("FROST", VEnumValue 3)] false) 0 "FROST" 3
           (mkEnumValue "SeasonValue" "Winter" (Some 3) (Some "WINTER") true)).
  - vm_compute. reflexivity.
  - reflexivity.
  - vm_compute. reflexivity.
  - reflexivity.
  - left. simpl. discriminate.
Defined.

(** The loop of the TypeScript source accepts members that are already
    sealed at their index under their name, and changes nothing. *)
Lemma TS_loop_sealed l i σ :
  (∀ k kv, l !! k = Some kv →
     ∃ o, objs σ !! kv.2 = Some o ∧ is_sealed_TS kv (i + k) o) →
  mapM_from TS.map_callback i l σ = (Return l.*2, σ).
Proof.
  revert i. induction l as [|[p r] l IH]; intros i Hall; [done|].
  destruct (Hall 0 (p, r) eq_refl) as (o & Ho & Hfr & Hord & Hp). simpl in Ho, Hp.
  rewrite Nat.add_0_r in Hord.
  cbn [mapM_from]. unfold bind at 1.
  rewrite TS_map_callback_eq, Ho, Hfr, decide_True by done.
  unfold bind at 1. rewrite IH; [done|].
  intros k kv Hk. replace (S i + k) with (i + S k) by lia. by apply Hall.
Qed.

(** X6: the TypeScript source lets an enum that is already sealed be
    sealed again under a second, free name: the call returns, both names
    then hold the members, and the enum reads the second one. *)
Theorem TS_reseal_under_second_name (σ σ' : state) (g : loc) (n n' : string) (e : EnumObj) :
  enums σ !! g = Some e →
  TS.initEnum g n σ = (Return tt, σ') →
  enumValues σ' !! Some n' = None →
  ∃ σ'', TS.initEnum g n' σ' = (Return tt, σ'') ∧
         registered σ'' (Some n) = Some (members e) ∧
         registered σ'' (Some n') = Some (members e) ∧
         e_name <$> enums σ'' !! g = Some (Some n').
Proof.
  intros Hg Hrun Hfree.
  destruct (TS_initEnum_return _ _ _ _ _ Hg Hrun) as (_ & _ & Heff).
  pose proof (sealing_effects_registered _ _ _ _ _ _ _ _ _ Heff) as Hregn.
  destruct Heff as (Hen & Harr & Hreg & _ & _ & _ & _ & Hsealed).
  assert (enums σ' !! g = Some (mkEnum (Some n) (e_props e) false)) as Hg'.
  { rewrite Hen. apply list_lookup_insert_eq. by eapply lookup_lt_Some. }
  pose proof (TS_initEnum_spec g n' σ') as Hspec. rewrite Hg' in Hspec.
  cbv zeta in Hspec. simpl in Hspec. rewrite Hfree in Hspec.
  destruct Hspec as [(τ & _ & _ & Hloop)|(τ & Hτ & Heff')].
  - exfalso. rewrite TS_loop_sealed in Hloop; [done|]. intros k kv Hk.
    destruct (Hsealed _ _ Hk) as (o' & Ho' & Hs). by exists o'.
  - exists τ. split; [done|].
    pose proof (sealing_effects_registered _ _ _ _ _ _ _ _ _ Heff') as Hregn'.
    destruct Heff' as (Hen' & Harr' & Hreg' & _).
    split_and!.
    + unfold registered in *. rewrite Hreg'.
      destruct (enumValues σ' !! Some n) as [a|] eqn:Ha; [|done].
      rewrite lookup_insert_ne by congruence. rewrite Ha. simpl in *. rewrite Harr'.
      destruct (arrays σ' !! a) as [arr|] eqn:Harra; [|done].
      by rewrite (lookup_app_l_Some _ _ _ _ Harra).
    + done.
    + rewrite Hen'. rewrite list_lookup_insert_eq by by eapply lookup_lt_Some. done.
Qed.

Lemma TS_reseal_under_second_name_witness :
  ∃ σ'', TS.initEnum 0 "Quarter" (sealed TypeScript Season "Season") = (Return tt, σ'') ∧
         registered σ'' (Some "Season") = Some [0; 1; 2; 3] ∧
         registered σ'' (Some "Quarter") = Some [0; 1; 2; 3] ∧
         e_name <$> enums σ'' !! 0 = Some (Some "Quarter").
Proof.
  apply (TS_reseal_under_second_name (declared TypeScript Season)
           (sealed TypeScript Season "Season") 0 "Season" "Quarter"
           (mkEnum None [("SPRING", VEnumValue 0); ("SUMMER", VEnumValue 1);
                         ("FALL", VEnumValue 2); ("WINTER", VEnumValue 3)] false)).
  - vm_compute. reflexivity.
  - vm_compute. reflexivity.
  - vm_compute. reflexivity.
Defined.

(** X7: [initEnum] writes the name before it tests it.  After a call
    that failed with the duplicate-name error, the receiver carries the
    name of the other enum: its [values] accessor returns a copy of the
    sequence registered under that name, and in the bundle its
    [toString] returns that name (unless an own property [toString] of
    the receiver answers the call). *)
Theorem failed_initEnum_adopts_name (v : variant) (σ : state) (g a : loc) (n : string)
    (e : EnumObj) (arr : ArrayObj) :
  enums σ !! g = Some e →
  e_frozen e = false →
  enumValues σ !! Some n = Some a →
  arrays σ !! a = Some arr →
  ∃ σ' b τ, initEnum_of v g n σ = (Throw (Error (duplicate_name n)), σ') ∧
            values g σ' = (Return b, τ) ∧
            arrays τ !! b = Some (mkArray (elems arr) false) ∧
            toString_of v g σ' =
              (Return (if bool_decide ("toString" ∈ (e_props e).*1) then OwnProperty
                       else Inherited (Some (match v with
                                             | Bundle => n
                                             | TypeScript => "[object Object]"
                                             end))), σ').
Proof.
  intros Hg Hfr Hn Ha.
  set (σ' := with_enums (λ h, <[g := named n e]> h) σ).
  assert (initEnum_of v g n σ = (Throw (Error (duplicate_name n)), σ')) as Hrun.
  { destruct v; simpl.
    - pose proof (TS_initEnum_spec g n σ) as Hspec. by rewrite Hg, Hfr, Hn in Hspec.
    - pose proof (ES5_initEnum_spec g n σ) as Hspec. by rewrite Hg, Hfr, Hn in Hspec. }
  assert (enums σ' !! g = Some (named n e)) as Hg'.
  { simpl. apply list_lookup_insert_eq. by eapply lookup_lt_Some. }
  exists σ', (length (arrays σ)), (with_arrays (λ h, h ++ [mkArray (elems arr) false]) σ').
  split; [done|]. split_and!.
  - rewrite values_eq, Hg'. simpl. by rewrite Hn, Ha.
  - simpl. by apply list_lookup_middle.
  - rewrite toString_of_eq, Hg'. simpl. by destruct v.
Qed.

Lemma failed_initEnum_adopts_name_witness :
  ∃ σ' b τ, initEnum_of Bundle 1 "Season" (second_enum Bundle) =
              (Throw (Error (duplicate_name "Season")), σ') ∧
            values 1 σ' = (Return b, τ) ∧
            arrays τ !! b = Some (mkArray (elems (mkArray [0; 1; 2; 3] false)) false) ∧
            toString_of Bundle 1 σ' = (Return (Inherited (Some "Season")), σ').
Proof.
  apply (failed_initEnum_adopts_name Bundle (second_enum Bundle) 1 0 "Season"
           (mkEnum None [] false) (mkArray [0; 1; 2; 3] false)).
  - vm_compute. reflexivity.
  - reflexivity.
  - vm_compute. reflexivity.
  - vm_compute. reflexivity.
Defined.

(** ** Round trips through the registry *)

Lemma Array_find_at (f : loc → bool) (l : list loc) (k : nat) (x : loc) :
  l !! k = Some x → f x = true →
  (∀ j y, j < k → l !! j = Some y → f y = false) →
  Array_find f l = Some x.
Proof.
  unfold Array_find. revert k. induction l as [|y l IH]; intros k Hk Hx Hbefore; [done|].
  simpl. destruct k as [|k]; simpl in Hk.
  - injection Hk as ->. by rewrite Hx.
  - rewrite (Hbefore 0 y) by (done || lia). apply (IH k); [done..|].
    intros j z Hj Hz. apply (Hbefore (S j)); [lia|done].
Qed.

Lemma values_after_sealing v g n σ σ' e :
  enums σ !! g = Some e →
  initEnum_of v g n σ = (Return tt, σ') →
  values g σ' =
    (Return (length (arrays σ')), with_arrays (λ h, h ++ [mkArray (members e) false]) σ').
Proof.
  intros Hg Hrun.
  assert (∀ fa fe R P,
            sealing_effects R P fa fe σ g n e σ' →
            values g σ' =
              (Return (length (arrays σ')),
               with_arrays (λ h, h ++ [mkArray (members e) false]) σ')) as Hvalues.
  { intros fa fe R P (Hen & Harr & Hreg & _). rewrite values_eq, Hen.
    rewrite list_lookup_insert_eq by by eapply lookup_lt_Some. simpl.
    rewrite Hreg, lookup_insert_eq, Harr. by rewrite list_lookup_middle. }
  destruct v; simpl in Hrun.
  - destruct (TS_initEnum_return _ _ _ _ _ Hg Hrun) as (_ & _ & Heff). by eapply Hvalues.
  - destruct (ES5_initEnum_return _ _ _ _ _ Hg Hrun) as (_ & _ & _ & Heff).
    by eapply Hvalues.
Qed.

(** X8: after a returning sealing, [byPropName] with the key of a
    property that holds a member returns that member, which reports the
    key as its property name (the keys of the object being distinct). *)
Theorem byPropName_round_trip (v : variant) (σ σ' : state) (g : loc) (n : string)
    (e : EnumObj) (k : nat) (p : string) (x : loc) :
  enums σ !! g = Some e →
  initEnum_of v g n σ = (Return tt, σ') →
  NoDup (own_EnumValues e).*1 →
  own_EnumValues e !! k = Some (p, x) →
  ∃ τ, byPropName g p σ' = (Return (Some x), τ) ∧
       propName_of τ x = Some p ∧
       description_of τ x = description_of σ x.
Proof.
  intros Hg Hrun Hnd Hk.
  exists (with_arrays (λ h, h ++ [mkArray (members e) false]) σ').
  assert (∀ j kv, own_EnumValues e !! j = Some kv → propName_of σ' kv.2 = Some kv.1)
    as Hnames.
  { intros j kv Hj.
    destruct (initEnum_return_named _ _ _ _ _ _ _ _ Hg Hrun Hj)
      as (_ & o' & _ & Ho' & _ & _ & Hp & _).
    unfold propName_of. by rewrite Ho'. }
  split_and!.
  - rewrite byPropName_eq, (values_after_sealing _ _ _ _ _ _ Hg Hrun). simpl.
    rewrite list_lookup_middle by done. simpl. f_equal. f_equal.
    apply (Array_find_at _ _ k).
    + unfold members. by rewrite list_lookup_fmap, Hk.
    + apply bool_decide_eq_true. apply (Hnames _ _ Hk).
    + intros j y Hjk Hj. apply members_lookup in Hj as (kv & Hkv & <-).
      apply bool_decide_eq_false.
      change (propName_of σ' kv.2 ≠ Some p). rewrite (Hnames _ _ Hkv). intros [= Heq].
      rewrite NoDup_alt in Hnd. assert (j = k); [|lia].
      apply (Hnd j k p); rewrite list_lookup_fmap.
      * by rewrite Hkv, <- Heq.
      * by rewrite Hk.
  - apply (Hnames _ _ Hk).
  - apply (initEnum_return_description _ _ _ _ _ _ _ Hg Hrun).
Qed.

Lemma byPropName_round_trip_witness :
  ∃ τ, byPropName 0 "SUMMER" (sealed TypeScript Season "Season") = (Return (Some 1), τ) ∧
       propName_of τ 1 = Some "SUMMER" ∧
       description_of τ 1 = description_of (declared TypeScript Season) 1.
Proof.
  apply (byPropName_round_trip TypeScript (declared TypeScript Season)
           (sealed TypeScript Season "Season") 0 "Season"
           (mkEnum None [("SPRING", VEnumValue 0); ("SUMMER", VEnumValue 1);
                         ("FALL", VEnumValue 2); ("WINTER", VEnumValue 3)] false)
           1 "SUMMER" 1).
  - vm_compute. reflexivity.
  - vm_compute. reflexivity.
  - apply (bool_decide_unpack _). vm_compute. exact I.
  - reflexivity.
Defined.

(** X9: after a returning sealing, [byDescription] with the description
    of a member returns that member.  The bundle guarantees this by its
    description check; in the TypeScript source it holds when the
    descriptions of the members differ. *)
Theorem byDescription_round_trip (v : variant) (σ σ' : state) (g : loc) (n : string)
    (e : EnumObj) (k : nat) (x : loc) (d : string) :
  enums σ !! g = Some e →
  initEnum_of v g n σ = (Return tt, σ') →
  (v = TypeScript → NoDup (map (description_of σ) (members e))) →
  members e !! k = Some x →
  description_of σ x = Some d →
  ∃ τ, byDescription g d σ' = (Return (Some x), τ) ∧
       description_of τ x = Some d.
Proof.
  intros Hg Hrun Hts Hk Hd.
  assert (NoDup (map (description_of σ) (members e))) as Hnd.
  { destruct v; [by apply Hts|]. simpl in Hrun.
    by destruct (ES5_initEnum_return _ _ _ _ _ Hg Hrun) as (_ & _ & ? & _). }
  exists (with_arrays (λ h, h ++ [mkArray (members e) false]) σ').
  pose proof (initEnum_return_description _ _ _ _ _ _ x Hg Hrun) as Hx.
  split.
  - rewrite byDescription_eq, (values_after_sealing _ _ _ _ _ _ Hg Hrun). simpl.
    rewrite list_lookup_middle by done. simpl. f_equal. f_equal.
    apply (Array_find_at _ _ k); [done| |].
    + apply bool_decide_eq_true.
      change (description_of σ' x = Some d). by rewrite Hx.
    + intros j y Hjk Hj. apply bool_decide_eq_false.
      change (description_of σ' y ≠ Some d).
      rewrite (initEnum_return_description _ _ _ _ _ _ y Hg Hrun). intros Hy.
      rewrite map_fmap, NoDup_alt in Hnd. assert (j = k); [|lia].
      apply (Hnd j k (Some d)); rewrite list_lookup_fmap.
      * by rewrite Hj, <- Hy.
      * by rewrite Hk, <- Hd.
  - change (description_of σ' x = Some d). by rewrite Hx.
Qed.

Lemma byDescription_round_trip_witness :
  ∃ τ, byDescription 0 "Fall" (sealed Bundle Season "Season") = (Return (Some 2), τ) ∧
       description_of τ 2 = Some "Fall".
Proof.
  apply (byDescription_round_trip Bundle (declared Bundle Season)
           (sealed Bundle Season "Season") 0 "Season"
           (mkEnum None [("SPRING", VEnumValue 0); ("SUMMER", VEnumValue 1);
                         ("FALL", VEnumValue 2); ("WINTER", VEnumValue 3)] false)
           2 2 "Fall").
  - vm_compute. reflexivity.
  - vm_compute. reflexivity.
  - discriminate.
  - reflexivity.
  - vm_compute. reflexivity.
Defined.

(** ** [EnumValue.prototype.toString] *)

(** X10: once its enum is sealed, a member prints as the name of its
    class, a dot and the key of its property, whatever the client does
    afterwards. *)
Theorem member_toString (v : variant) (σ σ' : state) (g : loc) (n : string) (e : EnumObj)
    (k : nat) (p : string) (x : loc) (c : cls) (ops : list op) :
  enums σ !! g = Some e →
  initEnum_of v g n σ = (Return tt, σ') →
  own_EnumValues e !! k = Some (p, x) →
  value_constructor <$> objs σ !! x = Some c →
  EnumValue_toString x (run_ops v ops σ') =
    (Return (c +:+ "." +:+ p), run_ops v ops σ').
Proof.
  intros Hg Hrun Hk Hc.
  destruct (initEnum_return_named _ _ _ _ _ _ _ _ Hg Hrun Hk)
    as (o & o' & Ho & Ho' & (Hcls & _) & Hfr & Hp & _).
  simpl in Ho, Ho', Hp. rewrite Ho in Hc. injection Hc as <-.
  pose proof (persists_frozen_lookup _ _ _ _ (persists_run_ops v ops σ') Ho' Hfr) as Hτ.
  unfold EnumValue_toString. unfold_M. by rewrite Hτ, Hcls, Hp.
Qed.

Lemma member_toString_witness :
  EnumValue_toString 0 (run_ops Bundle [OpToString 0] (sealed Bundle Season "Season")) =
    (Return ("SeasonValue" +:+ "." +:+ "SPRING"),
     run_ops Bundle [OpToString 0] (sealed Bundle Season "Season")).
Proof.
  apply (member_toString Bundle (declared Bundle Season) (sealed Bundle Season "Season")
           0 "Season"
           (mkEnum None [("SPRING", VEnumValue 0); ("SUMMER", VEnumValue 1);
                         ("FALL", VEnumValue 2); ("WINTER", VEnumValue 3)] false)
           0 "SPRING" 0 "SeasonValue" [OpToString 0]).
  - vm_compute. reflexivity.
  - vm_compute. reflexivity.
  - reflexivity.
  - vm_compute. reflexivity.
Defined.

(** X11: an instance that no sealing has reached yet prints as the name of
    its class followed by [.undefined]. *)
Theorem new_member_toString (v : variant) (σ σ' : state) (c : cls) (d : string) (r : loc) :
  EnumValue_new_of v c d σ = (Return r, σ') →
  EnumValue_toString r σ' = (Return (c +:+ "." +:+ "undefined"), σ').
Proof.
  destruct v; simpl; unfold TS.EnumValue_new, ES5.EnumValue_new, EnumValue_toString;
    unfold_M; (destruct (decide (c ∈ INITIALIZED σ)); [done|]);
    simpl; intros [= <- <-]; simpl; by rewrite list_lookup_middle.
Qed.

Lemma new_member_toString_witness :
  EnumValue_toString 4 (EnumValue_new_of TypeScript "Bird" "wren"
                          (declared TypeScript Season)).2 =
    (Return ("Bird" +:+ "." +:+ "undefined"),
     (EnumValue_new_of TypeScript "Bird" "wren" (declared TypeScript Season)).2).
Proof.
  apply (new_member_toString TypeScript (declared TypeScript Season)
           (EnumValue_new_of TypeScript "Bird" "wren" (declared TypeScript Season)).2
           "Bird" "wren" 4).
  vm_compute. reflexivity.
Defined.

(** ** What the operations leave alone *)

Lemma values_frame g σ :
  objs (values g σ).2 = objs σ ∧ enums (values g σ).2 = enums σ ∧
  enumValues (values g σ).2 = enumValues σ ∧
  INITIALIZED (values g σ).2 = INITIALIZED σ ∧ sizes (values g σ).2 = sizes σ ∧
  (arrays (values g σ).2 = arrays σ ∨
   ∃ l, arrays (values g σ).2 = arrays σ ++ [mkArray l false]).
Proof.
  rewrite values_eq. destruct (enums σ !! g) as [e|]; [|by split_and!; try left].
  destruct (enumValues σ !! e_name e) as [a|]; [|split_and!; try done; right; by eexists].
  destruct (arrays σ !! a); [split_and!; try done; right; by eexists|by split_and!; try left].
Qed.

(** X12: the three read operations change nothing that exists: members,
    enum objects, registry, markers and counters are as before, and the
    only new object is the one array the accessor creates. *)
Theorem lookups_read_only (σ τ : state) (g : loc) (p d : string) :
  τ ∈ [(values g σ).2; (byPropName g p σ).2; (byDescription g d σ).2] →
  objs τ = objs σ ∧ enums τ = enums σ ∧ enumValues τ = enumValues σ ∧
  INITIALIZED τ = INITIALIZED σ ∧ sizes τ = sizes σ ∧
  (arrays τ = arrays σ ∨ ∃ l, arrays τ = arrays σ ++ [mkArray l false]).
Proof.
  pose proof (values_frame g σ) as Hvalues.
  assert ((byPropName g p σ).2 = (values g σ).2) as Hp.
  { rewrite byPropName_eq. destruct (values g σ) as [[a|err] σ']; [|done].
    by destruct (arrays σ' !! a). }
  assert ((byDescription g d σ).2 = (values g σ).2) as Hd.
  { rewrite byDescription_eq. destruct (values g σ) as [[a|err] σ']; [|done].
    by destruct (arrays σ' !! a). }
  rewrite Hp, Hd. intros Hτ. repeat apply elem_of_cons in Hτ as [->|Hτ]; try done.
  by apply not_elem_of_nil in Hτ.
Qed.

Lemma lookups_read_only_witness :
  objs (byDescription 0 "Fall" (sealed Bundle Season "Season")).2 =
    objs (sealed Bundle Season "Season") ∧
  enums (byDescription 0 "Fall" (sealed Bundle Season "Season")).2 =
    enums (sealed Bundle Season "Season") ∧
  enumValues (byDescription 0 "Fall" (sealed Bundle Season "Season")).2 =
    enumValues (sealed Bundle Season "Season") ∧
  INITIALIZED (byDescription 0 "Fall" (sealed Bundle Season "Season")).2 =
    INITIALIZED (sealed Bundle Season "Season") ∧
  sizes (byDescription 0 "Fall" (sealed Bundle Season "Season")).2 =
    sizes (sealed Bundle Season "Season") ∧
  (arrays (byDescription 0 "Fall" (sealed Bundle Season "Season")).2 =
     arrays (sealed Bundle Season "Season") ∨
   ∃ l, arrays (byDescription 0 "Fall" (sealed Bundle Season "Season")).2 =
          arrays (sealed Bundle Season "Season") ++ [mkArray l false]).
Proof.
  apply (lookups_read_only (sealed Bundle Season "Season")
           (byDescription 0 "Fall" (sealed Bundle Season "Season")).2 0 "SUMMER" "Fall").
  apply list_elem_of_In. right. right. left. reflexivity.
Defined.

Lemma initEnum_objs_frame v g n σ r o :
  objs σ !! r = Some o →
  length (objs (initEnum_of v g n σ).2) = length (objs σ) ∧
  ∃ o', objs (initEnum_of v g n σ).2 !! r = Some o' ∧ evolves o o' ∧
        (v = Bundle → _ordinal o' = _ordinal o).
Proof.
  intros Hr.
  assert (∀ τ, objs τ = objs σ →
            length (objs τ) = length (objs σ) ∧
            ∃ o', objs τ !! r = Some o' ∧ evolves o o' ∧
                  (v = Bundle → _ordinal o' = _ordinal o)) as Hsame.
  { intros τ ->. split; [done|]. exists o. split; [done|]. split; [apply evolves_refl|done]. }
  destruct v; simpl.
  - pose proof (TS_initEnum_spec g n σ) as Hspec.
    destruct (enums σ !! g) as [e|] eqn:Hg; [|rewrite Hspec; by apply Hsame].
    destruct (e_frozen e); [rewrite Hspec; by apply Hsame|]. cbv zeta in Hspec.
    destruct (enumValues σ !! Some n); [rewrite Hspec; by apply Hsame|].
    destruct Hspec as [(τ & -> & Hframe & _)|(τ & -> & _ & _ & _ & Hsealed)]; simpl.
    + destruct Hframe as (_ & _ & _ & _ & _ & Hlen & Hobjs). split; [done|].
      destruct (Hobjs _ _ Hr) as (o' & ? & ?). by exists o'.
    + destruct Hsealed as (_ & _ & Hlen & Hobjs & _). split; [done|].
      destruct (Hobjs _ _ Hr) as (o' & ? & ?). by exists o'.
  - pose proof (ES5_initEnum_spec g n σ) as Hspec.
    destruct (enums σ !! g) as [e|] eqn:Hg; [|rewrite Hspec; by apply Hsame].
    destruct (e_frozen e); [rewrite Hspec; by apply Hsame|]. cbv zeta in Hspec.
    destruct (enumValues σ !! Some n); [rewrite Hspec; by apply Hsame|].
    destruct Hspec as [(τ & -> & Hframe & _)
                      |[(τ & -> & _ & _ & _ & _ & Hsealed)
                       |(τ & -> & _ & _ & _ & _ & Hsealed)]]; simpl.
    + destruct Hframe as (_ & _ & _ & _ & _ & Hlen & Hobjs). split; [done|].
      destruct (Hobjs _ _ Hr) as (o' & ? & ? & ?). by exists o'.
    + destruct Hsealed as (_ & _ & Hlen & Hobjs & _). split; [done|].
      destruct (Hobjs _ _ Hr) as (o' & ? & ? & ?). by exists o'.
    + destruct Hsealed as (_ & _ & Hlen & Hobjs & _). split; [done|].
      destruct (Hobjs _ _ Hr) as (o' & ? & ? & ?). by exists o'.
Qed.

(** X13: whether it returns or throws, [initEnum] neither creates nor
    removes an instance, never changes the class or the description of
    one, and leaves every frozen instance exactly as it is; in the bundle
    it never changes an ordinal either. *)
Theorem sealing_keeps_identity (v : variant) (σ : state) (g r : loc) (n : string)
    (o : EnumValueObj) :
  objs σ !! r = Some o →
  length (objs (initEnum_of v g n σ).2) = length (objs σ) ∧
  ∃ o', objs (initEnum_of v g n σ).2 !! r = Some o' ∧
        value_constructor o' = value_constructor o ∧
        _description o' = _description o ∧
        (value_frozen o = true → o' = o) ∧
        (v = Bundle → _ordinal o' = _ordinal o).
Proof.
  intros Hr. destruct (initEnum_objs_frame v g n σ r o Hr) as (Hlen & o' & Ho' & Hev & Hord).
  split; [done|]. exists o'. destruct Hev as (? & ? & ?). by split_and!.
Qed.

Lemma sealing_keeps_identity_witness :
  length (objs (initEnum_of Bundle 0 "Twins" (declared Bundle Twins)).2) =
    length (objs (declared Bundle Twins)) ∧
  ∃ o', objs (initEnum_of Bundle 0 "Twins" (declared Bundle Twins)).2 !! 1 = Some o' ∧
        value_constructor o' =
          value_constructor (mkEnumValue "TwinValue" "same" (Some 1) None false) ∧
        _description o' = _description (mkEnumValue "TwinValue" "same" (Some 1) None false) ∧
        (value_frozen (mkEnumValue "TwinValue" "same" (Some 1) None false) = true →
         o' = mkEnumValue "TwinValue" "same" (Some 1) None false) ∧
        (Bundle = Bundle →
         _ordinal o' = _ordinal (mkEnumValue "TwinValue" "same" (Some 1) None false)).
Proof.
  apply (sealing_keeps_identity Bundle (declared Bundle Twins) 0 1 "Twins"
           (mkEnumValue "TwinValue" "same" (Some 1) None false)).
  vm_compute. reflexivity.
Defined.

(** ** Stores a client can reach *)

Lemma initEnum_return_registry v g n σ σ' :
  initEnum_of v g n σ = (Return tt, σ') →
  enumValues σ' = <[Some n := length (arrays σ)]> (enumValues σ) ∧
  ∃ arr, arrays σ' = arrays σ ++ [arr].
Proof.
  intros Hrun. destruct v; simpl in Hrun.
  - pose proof (TS_initEnum_spec g n σ) as Hspec.
    destruct (enums σ !! g) as [e|] eqn:Hg; [|congruence].
    destruct (TS_initEnum_return _ _ _ _ _ Hg Hrun) as (_ & _ & _ & ? & ? & _).
    split; [done|]. by eexists.
  - pose proof (ES5_initEnum_spec g n σ) as Hspec.
    destruct (enums σ !! g) as [e|] eqn:Hg; [|congruence].
    destruct (ES5_initEnum_return _ _ _ _ _ Hg Hrun) as (_ & _ & _ & _ & ? & ? & _).
    split; [done|]. by eexists.
Qed.

Lemma registry_live_same σ τ :
  enumValues τ = enumValues σ → length (arrays σ) ≤ length (arrays τ) →
  registry_live σ → registry_live τ.
Proof.
  intros Hreg Hlen [Hnone Hlive]. unfold registry_live. rewrite Hreg. split; [done|].
  intros k a Hk. specialize (Hlive k a Hk). lia.
Qed.

Lemma registry_live_eq σ τ :
  enumValues τ = enumValues σ → arrays τ = arrays σ →
  registry_live σ → registry_live τ.
Proof. intros Hreg Harr. apply registry_live_same; [done|by rewrite Harr]. Qed.

Lemma registry_live_values g σ : registry_live σ → registry_live (values g σ).2.
Proof.
  intros Hlive. destruct (values_frame g σ) as (_ & _ & Hreg & _ & _ & Harr).
  apply (registry_live_same σ); [done| |done].
  destruct Harr as [->|[l ->]]; [done|]. rewrite length_app. lia.
Qed.

Lemma registry_live_run_op v o σ : registry_live σ → registry_live (run_op v o σ).
Proof.
  intros Hlive. destruct o; simpl.
  - by apply (registry_live_eq σ).
  - apply (registry_live_eq σ); [| |done];
      destruct v; simpl; unfold TS.EnumValue_new, ES5.EnumValue_new; unfold_M;
      by destruct (decide (c ∈ INITIALIZED σ)).
  - destruct (initEnum_of v g name σ) as [[[]|err] σ'] eqn:Hrun; simpl.
    + destruct (initEnum_return_registry _ _ _ _ _ Hrun) as (Hreg & arr & Harr).
      destruct Hlive as [Hnone Hlive]. unfold registry_live. rewrite Hreg, Harr, length_app.
      split; [by rewrite lookup_insert_ne|].
      intros k a. rewrite lookup_insert. case_decide.
      * intros [= <-]. simpl. lia.
      * intros Hk. specialize (Hlive k a Hk). lia.
    + destruct (initEnum_throw_registry _ _ _ _ _ _ Hrun) as [Hreg Harr].
      by apply (registry_live_eq σ).
  - by apply registry_live_values.
  - assert ((byPropName g propName σ).2 = (values g σ).2) as ->.
    { rewrite byPropName_eq. destruct (values g σ) as [[a|err] σ']; [|done].
      by destruct (arrays σ' !! a). }
    by apply registry_live_values.
  - assert ((byDescription g description σ).2 = (values g σ).2) as ->.
    { rewrite byDescription_eq. destruct (values g σ) as [[a|err] σ']; [|done].
      by destruct (arrays σ' !! a). }
    by apply registry_live_values.
  - by rewrite toString_of_store.
  - apply (registry_live_eq σ); [| |done]; unfold assign_prop; unfold_M;
      (destruct (enums σ !! g) as [e|]; [|done]); by destruct (e_frozen e).
  - apply (registry_live_eq σ); [| |done]; unfold delete_prop; unfold_M;
      (destruct (enums σ !! g) as [e|]; [|done]);
      (destruct (decide (k = "name"));
         [destruct (e_name e); [|done]|case_bool_decide; [|done]]);
      by destruct (e_frozen e).
  - apply (registry_live_eq σ); [| |done]; unfold assign_field; unfold_M;
      (destruct (objs σ !! r) as [ob|]; [|done]); by destruct (value_frozen ob).
  - apply (registry_live_same σ); [| |done]; unfold array_mutate; unfold_M;
      (destruct (arrays σ !! a) as [arr|]; [|done]);
      (destruct (array_frozen arr); [done|]); simpl; [done|by rewrite length_insert].
Qed.

Lemma registry_live_run_ops v ops σ : registry_live σ → registry_live (run_ops v ops σ).
Proof.
  unfold run_ops. revert σ. induction ops as [|o ops IH]; intros σ Hlive; simpl; [done|].
  by apply IH, registry_live_run_op.
Qed.

(** X14: in every store a client can reach from the initial one, the
    [values] accessor and both lookups return on every enum object: the
    registry only ever holds live arrays.  The array returned is new and
    holds the sequence registered under the name of the enum object, and
    nothing when there is none; on an enum object that has no name yet it
    is empty, because nothing is ever registered under [undefined]. *)
Theorem reads_never_throw (v : variant) (ops : list op) (g : loc) (e : EnumObj)
    (p d : string) :
  enums (run_ops v ops empty_state) !! g = Some e →
  ∃ a l τ rp rd,
    values g (run_ops v ops empty_state) = (Return a, τ) ∧
    arrays (run_ops v ops empty_state) !! a = None ∧
    arrays τ !! a = Some (mkArray l false) ∧
    l = default [] (registered (run_ops v ops empty_state) (e_name e)) ∧
    (e_name e = None → l = []) ∧
    byPropName g p (run_ops v ops empty_state) = (Return rp, τ) ∧
    byDescription g d (run_ops v ops empty_state) = (Return rd, τ).
Proof.
  intros Hg.
  assert (registry_live (run_ops v ops empty_state)) as [Hnone Hlive].
  { apply registry_live_run_ops. split; [done|]. intros k a Hk. by simpl in Hk. }
  set (σ := run_ops v ops empty_state) in *.
  assert (∃ l, values g σ =
                 (Return (length (arrays σ)), with_arrays (λ h, h ++ [mkArray l false]) σ) ∧
               l = default [] (registered σ (e_name e)) ∧
               (e_name e = None → l = [])) as (l & Hvalues & Hreg & Hl).
  { rewrite values_eq, Hg. unfold registered.
    destruct (enumValues σ !! e_name e) as [a|] eqn:Hreg; simpl.
    - destruct (lookup_lt_is_Some_2 _ _ (Hlive _ _ Hreg)) as [arr ->].
      exists (elems arr). split; [done|]. split; [done|]. intros Hname. congruence.
    - by exists []. }
  eexists (length (arrays σ)), l, (with_arrays (λ h, h ++ [mkArray l false]) σ), _, _.
  rewrite byPropName_eq, byDescription_eq, Hvalues. simpl.
  rewrite list_lookup_middle by done. split_and!; try done.
  by apply lookup_ge_None_2.
Qed.

Lemma reads_never_throw_witness :
  ∃ a l τ rp rd,
    values 0 (run_ops Bundle [OpEnumNew; OpNew "V" "x";
                              OpAssignProp 0 (okey "A" I) (VEnumValue 0);
                              OpInitEnum 0 "E"] empty_state) = (Return a, τ) ∧
    arrays (run_ops Bundle [OpEnumNew; OpNew "V" "x";
                            OpAssignProp 0 (okey "A" I) (VEnumValue 0);
                            OpInitEnum 0 "E"] empty_state) !! a = None ∧
    arrays τ !! a = Some (mkArray l false) ∧
    l = default []
          (registered (run_ops Bundle [OpEnumNew; OpNew "V" "x";
                                       OpAssignProp 0 (okey "A" I) (VEnumValue 0);
                                       OpInitEnum 0 "E"] empty_state)
             (e_name (mkEnum (Some "E") [("A", VEnumValue 0)] true))) ∧
    (e_name (mkEnum (Some "E") [("A", VEnumValue 0)] true) = None → l = []) ∧
    byPropName 0 "A"
      (run_ops Bundle [OpEnumNew; OpNew "V" "x";
                       OpAssignProp 0 (okey "A" I) (VEnumValue 0);
                       OpInitEnum 0 "E"] empty_state) = (Return rp, τ) ∧
    byDescription 0 "x"
      (run_ops Bundle [OpEnumNew; OpNew "V" "x";
                       OpAssignProp 0 (okey "A" I) (VEnumValue 0);
                       OpInitEnum 0 "E"] empty_state) = (Return rd, τ).
Proof.
  apply (reads_never_throw Bundle
           [OpEnumNew; OpNew "V" "x"; OpAssignProp 0 (okey "A" I) (VEnumValue 0);
            OpInitEnum 0 "E"] 0
           (mkEnum (Some "E") [("A", VEnumValue 0)] true) "A" "x").
  vm_compute. reflexivity.
Defined.

(** The store reached by these four steps does hold a registered enum:
    the sequence under its name has one member, and the lookups find
    it. *)
Lemma reads_on_a_registered_enum :
  registered (run_ops Bundle [OpEnumNew; OpNew "V" "x";
                              OpAssignProp 0 (okey "A" I) (VEnumValue 0);
                              OpInitEnum 0 "E"] empty_state) (Some "E") = Some [0] ∧
  (byPropName 0 "A"
     (run_ops Bundle [OpEnumNew; OpNew "V" "x";
                      OpAssignProp 0 (okey "A" I) (VEnumValue 0);
                      OpInitEnum 0 "E"] empty_state)).1 = Return (Some 0) ∧
  (byDescription 0 "x"
     (run_ops Bundle [OpEnumNew; OpNew "V" "x";
                      OpAssignProp 0 (okey "A" I) (VEnumValue 0);
                      OpInitEnum 0 "E"] empty_state)).1 = Return (Some 0).
Proof. split_and!; vm_compute; reflexivity. Qed.

(** X15: nothing a client does undoes a sealing: a registry entry is never
    replaced or removed, a marked class stays marked, and a frozen
    member, enum object or array is never changed. *)
Theorem sealing_is_permanent (v : variant) (ops : list op) (σ : state) :
  (∀ k a, enumValues σ !! k = Some a → enumValues (run_ops v ops σ) !! k = Some a) ∧
  (∀ c, c ∈ INITIALIZED σ → c ∈ INITIALIZED (run_ops v ops σ)) ∧
  (∀ r o, objs σ !! r = Some o → value_frozen o = true →
          objs (run_ops v ops σ) !! r = Some o) ∧
  (∀ g e, enums σ !! g = Some e → e_frozen e = true →
          enums (run_ops v ops σ) !! g = Some e) ∧
  (∀ a arr, arrays σ !! a = Some arr → array_frozen arr = true →
            arrays (run_ops v ops σ) !! a = Some arr).
Proof.
  destruct (persists_run_ops v ops σ) as (Hini & Hreg & Hobjs & Hen & Harr & _).
  split_and!; done.
Qed.

(** ** From the declaration of an enum to its sealing *)

Lemma props_set_fresh k x ps : k ∉ ps.*1 → props_set k x ps = ps ++ [(k, x)].
Proof.
  induction ps as [|[k' x'] ps IH]; simpl; intros Hk; [done|].
  apply not_elem_of_cons in Hk as [Hne Hk]. rewrite decide_False by done. by rewrite IH.
Qed.

Lemma assign_prop_fresh g k x σ e :
  enums σ !! g = Some e → e_frozen e = false → key_text k ∉ (e_props e).*1 →
  assign_prop g k x σ =
    (Return tt,
     with_enums (λ h, <[g := mkEnum (e_name e) (e_props e ++ [(key_text k, x)]) false]> h) σ).
Proof.
  intros Hg Hfr Hk. unfold assign_prop. unfold_M.
  by rewrite Hg, Hfr, props_set_fresh.
Qed.

Lemma EnumValue_new_fresh v k c d σ :
  c ∉ INITIALIZED σ →
  EnumValue_new_of v c d σ =
    (Return (length (objs σ)),
     mkState (objs σ ++ constructed v (sizes σ) [(k, c, d)]) (enums σ) (arrays σ)
       (enumValues σ) (INITIALIZED σ) (counted v (sizes σ) [(k, c, d)])).
Proof.
  intros Hc. destruct v; simpl; unfold TS.EnumValue_new, ES5.EnumValue_new; unfold_M;
    by rewrite decide_False.
Qed.

Lemma declared_from_nil v σ g e :
  enums σ !! g = Some e → e_frozen e = false → declared_from v σ g e [] = σ.
Proof.
  intros Hg Hfr. unfold declared_from. simpl. rewrite !app_nil_r.
  rewrite list_insert_id; [by destruct σ|]. rewrite Hg. f_equal.
  destruct e; simpl in *. by subst.
Qed.

Lemma constructed_length v sz ms : length (constructed v sz ms) = length ms.
Proof.
  revert sz. induction ms as [|[[k c] d] ms IH]; intros sz; [done|].
  destruct v; simpl; by rewrite IH.
Qed.

(** [declare], in closed form: on an extensible enum object, with classes
    that are still open and keys that are new and distinct, it returns
    after appending the constructed instances and the properties. *)
Lemma declare_eq v g ms σ e :
  enums σ !! g = Some e →
  e_frozen e = false →
  Forall (λ c, c ∉ INITIALIZED σ) (classes_of ms) →
  NoDup (keys_of ms) →
  (∀ k, k ∈ keys_of ms → k ∉ (e_props e).*1) →
  declare v g ms σ = (Return tt, declared_from v σ g e ms).
Proof.
  revert σ e. induction ms as [|[[k c] d] ms IH]; intros σ e Hg Hfr Hopen Hnd Hnew.
  { by rewrite declared_from_nil. }
  change (keys_of ((k, c, d) :: ms)) with (key_text k :: keys_of ms) in *.
  apply Forall_cons in Hopen as [Hc Hopen]. apply NoDup_cons in Hnd as [Hk Hnd].
  cbn [declare]. unfold bind at 1. rewrite (EnumValue_new_fresh v k c d σ Hc).
  set (σ1 := mkState (objs σ ++ constructed v (sizes σ) [(k, c, d)]) (enums σ) (arrays σ)
               (enumValues σ) (INITIALIZED σ) (counted v (sizes σ) [(k, c, d)])).
  unfold bind at 1.
  rewrite (assign_prop_fresh g k (VEnumValue (length (objs σ))) σ1 e Hg Hfr)
    by (apply Hnew; by left).
  set (e2 := mkEnum (e_name e)
               (e_props e ++ [(key_text k, VEnumValue (length (objs σ)))]) false).
  set (σ2 := with_enums (λ h, <[g := e2]> h) σ1).
  rewrite (IH σ2 e2).
  - f_equal. unfold declared_from.
    subst σ2 σ1 e2. cbn [objs enums arrays enumValues INITIALIZED sizes with_enums
                           e_name e_props].
    rewrite list_insert_insert_eq, length_app, constructed_length, <- !(assoc_L (++)).
    destruct v; simpl; by rewrite Nat.add_1_r.
  - simpl. apply list_lookup_insert_eq. by eapply lookup_lt_Some.
  - done.
  - done.
  - done.
  - intros k' Hk'. simpl. rewrite fmap_app. simpl. intros [Hin|Hin]%elem_of_app.
    + apply (Hnew k'); [by right|done].
    + apply list_elem_of_singleton in Hin as ->. by apply Hk.
Qed.

Lemma declared_in_eq v σ ms :
  Forall (λ c, c ∉ INITIALIZED σ) (classes_of ms) →
  NoDup (keys_of ms) →
  declared_in v σ ms =
    mkState (objs σ ++ constructed v (sizes σ) ms)
      (enums σ ++ [mkEnum None (keyed (length (objs σ)) ms) false])
      (arrays σ) (enumValues σ) (INITIALIZED σ) (counted v (sizes σ) ms).
Proof.
  intros Hopen Hnd. unfold declared_in. unfold bind at 1. unfold Enum_new at 1.
  rewrite (declare_eq v (length (enums σ)) ms _ (mkEnum None [] false)); try done.
  - unfold declared_from. simpl. by rewrite insert_snoc.
  - simpl. by apply list_lookup_middle.
  - intros k _. simpl. apply not_elem_of_nil.
Qed.

Lemma own_EnumValues_keyed_fst r ms :
  (omap instanceof_EnumValue (keyed r ms)).*1 = keys_of ms.
Proof.
  revert r. induction ms as [|[[k c] d] ms IH]; intros r; [done|].
  unfold keys_of in *. simpl. by rewrite IH.
Qed.

Lemma own_EnumValues_keyed_snd r ms :
  (omap instanceof_EnumValue (keyed r ms)).*2 = seq r (length ms).
Proof.
  revert r. induction ms as [|[[k c] d] ms IH]; intros r; [done|].
  simpl. by rewrite IH.
Qed.

Lemma constructed_descriptions v sz ms :
  _description <$> constructed v sz ms = descriptions_of ms.
Proof.
  revert sz. induction ms as [|[[k c] d] ms IH]; intros sz; [done|].
  unfold descriptions_of in *. destruct v; simpl; by rewrite IH.
Qed.

Lemma constructed_classes v sz ms :
  value_constructor <$> constructed v sz ms = classes_of ms.
Proof.
  revert sz. induction ms as [|[[k c] d] ms IH]; intros sz; [done|].
  unfold classes_of in *. destruct v; simpl; by rewrite IH.
Qed.

Lemma constructed_unfrozen v sz ms :
  Forall (λ o, value_frozen o = false) (constructed v sz ms).
Proof.
  revert sz. induction ms as [|[[k c] d] ms IH]; intros sz; [constructor|].
  destruct v; simpl; by constructor.
Qed.

(** In the bundle, the ordinal of the [i]-th constructed instance is the
    counter of its class plus the number of earlier instances of that
    class. *)
Lemma constructed_ordinal sz ms i o :
  constructed Bundle sz ms !! i = Some o →
  _ordinal o =
    Some (default 0 (sz !! value_constructor o) +
          length (filter (λ c, c = value_constructor o) (take i (classes_of ms)))).
Proof.
  revert sz i. induction ms as [|[[k c] d] ms IH]; intros sz i; [done|].
  destruct i as [|i].
  - intros [= <-]. simpl. by rewrite Nat.add_0_r.
  - intros Hi. cbn [constructed lookup list_lookup] in Hi. rewrite (IH _ _ Hi).
    change (classes_of ((k, c, d) :: ms)) with (c :: classes_of ms). cbn [take].
    rewrite filter_cons. destruct (decide (c = value_constructor o)) as [->|Hne].
    + rewrite lookup_insert_eq. cbn [default from_option length]. unfold id.
      apply (f_equal Some). lia.
    + by rewrite lookup_insert_ne.
Qed.

Lemma map_lookup_seq {A B} (f : A → B) (L0 L : list A) :
  map (λ i, f <$> (L0 ++ L) !! i) (seq (length L0) (length L)) = map Some (f <$> L).
Proof.
  rewrite !map_fmap. apply list_eq. intros i. rewrite !list_lookup_fmap.
  destruct (L !! i) as [x|] eqn:Hi.
  - rewrite lookup_seq_lt by by eapply lookup_lt_Some. simpl.
    by rewrite lookup_app_r, Nat.add_comm, Nat.add_sub, Hi by lia.
  - rewrite lookup_seq_ge; [done|]. by apply lookup_ge_None.
Qed.

Lemma TS_initEnum_returns g n σ e :
  enums σ !! g = Some e →
  e_frozen e = false →
  enumValues σ !! Some n = None →
  NoDup (members e) →
  Forall (unfrozen_at σ) (members e) →
  ∃ σ', TS.initEnum g n σ = (Return tt, σ').
Proof.
  intros Hg Hfr Hn Hnd Hunfrozen.
  pose proof (TS_initEnum_spec g n σ) as Hspec. rewrite Hg, Hfr in Hspec.
  cbv zeta in Hspec. rewrite Hn in Hspec.
  destruct Hspec as [(σ' & _ & _ & Hloop)|(σ' & Hrun & _)]; [|by exists σ'].
  destruct (TS_loop_unfrozen (own_EnumValues e) 0
              (with_enums (λ h, <[g := named n e]> h) σ) Hnd Hunfrozen) as (τ & Hτ).
  change (own_EnumValues (named n e)) with (own_EnumValues e) in Hloop. congruence.
Qed.

(** The declared store, as the sealing finds it. *)
Lemma declared_in_ready v σ ms :
  Forall (λ c, c ∉ INITIALIZED σ) (classes_of ms) →
  NoDup (keys_of ms) →
  enums (declared_in v σ ms) !! length (enums σ) =
    Some (mkEnum None (keyed (length (objs σ)) ms) false) ∧
  enumValues (declared_in v σ ms) = enumValues σ ∧
  objs (declared_in v σ ms) = objs σ ++ constructed v (sizes σ) ms ∧
  members (mkEnum None (keyed (length (objs σ)) ms) false) =
    seq (length (objs σ)) (length ms) ∧
  (own_EnumValues (mkEnum None (keyed (length (objs σ)) ms) false)).*1 = keys_of ms ∧
  Forall (unfrozen_at (declared_in v σ ms)) (seq (length (objs σ)) (length ms)) ∧
  map (description_of (declared_in v σ ms)) (seq (length (objs σ)) (length ms)) =
    map Some (descriptions_of ms).
Proof.
  intros Hopen Hnd. rewrite (declared_in_eq v σ ms Hopen Hnd). cbn [enums enumValues objs].
  split_and!; try done.
  - by apply list_lookup_middle.
  - apply own_EnumValues_keyed_snd.
  - apply own_EnumValues_keyed_fst.
  - apply Forall_forall. intros i [Hlo Hi]%elem_of_seq.
    rewrite <- (constructed_length v (sizes σ) ms) in Hi.
    assert (i - length (objs σ) < length (constructed v (sizes σ) ms)) as Hlt by lia.
    destruct (lookup_lt_is_Some_2 _ _ Hlt) as [o Ho]. exists o. cbn [objs].
    split; [by rewrite lookup_app_r by lia|].
    pose proof (constructed_unfrozen v (sizes σ) ms) as Hall. rewrite Forall_forall in Hall.
    apply Hall. by eapply list_elem_of_lookup_2.
  - unfold description_of. cbn [objs].
    rewrite <- (constructed_length v (sizes σ) ms), map_lookup_seq.
    by rewrite constructed_descriptions.
Qed.

Lemma declared_in_initEnum_returns v σ ms n :
  Forall (λ c, c ∉ INITIALIZED σ) (classes_of ms) →
  enumValues σ !! Some n = None →
  NoDup (keys_of ms) →
  (v = Bundle → NoDup (descriptions_of ms)) →
  ∃ σ', initEnum_of v (length (enums σ)) n (declared_in v σ ms) = (Return tt, σ').
Proof.
  intros Hopen Hfree Hkeys Hdescr.
  destruct (declared_in_ready v σ ms Hopen Hkeys)
    as (Hg & Hreg & _ & Hmem & _ & Hunfrozen & Hd).
  assert (enumValues (declared_in v σ ms) !! Some n = None) as Hn by by rewrite Hreg.
  destruct v.
  - apply (TS_initEnum_returns _ n _ _ Hg); try done; rewrite Hmem; [apply NoDup_seq|done].
  - apply (initEnum_returns Bundle _ n _ _ Hg); try done; rewrite Hmem;
      [apply NoDup_seq|done|].
    rewrite Hd, map_fmap. apply (NoDup_fmap_2 Some). by apply Hdescr.
Qed.

(** X16: an enum declared the usual way can be sealed, in any store.  A
    new enum object is given newly constructed members under distinct
    keys; the classes of the members are still open in the store, the
    name is not registered in it and, for the bundle, the descriptions
    are distinct.  Then [initEnum] returns; the registry holds the new
    members under the name in the order of their declaration, beside the
    entries it held before, and every new member is frozen, reports its
    key as property name and keeps its description.  The keys are of the type [prop_key]: those for which
    the order of assignment is the order of enumeration. *)
Theorem declared_enum_seals (v : variant) (σ : state) (ms : list (prop_key * cls * string))
    (n : string) :
  Forall (λ c, c ∉ INITIALIZED σ) (classes_of ms) →
  enumValues σ !! Some n = None →
  NoDup (keys_of ms) →
  (v = Bundle → NoDup (descriptions_of ms)) →
  ∃ σ', initEnum_of v (length (enums σ)) n (declared_in v σ ms) = (Return tt, σ') ∧
        registered σ' (Some n) = Some (seq (length (objs σ)) (length ms)) ∧
        Forall (frozen_at σ') (seq (length (objs σ)) (length ms)) ∧
        map (propName_of σ') (seq (length (objs σ)) (length ms)) = map Some (keys_of ms) ∧
        map (description_of σ') (seq (length (objs σ)) (length ms)) =
          map Some (descriptions_of ms) ∧
        (∀ k a, enumValues σ !! k = Some a → enumValues σ' !! k = Some a).
Proof.
  intros Hopen Hfree Hkeys Hdescr.
  destruct (declared_in_initEnum_returns v σ ms n Hopen Hfree Hkeys Hdescr) as (σ' & Hrun).
  destruct (declared_in_ready v σ ms Hopen Hkeys) as (Hg & Hreg & Hobjs & Hmem & Hfst & _ & Hd).
  destruct (initEnum_return _ _ _ _ _ _ Hg Hrun) as (_ & _ & Hregd & Hfrozen & _).
  rewrite Hmem in Hregd, Hfrozen. exists σ'. split_and!; try done.
  - rewrite <- Hmem, <- Hfst. apply map_propNames. intros k kv Hk.
    destruct (initEnum_return_named _ _ _ _ _ _ _ _ Hg Hrun Hk)
      as (_ & o' & _ & Ho' & _ & _ & Hp & _).
    unfold propName_of. by rewrite Ho'.
  - rewrite <- Hd. apply map_ext. intros x.
    apply (initEnum_return_description _ _ _ _ _ _ x Hg Hrun).
  - intros k a Hk. destruct (initEnum_return_registry _ _ _ _ _ Hrun) as (-> & _).
    rewrite Hreg, lookup_insert_ne; [done|]. intros <-. congruence.
Qed.

Lemma declared_enum_seals_witness :
  ∃ σ', initEnum_of Bundle (length (enums (sealed Bundle Season "Season"))) "Pets"
          (declared_in Bundle (sealed Bundle Season "Season") Mixed) = (Return tt, σ') ∧
        registered σ' (Some "Pets") =
          Some (seq (length (objs (sealed Bundle Season "Season"))) (length Mixed)) ∧
        Forall (frozen_at σ')
          (seq (length (objs (sealed Bundle Season "Season"))) (length Mixed)) ∧
        map (propName_of σ')
          (seq (length (objs (sealed Bundle Season "Season"))) (length Mixed)) =
          map Some (keys_of Mixed) ∧
        map (description_of σ')
          (seq (length (objs (sealed Bundle Season "Season"))) (length Mixed)) =
          map Some (descriptions_of Mixed) ∧
        (∀ k a, enumValues (sealed Bundle Season "Season") !! k = Some a →
                enumValues σ' !! k = Some a).
Proof.
  apply (declared_enum_seals Bundle (sealed Bundle Season "Season") Mixed "Pets").
  - apply (bool_decide_unpack _). vm_compute. exact I.
  - vm_compute. reflexivity.
  - apply (bool_decide_unpack _). vm_compute. exact I.
  - intros _. apply (bool_decide_unpack _). vm_compute. exact I.
Defined.

Lemma filter_Forall_id {A} (P : A → Prop) `{∀ x, Decision (P x)} (l : list A) :
  Forall P l → filter P l = l.
Proof.
  induction 1 as [|x l Hx Hl IH]; [done|]. rewrite filter_cons, decide_True by done.
  by rewrite IH.
Qed.

(** X17: in the bundle, the ordinal that a member of an enum declared and
    sealed as in X16 carries is the value that the instance counter of
    its class had in the store before the declaration, plus the number of
    members of its own class declared before it.  When all members are of
    one class of which the store holds no earlier instance, the ordinals
    are the positions [0 .. n-1]. *)
Theorem bundle_ordinals_count_class (σ : state) (ms : list (prop_key * cls * string))
    (n : string) :
  Forall (λ c, c ∉ INITIALIZED σ) (classes_of ms) →
  enumValues σ !! Some n = None →
  NoDup (keys_of ms) →
  NoDup (descriptions_of ms) →
  ∃ σ', initEnum_of Bundle (length (enums σ)) n (declared_in Bundle σ ms) = (Return tt, σ') ∧
        (∀ i c, classes_of ms !! i = Some c →
           ordinal_of σ' (length (objs σ) + i) =
             Some (default 0 (sizes σ !! c) +
                   length (filter (λ c', c' = c) (take i (classes_of ms))))) ∧
        (∀ c, Forall (λ c', c' = c) (classes_of ms) →
           default 0 (sizes σ !! c) = 0 →
           map (ordinal_of σ') (seq (length (objs σ)) (length ms)) =
             map Some (seq 0 (length ms))).
Proof.
  intros Hopen Hfree Hkeys Hdescr.
  destruct (declared_in_initEnum_returns Bundle σ ms n Hopen Hfree Hkeys (λ _, Hdescr))
    as (σ' & Hrun).
  destruct (declared_in_ready Bundle σ ms Hopen Hkeys) as (Hg & _ & Hobjs & Hmem & _ & _ & _).
  exists σ'. split; [done|].
  assert (∀ i c, classes_of ms !! i = Some c →
            ordinal_of σ' (length (objs σ) + i) =
              Some (default 0 (sizes σ !! c) +
                    length (filter (λ c', c' = c) (take i (classes_of ms))))) as Hord.
  { intros i c Hi.
    assert (i < length ms) as Hlt.
    { apply lookup_lt_Some in Hi. unfold classes_of in Hi. by rewrite !length_fmap in Hi. }
    assert (members (mkEnum None (keyed (length (objs σ)) ms) false) !! i =
              Some (length (objs σ) + i)) as Hmi
      by (rewrite Hmem; by apply lookup_seq_lt).
    apply members_lookup in Hmi as (kv & Hkv & Hi2).
    destruct (initEnum_return_named Bundle _ _ _ _ _ _ _ Hg Hrun Hkv)
      as (o & o' & Ho & Ho' & _ & _ & _ & Hsame).
    rewrite Hi2 in Ho, Ho'. unfold ordinal_of. rewrite Ho'. simpl. rewrite Hsame.
    rewrite Hobjs, lookup_app_r, Nat.add_comm, Nat.add_sub in Ho by lia.
    rewrite (constructed_ordinal _ _ _ _ Ho).
    assert (value_constructor o = c) as ->; [|done].
    rewrite <- (constructed_classes Bundle (sizes σ) ms), list_lookup_fmap, Ho in Hi.
    by injection Hi. }
  split; [done|]. intros c Hall Hzero.
  pose proof (map_positions (ordinal_of σ') (seq (length (objs σ)) (length ms)) 0) as Hpos.
  rewrite length_seq in Hpos. apply Hpos. intros k x [-> Hk]%lookup_seq. simpl.
  assert (classes_of ms !! k = Some c) as Hkc.
  { assert (k < length (classes_of ms)) as Hlt
      by (unfold classes_of; by rewrite !length_fmap).
    destruct (lookup_lt_is_Some_2 _ _ Hlt) as [c' Hc']. rewrite Hc'. f_equal.
    rewrite Forall_forall in Hall. apply Hall. by eapply list_elem_of_lookup_2. }
  rewrite (Hord _ _ Hkc), Hzero. f_equal.
  assert (length (classes_of ms) = length ms) as Hlen
    by (unfold classes_of; by rewrite !length_fmap).
  assert (filter (λ c', c' = c) (take k (classes_of ms)) = take k (classes_of ms)) as ->.
  { apply filter_Forall_id. by apply Forall_take. }
  rewrite length_take. lia.
Qed.

Lemma bundle_ordinals_count_class_witness :
  (∃ σ', initEnum_of Bundle (length (enums empty_state)) "Season"
           (declared_in Bundle empty_state Season) = (Return tt, σ') ∧
         (∀ i c, classes_of Season !! i = Some c →
            ordinal_of σ' (length (objs empty_state) + i) =
              Some (default 0 (sizes empty_state !! c) +
                    length (filter (λ c', c' = c) (take i (classes_of Season))))) ∧
         (∀ c, Forall (λ c', c' = c) (classes_of Season) →
            default 0 (sizes empty_state !! c) = 0 →
            map (ordinal_of σ') (seq (length (objs empty_state)) (length Season)) =
              map Some (seq 0 (length Season)))) ∧
  (∃ σ', initEnum_of Bundle (length (enums (declared Bundle Mixed))) "Pets"
           (declared_in Bundle (declared Bundle Mixed) Mixed) = (Return tt, σ') ∧
         (∀ i c, classes_of Mixed !! i = Some c →
            ordinal_of σ' (length (objs (declared Bundle Mixed)) + i) =
              Some (default 0 (sizes (declared Bundle Mixed) !! c) +
                    length (filter (λ c', c' = c) (take i (classes_of Mixed))))) ∧
         (∀ c, Forall (λ c', c' = c) (classes_of Mixed) →
            default 0 (sizes (declared Bundle Mixed) !! c) = 0 →
            map (ordinal_of σ') (seq (length (objs (declared Bundle Mixed))) (length Mixed)) =
              map Some (seq 0 (length Mixed)))).
Proof.
  split.
  - apply (bundle_ordinals_count_class empty_state Season "Season").
    + apply (bool_decide_unpack _). vm_compute. exact I.
    + vm_compute. reflexivity.
    + apply (bool_decide_unpack _). vm_compute. exact I.
    + apply (bool_decide_unpack _). vm_compute. exact I.
  - apply (bundle_ordinals_count_class (declared Bundle Mixed) Mixed "Pets").
    + apply (bool_decide_unpack _). vm_compute. exact I.
    + vm_compute. reflexivity.
    + apply (bool_decide_unpack _). vm_compute. exact I.
    + apply (bool_decide_unpack _). vm_compute. exact I.
Defined.

(** On the two stores above: the four members of [Season], all of one
    class and declared in the initial store, carry the ordinals 0 to 3;
    the members of a second [Mixed] enum, declared after one [Cat] and
    one [Dog] exist, both carry the ordinal 1. *)
Lemma bundle_ordinals_examples :
  map (ordinal_of (sealed Bundle Season "Season")) [0; 1; 2; 3] =
    [Some 0; Some 1; Some 2; Some 3] ∧
  map (ordinal_of (initEnum_of Bundle 1 "Pets"
                     (declared_in Bundle (declared Bundle Mixed) Mixed)).2) [2; 3] =
    [Some 1; Some 1].
Proof. split; vm_compute; reflexivity. Qed.

(** ** An enum without members *)

(** X18: an enum object none of whose properties holds an [EnumValue]
    can be sealed: [initEnum] returns, registers an empty sequence under
    the name, marks no class and touches no instance; the accessor then
    returns an empty array. *)
Theorem empty_enum_seals (v : variant) (σ : state) (g : loc) (n : string) (e : EnumObj) :
  enums σ !! g = Some e →
  e_frozen e = false →
  enumValues σ !! Some n = None →
  members e = [] →
  ∃ σ' a τ, initEnum_of v g n σ = (Return tt, σ') ∧
            registered σ' (Some n) = Some [] ∧
            INITIALIZED σ' = INITIALIZED σ ∧
            objs σ' = objs σ ∧
            values g σ' = (Return a, τ) ∧
            arrays τ !! a = Some (mkArray [] false).
Proof.
  intros Hg Hfr Hn Hmem.
  assert (own_EnumValues e = []) as Hown by by apply fmap_nil_inv in Hmem.
  assert (g < length (enums σ)) as Hlt by by eapply lookup_lt_Some.
  assert (∃ σ', initEnum_of v g n σ = (Return tt, σ') ∧ objs σ' = objs σ)
    as (σ' & Hrun & Hobjs).
  { unfold own_EnumValues in Hown. simpl in Hown.
    destruct v; simpl;
      unfold TS.initEnum, TS.Enum_initEnum, TS.enumValuesFromObject,
        ES5.initEnum, ES5.Enum_initEnum, ES5.enumValuesFromObject,
        assign_name, Object_freeze_array, Object_freeze_enum, enumValues_set,
        own_EnumValues;
      unfold_M; rewrite Hg, Hfr;
      repeat first
        [ rewrite list_lookup_insert_eq by (rewrite ?length_insert; done)
        | rewrite list_lookup_middle by done
        | rewrite Hn
        | rewrite Hown
        | progress simpl ];
      by eexists. }
  destruct (initEnum_return _ _ _ _ _ _ Hg Hrun) as (_ & _ & Hreg & _ & Hini & _).
  rewrite Hmem in Hreg. rewrite (first_constructor_nil _ _ Hmem) in Hini.
  pose proof (values_after_sealing _ _ _ _ _ _ Hg Hrun) as Hvalues. rewrite Hmem in Hvalues.
  eexists σ', _, _. split_and!; try done. simpl. by apply list_lookup_middle.
Qed.

Lemma empty_enum_seals_witness :
  ∃ σ' a τ, initEnum_of TypeScript 1 "Nothing" (second_enum TypeScript) = (Return tt, σ') ∧
            registered σ' (Some "Nothing") = Some [] ∧
            INITIALIZED σ' = INITIALIZED (second_enum TypeScript) ∧
            objs σ' = objs (second_enum TypeScript) ∧
            values 1 σ' = (Return a, τ) ∧
            arrays τ !! a = Some (mkArray [] false).
Proof.
  apply (empty_enum_seals TypeScript (second_enum TypeScript) 1 "Nothing"
           (mkEnum None [] false)).
  - vm_compute. reflexivity.
  - reflexivity.
  - vm_compute. reflexivity.
  - reflexivity.
Defined.

(** ** A sealed enum of the bundle is closed for good *)

(** X19: in the bundle, once [initEnum] has returned on an enum object,
    every later call of [initEnum] on that object throws a [TypeError],
    under any name, registered or free, and changes nothing: the object
    is frozen and the call starts by assigning its name. *)
Theorem bundle_sealed_once (σ σ' : state) (g : loc) (n n' : string) (ops : list op) :
  ES5.initEnum g n σ = (Return tt, σ') →
  initEnum_of Bundle g n' (run_ops Bundle ops σ') =
    (Throw TypeError, run_ops Bundle ops σ').
Proof.
  intros Hrun. pose proof (ES5_initEnum_spec g n σ) as Hspec.
  destruct (enums σ !! g) as [e|] eqn:Hg; [|congruence]. clear Hspec.
  destruct (ES5_initEnum_return _ _ _ _ _ Hg Hrun) as (_ & _ & _ & Hen & _).
  assert (enums σ' !! g = Some (mkEnum (Some n) (e_props e) true)) as Hg'.
  { rewrite Hen. apply list_lookup_insert_eq. by eapply lookup_lt_Some. }
  destruct (persists_run_ops Bundle ops σ') as (_ & _ & _ & Henums & _).
  apply Henums in Hg'; [|done].
  pose proof (ES5_initEnum_spec g n' (run_ops Bundle ops σ')) as Hspec.
  by rewrite Hg' in Hspec.
Qed.

Lemma bundle_sealed_once_witness :
  initEnum_of Bundle 0 "Quarter" (run_ops Bundle [OpValues 0] (sealed Bundle Season "Season")) =
    (Throw TypeError, run_ops Bundle [OpValues 0] (sealed Bundle Season "Season")).
Proof.
  apply (bundle_sealed_once (declared Bundle Season) (sealed Bundle Season "Season")
           0 "Season" "Quarter" [OpValues 0]).
  vm_compute. reflexivity.
Defined.

(** ** The instance counters of the bundle *)

Lemma initEnum_sizes_length v g n σ :
  sizes (initEnum_of v g n σ).2 = sizes σ ∧
  length (objs (initEnum_of v g n σ).2) = length (objs σ).
Proof.
  destruct v; simpl.
  - pose proof (TS_initEnum_spec g n σ) as Hspec.
    destruct (enums σ !! g) as [e|] eqn:Hg; [|by rewrite Hspec].
    destruct (e_frozen e) eqn:Hfr; [by rewrite Hspec|]. cbv zeta in Hspec.
    destruct (enumValues σ !! Some n) as [a|] eqn:Hreg; [by rewrite Hspec|].
    destruct Hspec as [(σ' & -> & Hframe & _)|(σ' & -> & Heff)]; simpl.
    + by destruct Hframe as (_ & _ & _ & _ & ? & ? & _).
    + by destruct Heff as (_ & _ & _ & _ & ? & ? & _).
  - pose proof (ES5_initEnum_spec g n σ) as Hspec.
    destruct (enums σ !! g) as [e|] eqn:Hg; [|by rewrite Hspec].
    destruct (e_frozen e) eqn:Hfr; [by rewrite Hspec|]. cbv zeta in Hspec.
    destruct (enumValues σ !! Some n) as [a|] eqn:Hreg; [by rewrite Hspec|].
    destruct Hspec as [(σ' & -> & Hframe & _)
                      |[(σ' & -> & _ & Hfail)|(σ' & -> & _ & Heff)]]; simpl.
    + by destruct Hframe as (_ & _ & _ & _ & ? & ? & _).
    + by destruct Hfail as (_ & _ & _ & _ & ? & ? & _).
    + by destruct Heff as (_ & _ & _ & _ & ? & ? & _).
Qed.

(** No call of [initEnum] changes the class of an instance. *)
Lemma initEnum_classes v g n σ :
  value_constructor <$> objs (initEnum_of v g n σ).2 = value_constructor <$> objs σ.
Proof.
  destruct (initEnum_sizes_length v g n σ) as [_ Hlen].
  apply list_eq. intros r. rewrite !list_lookup_fmap.
  destruct (objs σ !! r) as [o|] eqn:Hr.
  - destruct (initEnum_objs_frame v g n σ r o Hr) as (_ & o' & -> & (Hc & _) & _).
    simpl. by rewrite Hc.
  - apply lookup_ge_None in Hr. rewrite <- Hlen in Hr. apply lookup_ge_None in Hr.
    by rewrite Hr.
Qed.

Lemma instances_of_same σ τ c :
  value_constructor <$> objs τ = value_constructor <$> objs σ →
  instances_of τ c = instances_of σ c.
Proof. unfold instances_of. by intros ->. Qed.

Lemma counters_same σ τ :
  value_constructor <$> objs τ = value_constructor <$> objs σ →
  sizes τ = sizes σ →
  (∀ c, default 0 (sizes σ !! c) = instances_of σ c) →
  ∀ c, default 0 (sizes τ !! c) = instances_of τ c.
Proof. intros Hobjs Hsizes Hσ c. by rewrite Hsizes, (instances_of_same σ τ c Hobjs). Qed.

(** What the bundle's constructor does to the counters and to the number
    of instances. *)
Lemma ES5_EnumValue_new_counts c d σ :
  c ∉ INITIALIZED σ →
  ∃ σ', ES5.EnumValue_new c d σ = (Return (length (objs σ)), σ') ∧
        ordinal_of σ' (length (objs σ)) = Some (default 0 (sizes σ !! c)) ∧
        sizes σ' = <[c := S (default 0 (sizes σ !! c))]> (sizes σ) ∧
        (∀ c', instances_of σ' c' =
                 if decide (c' = c) then S (instances_of σ c') else instances_of σ c').
Proof.
  intros Hc. unfold ES5.EnumValue_new. unfold_M. rewrite decide_False by done. simpl.
  eexists. split; [done|]. split; [|split; [done|]].
  - unfold ordinal_of. simpl. by rewrite list_lookup_middle.
  - intros c'. unfold instances_of. simpl.
    rewrite fmap_app, filter_app, length_app. simpl. rewrite filter_cons, filter_nil.
    destruct (decide (c = c')) as [->|Hne].
    + rewrite decide_True by done. simpl. lia.
    + rewrite decide_False by done. simpl. lia.
Qed.

Lemma counters_exact_run_op o σ :
  (∀ c, default 0 (sizes σ !! c) = instances_of σ c) →
  ∀ c, default 0 (sizes (run_op Bundle o σ) !! c) = instances_of (run_op Bundle o σ) c.
Proof.
  intros Hσ.
  destruct o as [|c d|g0 n|g0|g0 p|g0 d|g0|g0 k x|g0 k|r w|a l]; simpl.
  - exact Hσ.
  - destruct (decide (c ∈ INITIALIZED σ)) as [Hc|Hc].
    + unfold ES5.EnumValue_new. unfold_M. by rewrite decide_True.
    + destruct (ES5_EnumValue_new_counts c d σ Hc) as (σ' & -> & _ & Hsz & Hinst). simpl.
      intros c'. rewrite Hsz, Hinst. destruct (decide (c' = c)) as [->|Hne].
      * rewrite lookup_insert_eq. simpl. by rewrite Hσ.
      * by rewrite lookup_insert_ne.
  - apply (counters_same σ); [|by apply (initEnum_sizes_length Bundle)|done].
    apply (initEnum_classes Bundle).
  - destruct (values_frame g0 σ) as (Hobjs & _ & _ & _ & Hsz & _).
    apply (counters_same σ); [by rewrite Hobjs|done..].
  - assert ((byPropName g0 p σ).2 = (values g0 σ).2) as ->.
    { rewrite byPropName_eq. destruct (values g0 σ) as [[a|err] σ']; [|done].
      by destruct (arrays σ' !! a). }
    destruct (values_frame g0 σ) as (Hobjs & _ & _ & _ & Hsz & _).
    apply (counters_same σ); [by rewrite Hobjs|done..].
  - assert ((byDescription g0 d σ).2 = (values g0 σ).2) as ->.
    { rewrite byDescription_eq. destruct (values g0 σ) as [[a|err] σ']; [|done].
      by destruct (arrays σ' !! a). }
    destruct (values_frame g0 σ) as (Hobjs & _ & _ & _ & Hsz & _).
    apply (counters_same σ); [by rewrite Hobjs|done..].
  - by rewrite toString_of_store.
  - apply (counters_same σ); [| |done]; unfold assign_prop; unfold_M;
      (destruct (enums σ !! g0) as [e|]; [|done]); by destruct (e_frozen e).
  - apply (counters_same σ); [| |done]; unfold delete_prop; unfold_M;
      (destruct (enums σ !! g0) as [e|]; [|done]);
      (destruct (decide (k = "name"));
         [destruct (e_name e); [|done]|case_bool_decide; [|done]]);
      by destruct (e_frozen e).
  - apply (counters_same σ); [| |done]; unfold assign_field; unfold_M;
      (destruct (objs σ !! r) as [ob|] eqn:Hr; [|done]);
      (destruct (value_frozen ob); [done|]); simpl; [|done].
    rewrite list_fmap_insert.
    apply list_insert_id. rewrite list_lookup_fmap, Hr. by destruct w.
  - apply (counters_same σ); [| |done]; unfold array_mutate; unfold_M;
      (destruct (arrays σ !! a) as [arr|]; [|done]); by destruct (array_frozen arr).
Qed.

Lemma counters_exact_run_ops ops σ :
  (∀ c, default 0 (sizes σ !! c) = instances_of σ c) →
  ∀ c, default 0 (sizes (run_ops Bundle ops σ) !! c) = instances_of (run_ops Bundle ops σ) c.
Proof.
  unfold run_ops. revert σ. induction ops as [|o ops IH]; intros σ Hσ; simpl; [done|].
  by apply IH, counters_exact_run_op.
Qed.

(** X22: in every store that a client of the bundle can reach from the
    initial one, the counter that [EnumValue.sizes] holds for a class is
    the number of instances of that class in the store (a class without
    an entry has none).  So the constructor, which returns for every
    class that is not marked, gives the new instance as ordinal the
    number of instances of its class that existed before, whether or not
    they are members of an enum, and that number then goes up by one. *)
Theorem bundle_counter_counts_instances (ops : list op) (c : cls) (d : string) :
  default 0 (sizes (run_ops Bundle ops empty_state) !! c) =
    instances_of (run_ops Bundle ops empty_state) c ∧
  (c ∉ INITIALIZED (run_ops Bundle ops empty_state) →
   ∃ σ', ES5.EnumValue_new c d (run_ops Bundle ops empty_state) =
           (Return (length (objs (run_ops Bundle ops empty_state))), σ') ∧
         ordinal_of σ' (length (objs (run_ops Bundle ops empty_state))) =
           Some (instances_of (run_ops Bundle ops empty_state) c) ∧
         instances_of σ' c = S (instances_of (run_ops Bundle ops empty_state) c)).
Proof.
  assert (∀ c', default 0 (sizes (run_ops Bundle ops empty_state) !! c') =
                instances_of (run_ops Bundle ops empty_state) c') as Hexact.
  { apply counters_exact_run_ops. intros c'. unfold instances_of. simpl.
    by rewrite lookup_empty. }
  split; [done|]. intros Hc.
  destruct (ES5_EnumValue_new_counts c d _ Hc) as (σ' & Hrun & Hord & _ & Hinst).
  exists σ'. split; [done|]. split; [by rewrite Hord, Hexact|].
  by rewrite Hinst, decide_True.
Qed.

(** An instance that is not a member counts as well: after a [Letter]
    that no enum holds, the only member of a sealed enum has ordinal 1. *)
Lemma bundle_counter_example :
  instances_of (run_ops Bundle [OpNew "Letter" "x"] empty_state) "Letter" = 1 ∧
  (initEnum_of Bundle 0 "Letters"
     (declared_in Bundle (run_ops Bundle [OpNew "Letter" "x"] empty_state)
        [(okey "A" I, "Letter", "a")])).1 = Return tt ∧
  (observe 0 (initEnum_of Bundle 0 "Letters"
                (declared_in Bundle (run_ops Bundle [OpNew "Letter" "x"] empty_state)
                   [(okey "A" I, "Letter", "a")])).2).1 = Return [(Some "A", Some 1)].
Proof. split_and!; vm_compute; reflexivity. Qed.
